(** * TransactionCoordinatorCatalog: a shallow embedding

    The catalog of in-flight two-phase-commit coordinators
    (class [TransactionCoordinatorCatalog], second translation unit of
    src/mongo/util/tcmalloc_heap_profiler.cpp, lines 303-509).

    Every public member function takes [_mutex] for its whole body and
    only gives it up inside a condition-variable wait, so a call takes
    effect atomically on the state it finds when it gets past its wait.
    A call is therefore a function from the state of the process to an
    outcome: it returns, throws, stays suspended, or aborts the process. *)

From stdpp Require Import gmap list sorting pretty strings.
From Stdlib Require Import ZArith Lia.

(** ** Data *)

(** [LogicalSessionId] is only hashed and compared by the catalog; a
    session is named by a number.  [TxnNumber] is a 64-bit signed integer
    that the catalog only compares.  A [std::shared_ptr<TransactionCoordinator>]
    is the address of the coordinator it shares. *)
Abbreviation LogicalSessionId := N (only parsing).
Abbreviation TxnNumber := Z (only parsing).
Abbreviation CoordinatorPtr := N (only parsing).

(** [Status]: OK, or an error with its code. *)
Inductive Status :=
| StatusOK
| StatusError (code : N).

Definition isOK (s : Status) : bool :=
  match s with StatusOK => true | StatusError _ => false end.

(** Modelled from the spec: class TransactionCoordinator is not under src/
    (only its uses [onCompletion().getAsync(..)], [getDecision().isReady()]
    and [getDecision().getNoThrow().isOK()] are).  The spec describes the
    handle as exposing [getDecision() -> Future<Status>] and
    [onCompletion() -> Future<Status>], a completion notification that
    resolves exactly once and after which the decision is final.  A future
    is [None] while unresolved; [continuations] are the closures
    [[this, lsid, txnNumber](Status) { remove(lsid, txnNumber); }] that
    [insert] chained on the completion future, oldest first, each closure
    being the key it captured. *)
Record TransactionCoordinator := mkCoordinator {
  decision : option Status;
  completion : option Status;
  continuations : list (LogicalSessionId * TxnNumber);
}.

(** A coordinator that nothing has touched yet. *)
Definition fresh_coordinator : TransactionCoordinator :=
  mkCoordinator None None [].

(** [OperationContext]: all the catalog asks of it is the interruptible
    wait; [interruptStatus] is the kill or deadline status pending on the
    operation, if any. *)
Record OperationContext := mkOpCtx {
  interruptStatus : option Status;
}.

(** The two condition variables of the class. *)
Inductive CondVar :=
| _stepUpCompleteCv
| _noActiveCoordinatorsCv.

(** ** The per-session ordered map *)

(** Modelled from the spec: the class declaration
    (mongo/db/transaction_coordinator_catalog.h) is not under src/, so the
    comparator of the per-session [std::map] is taken from the spec's data
    model: the primary map is "ordered by transaction number per session so
    that latest is well-defined (numerically greatest key)", and
    [getLatestOnSession] reads the latest at [begin()]; the map is ordered
    by [std::greater<TxnNumber>].  A [std::map] is its sequence of
    (key, value) pairs in iteration order. *)
Module OrderedMap.

Definition key_comp (a b : TxnNumber) : bool := (b <? a)%Z.

Section ops.
Context {V : Type}.

(** [m.find(k)]: walk down the order; stop at the first key that does
    not come before [k]. *)
Fixpoint find (k : TxnNumber) (m : list (TxnNumber * V)) : option V :=
  match m with
  | [] => None
  | (k', v) :: m' =>
      if key_comp k' k then find k m'
      else if key_comp k k' then None
      else Some v
  end.

(** [m[k] = v]: insert at the position the order gives, or overwrite. *)
Fixpoint assign (k : TxnNumber) (v : V) (m : list (TxnNumber * V))
  : list (TxnNumber * V) :=
  match m with
  | [] => [(k, v)]
  | (k', v') :: m' =>
      if key_comp k' k then (k', v') :: assign k v m'
      else if key_comp k k' then (k, v) :: (k', v') :: m'
      else (k, v) :: m'
  end.

(** [m.erase(m.find(k))] for a key that is there; nothing otherwise. *)
Fixpoint erase (k : TxnNumber) (m : list (TxnNumber * V))
  : list (TxnNumber * V) :=
  match m with
  | [] => []
  | (k', v') :: m' =>
      if key_comp k' k then (k', v') :: erase k m'
      else if key_comp k k' then m
      else m'
  end.

Definition empty (m : list (TxnNumber * V)) : bool :=
  match m with [] => true | _ :: _ => false end.

(** [*m.begin()], when there is one. *)
Definition begin (m : list (TxnNumber * V)) : option (TxnNumber * V) :=
  match m with [] => None | e :: _ => Some e end.

Definition keys (m : list (TxnNumber * V)) : list TxnNumber := m.*1.

(** The representation invariant of a [std::map]: keys strictly in
    comparator order. *)
Definition ordered (m : list (TxnNumber * V)) : Prop :=
  StronglySorted (fun a b => key_comp a b = true) (keys m).

End ops.
End OrderedMap.

Abbreviation CoordinatorsForSession := (list (Z * N)) (only parsing).

(** ** The catalog and the process around it *)

Record TransactionCoordinatorCatalog := mkCatalog {
  _coordinatorsBySession : gmap N (list (Z * N));
  _coordinatorsBySessionDefunct : gmap N (list (Z * N));
  _stepUpCompletionStatus : option Status;
}.

(** What a call can see and change: the catalog, the coordinators its
    handles point to (an address that is not in [coordinators] holds a
    [fresh_coordinator]), the fail point, and the [notify_all] calls made
    so far, latest first.

    Modelled from the spec: the fail point service behind
    [MONGO_FAIL_POINT(doNotForgetCoordinator)] is not under src/; the spec
    calls it a runtime-toggled global test switch, so it is the boolean
    that the macro yields, switched from outside the catalog. *)
Record World := mkWorld {
  catalog : TransactionCoordinatorCatalog;
  coordinators : gmap N TransactionCoordinator;
  doNotForgetCoordinator : bool;
  notified : list CondVar;
}.

Definition the_coordinator (w : World) (p : CoordinatorPtr) : TransactionCoordinator :=
  default fresh_coordinator (coordinators w !! p).

Definition with_catalog (c : TransactionCoordinatorCatalog) (w : World) : World :=
  mkWorld c (coordinators w) (doNotForgetCoordinator w) (notified w).

Definition with_coordinator (p : CoordinatorPtr) (tc : TransactionCoordinator)
    (w : World) : World :=
  mkWorld (catalog w) (<[p := tc]> (coordinators w)) (doNotForgetCoordinator w)
          (notified w).

Definition with_fail_point (b : bool) (w : World) : World :=
  mkWorld (catalog w) (coordinators w) b (notified w).

Definition TransactionCoordinatorCatalog_new : TransactionCoordinatorCatalog :=
  mkCatalog ∅ ∅ None.

Definition initial_world : World :=
  mkWorld TransactionCoordinatorCatalog_new ∅ false [].

(** ** Outcomes of a call *)

(** The [invariant(..)] sites of the class. *)
Inductive FatalReason :=
| DuplicateCoordinator     (* insert: same session and txnNumber as a previous one *)
| EmptySessionMap          (* getLatestOnSession: a session with an empty map *)
| DecisionNotReady         (* remove: decisionFuture.isReady() *)
| StepUpAlreadyExited.     (* exitStepUp: !_stepUpCompletionStatus *)

Inductive Outcome (A : Type) :=
| Returned (a : A) (w : World)   (* normal return, in the new state *)
| Thrown (e : Status) (w : World) (* a C++ exception out of uassert or the wait *)
| Blocked                        (* the caller stays suspended in the wait *)
| Fatal (r : FatalReason).       (* invariant failure: the process aborts *)
Arguments Returned {A} a w.
Arguments Thrown {A} e w.
Arguments Blocked {A}.
Arguments Fatal {A} r.

Definition M (A : Type) : Type := World -> Outcome A.

Definition ret {A} (a : A) : M A := fun w => Returned a w.

Definition bind {A B} (m : M A) (k : A -> M B) : M B := fun w =>
  match m w with
  | Returned a w' => k a w'
  | Thrown e w' => Thrown e w'
  | Blocked => Blocked
  | Fatal r => Fatal r
  end.

Notation "'let!' x ':=' m 'in' k" := (bind m (fun x => k))
  (at level 10, x name, m at level 100, k at level 200).

Definition get_world : M World := fun w => Returned w w.
Definition modify (f : World -> World) : M unit := fun w => Returned tt (f w).

Definition invariant (b : bool) (r : FatalReason) : M unit := fun w =>
  if b then Returned tt w else Fatal r.

Definition uassertStatusOK (s : Status) : M unit := fun w =>
  if isOK s then Returned tt w else Thrown s w.

Definition notify_all (cv : CondVar) : M unit :=
  modify (fun w => mkWorld (catalog w) (coordinators w) (doNotForgetCoordinator w)
                           (cv :: notified w)).

Definition is_some {A} (o : option A) : bool :=
  match o with Some _ => true | None => false end.

(** ** The member functions *)

(** Modelled from the spec: [OperationContext::waitForConditionOrInterrupt]
    is not under src/.  By the spec the gate wait suspends the caller while
    the gate is unset and "participates in whatever cancellation mechanism
    the calling operation uses": a caller whose operation is cancelled
    leaves the wait with that error; the wait is over as soon as the
    predicate holds. *)
Definition waitForConditionOrInterrupt (opCtx : OperationContext)
    (pred : World -> bool) : M unit := fun w =>
  if pred w then Returned tt w
  else match interruptStatus opCtx with
       | Some e => Thrown e w
       | None => Blocked
       end.

(** [_waitForStepUpToComplete] (lines 482-489).  The caller holds the
    lock, so [invariant(lk.owns_lock())] holds at every call site. *)
Definition _waitForStepUpToComplete (opCtx : OperationContext) : M unit :=
  let! _ := waitForConditionOrInterrupt opCtx
              (fun w => is_some (_stepUpCompletionStatus (catalog w))) in
  let! w := get_world in
  match _stepUpCompletionStatus (catalog w) with
  | Some status => uassertStatusOK status
  | None => ret tt (* not reached: the wait returns only once the status is set *)
  end.

(** [_coordinatorsBySession[lsid]]: the session's map, default-constructed
    in place when the session has none. *)
Definition coordinatorsBySession_index (lsid : LogicalSessionId)
    : M CoordinatorsForSession := fun w =>
  let c := catalog w in
  match _coordinatorsBySession c !! lsid with
  | Some m => Returned m w
  | None =>
      Returned []
        (with_catalog (mkCatalog (<[lsid := []]> (_coordinatorsBySession c))
                                 (_coordinatorsBySessionDefunct c)
                                 (_stepUpCompletionStatus c)) w)
  end.

(** [coordinator->onCompletion().getAsync(callback)]: the closure is held
    by the coordinator until its completion future resolves. *)
Definition getAsync (coordinator : CoordinatorPtr)
    (callback : LogicalSessionId * TxnNumber) : M unit :=
  modify (fun w =>
    let tc := the_coordinator w coordinator in
    with_coordinator coordinator
      (mkCoordinator (decision tc) (completion tc) (continuations tc ++ [callback])) w).

(** [insert] (lines 324-351). *)
Definition insert (opCtx : OperationContext) (lsid : LogicalSessionId)
    (txnNumber : TxnNumber) (coordinator : CoordinatorPtr) (forStepUp : bool)
    : M unit :=
  let! _ := (if negb forStepUp then _waitForStepUpToComplete opCtx else ret tt) in
  let! coordinatorsBySession := coordinatorsBySession_index lsid in
  let! _ := invariant (negb (is_some (OrderedMap.find txnNumber coordinatorsBySession)))
                      DuplicateCoordinator in
  let! _ := getAsync coordinator (lsid, txnNumber) in
  (* coordinatorsBySession[txnNumber] = std::move(coordinator), through the
     reference into _coordinatorsBySession *)
  modify (fun w =>
    let c := catalog w in
    with_catalog
      (mkCatalog (alter (OrderedMap.assign txnNumber coordinator) lsid
                        (_coordinatorsBySession c))
                 (_coordinatorsBySessionDefunct c)
                 (_stepUpCompletionStatus c)) w).

(** [get] (lines 353-385).  The fail point is read before the test of
    [coordinatorToReturn], as [&&] orders it. *)
Definition get (opCtx : OperationContext) (lsid : LogicalSessionId)
    (txnNumber : TxnNumber) : M (option CoordinatorPtr) :=
  let! _ := _waitForStepUpToComplete opCtx in
  let! w := get_world in
  let coordinatorToReturn :=
    match _coordinatorsBySession (catalog w) !! lsid with
    | Some coordinatorsForSession =>
        match OrderedMap.find txnNumber coordinatorsForSession with
        | Some c => Some c
        | None => None
        end
    | None => None
    end in
  let coordinatorToReturn :=
    if doNotForgetCoordinator w && negb (is_some coordinatorToReturn) then
      match _coordinatorsBySessionDefunct (catalog w) !! lsid with
      | Some coordinatorsForSession =>
          match OrderedMap.find txnNumber coordinatorsForSession with
          | Some c => Some c
          | None => coordinatorToReturn
          end
      | None => coordinatorToReturn
      end
    else coordinatorToReturn in
  ret coordinatorToReturn.

(** [getLatestOnSession] (lines 387-406). *)
Definition getLatestOnSession (opCtx : OperationContext) (lsid : LogicalSessionId)
    : M (option (TxnNumber * CoordinatorPtr)) :=
  let! _ := _waitForStepUpToComplete opCtx in
  let! w := get_world in
  match _coordinatorsBySession (catalog w) !! lsid with
  | None => ret None
  | Some coordinatorsForSession =>
      let! _ := invariant (negb (OrderedMap.empty coordinatorsForSession))
                          EmptySessionMap in
      ret (OrderedMap.begin coordinatorsForSession)
  end.

(** [_coordinatorsBySessionDefunct[lsid][txnNumber] = std::move(coordinator)]. *)
Definition defunct_assign (lsid : LogicalSessionId) (txnNumber : TxnNumber)
    (coordinator : CoordinatorPtr) : M unit :=
  modify (fun w =>
    let c := catalog w in
    let m := default [] (_coordinatorsBySessionDefunct c !! lsid) in
    with_catalog
      (mkCatalog (_coordinatorsBySession c)
                 (<[lsid := OrderedMap.assign txnNumber coordinator m]>
                    (_coordinatorsBySessionDefunct c))
                 (_stepUpCompletionStatus c)) w).

(** [remove] (lines 408-450).  The closing test of
    [_coordinatorsBySession.empty()] is made on every path. *)
Definition remove (lsid : LogicalSessionId) (txnNumber : TxnNumber) : M unit :=
  let! w := get_world in
  let! _ :=
    match _coordinatorsBySession (catalog w) !! lsid with
    | Some coordinatorsForSession =>
        match OrderedMap.find txnNumber coordinatorsForSession with
        | Some coordinator =>
            let! _ :=
              (if doNotForgetCoordinator w then
                 let decisionFuture := decision (the_coordinator w coordinator) in
                 let! _ := invariant (is_some decisionFuture) DecisionNotReady in
                 match decisionFuture with
                 | Some st =>
                     if isOK st then defunct_assign lsid txnNumber coordinator
                     else ret tt
                 | None => ret tt
                 end
               else ret tt) in
            modify (fun w =>
              let c := catalog w in
              let coordinatorsForSession' :=
                OrderedMap.erase txnNumber coordinatorsForSession in
              with_catalog
                (mkCatalog
                   (if OrderedMap.empty coordinatorsForSession'
                    then delete lsid (_coordinatorsBySession c)
                    else <[lsid := coordinatorsForSession']> (_coordinatorsBySession c))
                   (_coordinatorsBySessionDefunct c)
                   (_stepUpCompletionStatus c)) w)
        | None => ret tt
        end
    | None => ret tt
    end in
  let! w := get_world in
  if bool_decide (_coordinatorsBySession (catalog w) = ∅)
  then notify_all _noActiveCoordinatorsCv
  else ret tt.

(** [exitStepUp] (lines 452-464); the two log lines before the lock are
    left out. *)
Definition exitStepUp (status : Status) : M unit :=
  let! w := get_world in
  let! _ := invariant (negb (is_some (_stepUpCompletionStatus (catalog w))))
                      StepUpAlreadyExited in
  let! _ := modify (fun w =>
    let c := catalog w in
    with_catalog (mkCatalog (_coordinatorsBySession c)
                            (_coordinatorsBySessionDefunct c)
                            (Some status)) w) in
  notify_all _stepUpCompleteCv.

(** ** The coordinators' side *)

(** Modelled from the spec: the future of [onCompletion()] is not under
    src/.  Its continuations run in the order they were chained; each one
    is the call of [remove] on the key the closure captured (line 346). *)
Fixpoint run_continuations (cbs : list (LogicalSessionId * TxnNumber)) : M unit :=
  match cbs with
  | [] => ret tt
  | (lsid, txnNumber) :: rest =>
      let! _ := remove lsid txnNumber in
      run_continuations rest
  end.

(** Modelled from the spec: class TransactionCoordinator is not under src/.
    The decision future of [coordinator] resolves with [status]; a future
    resolves once, so a later resolution changes nothing. *)
Definition resolve_decision (coordinator : CoordinatorPtr) (status : Status) : M unit :=
  modify (fun w =>
    let tc := the_coordinator w coordinator in
    match decision tc with
    | Some _ => w
    | None =>
        with_coordinator coordinator
          (mkCoordinator (Some status) (completion tc) (continuations tc)) w
    end).

(** Modelled from the spec: class TransactionCoordinator is not under src/.
    The completion future of [coordinator] resolves with [status]: by the
    spec's contract this happens exactly once and from then on the decision
    is final, so a decision still open is settled by [status]; the
    continuations chained by [insert] then run, outside any catalog call
    (the executor that resolves the future does not hold [_mutex]). *)
Definition complete (coordinator : CoordinatorPtr) (status : Status) : M unit :=
  let! w := get_world in
  let tc := the_coordinator w coordinator in
  match completion tc with
  | Some _ => ret tt
  | None =>
      let! _ := modify (with_coordinator coordinator
                  (mkCoordinator (Some (default status (decision tc))) (Some status) [])) in
      run_continuations (continuations tc)
  end.

(** ** Diagnostics and the drain *)

(** The (session, transaction numbers) pairs that [_toString] (lines
    491-507) walks: the sessions of the primary map, each with its keys in
    map order.  The order of the sessions is that of the hash map's
    iteration, which the code leaves open; here it is that of
    [map_to_list]. *)
Definition outstanding (c : TransactionCoordinatorCatalog)
    : list (LogicalSessionId * list TxnNumber) :=
  (fun e => (e.1, OrderedMap.keys e.2)) <$> map_to_list (_coordinatorsBySession c).

Definition newline : string := String (Ascii.ascii_of_nat 10) EmptyString.

Section diagnostics.
(** [lsid.toBSON()] printed to a stream: the rendering of a session id is
    not under src/ and is left open. *)
Variable toBSON : LogicalSessionId -> string.

Definition render_session (e : LogicalSessionId * list TxnNumber) : string :=
  String.append newline (String.append (toBSON e.1) (String.append ": "
    (String.concat EmptyString ((fun t : Z => String.append (pretty t) " ") <$> e.2)))).

Definition _toString (c : TransactionCoordinatorCatalog) : string :=
  String.append "[" (String.append
    (String.concat EmptyString (render_session <$> outstanding c)) "]").

(** The two lines that [join] logs each time its timed wait runs out. *)
Inductive LogLine :=
| LogSessionsLeft (sessions : nat)
    (* After 5 seconds of wait there are still .. sessions left with
       active coordinators which have not yet completed *)
| LogCatalog (text : string).

(** The wait of [join], in milliseconds: [stdx::chrono::seconds{5}]. *)
Definition join_wait_interval : N := 5000.

(** One wake-up of the thread inside [join]: when it happens and what the
    other threads have made of the process by then. *)
Record Wake := mkWake {
  wake_at : N;
  wake_sees : World;
}.

Inductive JoinOutcome :=
| JoinReturned (w : World) (log : list LogLine)  (* returned, seeing [w] *)
| JoinWaiting (log : list LogLine).              (* still inside the wait *)

Definition no_active_coordinators (w : World) : bool :=
  bool_decide (_coordinatorsBySession (catalog w) = ∅).

(** The body of the loop of [join]: the count of sessions, then the dump. *)
Definition diagnostic_lines (w : World) : list LogLine :=
  [LogSessionsLeft (size (_coordinatorsBySession (catalog w)));
   LogCatalog (_toString (catalog w))].

(** The loop of [join] from inside a wait that ends at [deadline].
    [wait_for(ul, 5s, pred)] is [wait_until(ul, now + 5s, pred)], that is
    [while (!pred()) if (wait_until(ul, abs) == timeout) return pred();
     return true;]: a wake-up that finds the predicate true ends [join];
    one at or past the deadline that finds it false ends the wait with
    [false], and the loop body logs and starts the next wait; any other
    wake-up goes back to sleep until the same deadline. *)
Fixpoint join_waiting (deadline : N) (wakes : list Wake) (log : list LogLine)
  : JoinOutcome :=
  match wakes with
  | [] => JoinWaiting log
  | wk :: rest =>
      let w := wake_sees wk in
      if no_active_coordinators w then JoinReturned w log
      else if (deadline <=? wake_at wk)%N then
        join_waiting (wake_at wk + join_wait_interval)%N rest
          (log ++ diagnostic_lines w)
      else join_waiting deadline rest log
  end.

(** [join()] called at time [now] in [w], woken as [wakes] says. *)
Definition join (now : N) (w : World) (wakes : list Wake) : JoinOutcome :=
  if no_active_coordinators w then JoinReturned w []
  else join_waiting (now + join_wait_interval)%N wakes [].

End diagnostics.

(** ** Histories of one catalog *)

Inductive Op :=
| OpInsert (opCtx : OperationContext) (lsid : LogicalSessionId)
    (txnNumber : TxnNumber) (coordinator : CoordinatorPtr) (forStepUp : bool)
| OpGet (opCtx : OperationContext) (lsid : LogicalSessionId) (txnNumber : TxnNumber)
| OpGetLatestOnSession (opCtx : OperationContext) (lsid : LogicalSessionId)
| OpRemove (lsid : LogicalSessionId) (txnNumber : TxnNumber)
| OpExitStepUp (status : Status)
| OpDecide (coordinator : CoordinatorPtr) (status : Status)
| OpComplete (coordinator : CoordinatorPtr) (status : Status)
| OpSetFailPoint (enabled : bool).

(** The state a call leaves behind: its own on return or throw, the one it
    found while it stays suspended, none once the process has aborted. *)
Definition after {A} (o : Outcome A) (w : World) : option World :=
  match o with
  | Returned _ w' => Some w'
  | Thrown _ w' => Some w'
  | Blocked => Some w
  | Fatal _ => None
  end.

Definition exec (op : Op) (w : World) : option World :=
  match op with
  | OpInsert opCtx lsid txnNumber coordinator forStepUp =>
      after (insert opCtx lsid txnNumber coordinator forStepUp w) w
  | OpGet opCtx lsid txnNumber => after (get opCtx lsid txnNumber w) w
  | OpGetLatestOnSession opCtx lsid => after (getLatestOnSession opCtx lsid w) w
  | OpRemove lsid txnNumber => after (remove lsid txnNumber w) w
  | OpExitStepUp status => after (exitStepUp status w) w
  | OpDecide coordinator status => after (resolve_decision coordinator status w) w
  | OpComplete coordinator status => after (complete coordinator status w) w
  | OpSetFailPoint enabled => Some (with_fail_point enabled w)
  end.

Fixpoint run (ops : list Op) (w : World) : option World :=
  match ops with
  | [] => Some w
  | op :: rest =>
      match exec op w with
      | Some w' => run rest w'
      | None => None
      end
  end.

(** The states of a catalog created empty, with its gate unset. *)
Definition reachable (w : World) : Prop :=
  exists ops, run ops initial_world = Some w.

(** ** Vocabulary of the statements *)

Definition primary (w : World) : gmap N (list (Z * N)) :=
  _coordinatorsBySession (catalog w).

Definition defunct (w : World) : gmap N (list (Z * N)) :=
  _coordinatorsBySessionDefunct (catalog w).

Definition gate (w : World) : option Status :=
  _stepUpCompletionStatus (catalog w).

(** Tier [tier] holds coordinator [c] under the key ([l], [t]). *)
Definition holds (tier : gmap N (list (Z * N))) (l : LogicalSessionId)
    (t : TxnNumber) (c : CoordinatorPtr) : Prop :=
  exists m, tier !! l = Some m /\ (t, c) ∈ m.

Definition has_key (tier : gmap N (list (Z * N))) (l : LogicalSessionId)
    (t : TxnNumber) : Prop :=
  exists c, holds tier l t c.

(** Every (session, txnNumber) key of a tier, one per entry. *)
Definition tier_keys (tier : gmap N (list (Z * N)))
    : list (LogicalSessionId * TxnNumber) :=
  map_to_list tier ≫= (fun e => (fun t => (e.1, t)) <$> OrderedMap.keys e.2).

(** The call gets past the step-up gate: it does not wait on it, or the
    gate holds a success status. *)
Definition passes_gate (forStepUp : bool) (w : World) : Prop :=
  forStepUp = true \/ gate w = Some StatusOK.

(** The representation invariant: every session of the primary map has
    entries, and every per-session map of both tiers is in key order. *)
Definition tier_ordered (tier : gmap N (list (Z * N))) : Prop :=
  forall l m, tier !! l = Some m -> OrderedMap.ordered m.

Definition tier_pruned (tier : gmap N (list (Z * N))) : Prop :=
  forall l m, tier !! l = Some m -> m <> [].

Definition catalog_wf (w : World) : Prop :=
  tier_ordered (primary w) /\ tier_pruned (primary w) /\ tier_ordered (defunct w).

(** [w'] comes after [w] in the life of one catalog: the representation
    invariant carries over and a gate that was set keeps its status. *)
Definition evolves (w w' : World) : Prop :=
  (catalog_wf w -> catalog_wf w') /\
  (forall st, gate w = Some st -> gate w' = Some st).

(** The coordinator that the code's own search finds under a key. *)
Definition entry (tier : gmap N (list (Z * N))) (l : LogicalSessionId)
    (t : TxnNumber) : option CoordinatorPtr :=
  tier !! l ≫= OrderedMap.find t.

(** A tier after [tier[l][t] = c]. *)
Definition store (l : LogicalSessionId) (t : TxnNumber) (c : CoordinatorPtr)
    (tier : gmap N (list (Z * N))) : gmap N (list (Z * N)) :=
  <[l := OrderedMap.assign t c (default [] (tier !! l))]> tier.

(** A tier after the key ([l], [t]) is erased and its session pruned. *)
Definition retire (l : LogicalSessionId) (t : TxnNumber)
    (tier : gmap N (list (Z * N))) : gmap N (list (Z * N)) :=
  match tier !! l with
  | Some m =>
      if OrderedMap.empty (OrderedMap.erase t m) then delete l tier
      else <[l := OrderedMap.erase t m]> tier
  | None => tier
  end.

Definition with_tiers (p d : gmap N (list (Z * N))) (w : World) : World :=
  with_catalog (mkCatalog p d (gate w)) w.

(** The world after [coordinator] has been handed one more continuation. *)
Definition chained (coordinator : CoordinatorPtr)
    (callback : LogicalSessionId * TxnNumber) (w : World) : World :=
  let tc := the_coordinator w coordinator in
  with_coordinator coordinator
    (mkCoordinator (decision tc) (completion tc) (continuations tc ++ [callback])) w.

(** The world after the closing [notify_all] of [remove], when it is due. *)
Definition drained_signal (w : World) : World :=
  if bool_decide (primary w = ∅)
  then mkWorld (catalog w) (coordinators w) (doNotForgetCoordinator w)
               (_noActiveCoordinatorsCv :: notified w)
  else w.

(** What [join] does when it first logs [lines] and then goes on as [o]. *)
Definition logged_first (lines : list LogLine) (o : JoinOutcome) : JoinOutcome :=
  match o with
  | JoinReturned w log => JoinReturned w (lines ++ log)
  | JoinWaiting log => JoinWaiting (lines ++ log)
  end.

(** ** Worked histories *)

Definition anyOpCtx : OperationContext := mkOpCtx None.

(** Recovery registers three coordinators of session 7 and opens the gate. *)
Definition history_open : list Op :=
  [OpInsert anyOpCtx 7 1 100 true; OpInsert anyOpCtx 7 3 101 true;
   OpInsert anyOpCtx 7 2 102 true; OpExitStepUp StatusOK].

Definition world_open : World :=
  default initial_world (run history_open initial_world).

(** Recovery registers one coordinator and then fails. *)
Definition history_failed : list Op :=
  [OpInsert anyOpCtx 7 1 100 true; OpExitStepUp (StatusError 11602)].

Definition world_failed : World :=
  default initial_world (run history_failed initial_world).

(** The three inserts of [history_open] in the order [order] gives them,
    then the gate opened. *)
Definition history_in_order (order : list (TxnNumber * CoordinatorPtr)) : list Op :=
  ((fun e => OpInsert anyOpCtx 7 e.1 e.2 true) <$> order) ++ [OpExitStepUp StatusOK].

(** [world_open] with the fail point switched on and the decision of
    coordinator 102 in, committed; with coordinator 100 failed as well. *)
Definition world_retaining : World :=
  default initial_world
    (run [OpSetFailPoint true; OpDecide 102 StatusOK;
          OpDecide 100 (StatusError 11602)] world_open).

(** [world_open] with the decision of coordinator 102 in, committed, and
    the fail point left off. *)
Definition world_forgetting : World :=
  default initial_world (run [OpDecide 102 StatusOK] world_open).

(** [world_open] once its three coordinators have completed. *)
Definition world_drained : World :=
  default initial_world
    (run [OpComplete 100 StatusOK; OpComplete 101 StatusOK; OpComplete 102 StatusOK]
         world_open).

(** Recovery has registered one coordinator and has not finished yet: the
    gate is unset. *)
Definition world_recovering : World :=
  default initial_world (run [OpInsert anyOpCtx 7 1 100 true] initial_world).

(** [world_open] after coordinator 102 was retired by hand and another one,
    200, registered under its key (7, 2). *)
Definition world_reused : World :=
  default initial_world
    (run [OpRemove 7 2; OpInsert anyOpCtx 7 2 200 false] world_open).

(** [world_retaining] after the [remove] of (7, 2), which the defunct tier
    takes in, and a later stretch of its life. *)
Definition world_retained : World :=
  default initial_world (run [OpRemove 7 2] world_retaining).

Definition history_later : list Op :=
  [OpInsert anyOpCtx 7 2 300 false; OpComplete 300 (StatusError 11602);
   OpRemove 7 1; OpSetFailPoint false].

Definition world_later : World :=
  default initial_world (run history_later world_retained).

(** ** Vocabulary of the further properties *)

(** [w'] comes after [w]: a decision that is in stays what it is, a key of
    the defunct tier stays one, and a coordinator that the defunct tier has
    taken in meanwhile has a successful decision. *)
Definition follows (w w' : World) : Prop :=
  (forall c st, decision (the_coordinator w c) = Some st ->
                decision (the_coordinator w' c) = Some st) /\
  (forall l t, is_Some (entry (defunct w) l t) -> is_Some (entry (defunct w') l t)) /\
  (forall l t c, entry (defunct w') l t = Some c ->
     entry (defunct w) l t = Some c \/
     exists st, decision (the_coordinator w' c) = Some st /\ isOK st = true).

(** [follows], across calls that do not touch the fail point: with the
    fail point off the defunct tier is not written. *)
Definition follows_quietly (w w' : World) : Prop :=
  follows w w' /\
  doNotForgetCoordinator w' = doNotForgetCoordinator w /\
  (doNotForgetCoordinator w = false -> defunct w' = defunct w).

(** * The heap profiler

    Class [HeapProfiler], first translation unit of
    src/mongo/util/tcmalloc_heap_profiler.cpp (lines 60-271): the
    serverStatus section that reports, per allocation stack, the bytes
    live in the tcmalloc heap.  The profiles themselves come from tcmalloc;
    a call of [_generateServerStatusSection] is a function of the profiler's
    state and of the two profiles tcmalloc hands it. *)
Module HeapProfiling.

(** Conversions to [uint64_t] / [size_t], to [int64_t] / [long long] and to
    [int], two's complement. *)
Definition uint64 (z : Z) : Z := (z mod 2 ^ 64)%Z.
Definition int64 (z : Z) : Z := ((z + 2 ^ 63) mod 2 ^ 64 - 2 ^ 63)%Z.
Definition int32 (z : Z) : Z := ((z + 2 ^ 31) mod 2 ^ 32 - 2 ^ 31)%Z.

(** [tcmalloc::Profile::Sample], the fields the profiler reads: the return
    addresses of the stack, how many of them count, and the bytes
    ([int64_t sum]). *)
Record Sample := mkSample {
  stack : list N;
  depth : Z;
  sum : Z;
}.

(** What the profiler takes from outside this file.  [StackHash] is
    MurmurHash3_x86_32 over the stack of the sample (third_party, not under
    src/); [frameString] is the text of [absl::Symbolize] for an address or,
    failing that, the address printed; [threshold_of] is
    [size_t threshold = totalActiveBytes * 0.99], a product in [double]
    converted to [size_t], which is left open here;
    [HeapProfilingSampleIntervalBytes] is the server parameter. *)
Class Platform := {
  StackHash : Sample -> N;
  frameString : N -> string;
  threshold_of : Z -> Z;
  HeapProfilingSampleIntervalBytes : Z;
}.

Record StackInfo := mkStackInfo {
  stackNum : Z;
  stackObj : list string;
  numFrames : Z;
  activeBytes : Z;
}.

(** The log lines of the class, by their ids, and the stack trace printed
    with the first section. *)
Inductive Event :=
| Log23158 (stackNum : Z) (stackObj : list string)   (* heapProfile stack *)
| Log23159                    (* Generating heap profiler serverStatus *)
| Log23160                    (* Following stack trace is for ... purposes *)
| PrintStackTrace
| Log23161.                   (* Clearing importantStacks *)

(** A [StackInfo*] is the address of an object made by [new StackInfo] and
    never freed.  [stackInfoMap] owns one object per hash and nothing else
    makes one, so a pointer is named by the hash whose object it is, and
    [stackInfoMap] gives the object behind it. *)
Record HeapProfiler := mkHeapProfiler {
  profileTokens : nat;                 (* how many tokens the vector holds *)
  sampleIntervalBytes : Z;
  sampleBytesAllocated : Z;
  logGeneralStats : bool;
  stackInfoMap : gmap N StackInfo;
  importantStacks : list N;            (* the set, in its iteration order *)
  numImportantSamples : Z;
}.

Definition kMaxImportantSamples : Z := 4 * 3600.

Section with_platform.
Context `{Platform}.

(** The constructor of [StackInfo] (lines 72-99), with what it logs. *)
Definition StackInfo_new (stackSample : Sample) (id : Z) : StackInfo * list Event :=
  let obj := frameString <$> take (Z.to_nat (depth stackSample)) (stack stackSample) in
  (mkStackInfo id obj (depth stackSample) 0, [Log23158 id obj]).

(** [p->stackNum]. *)
Definition stackNum_at (m : gmap N StackInfo) (p : N) : Z :=
  default 0%Z (stackNum <$> m !! p).

Definition activeBytes_at (m : gmap N StackInfo) (p : N) : Z :=
  default 0%Z (activeBytes <$> m !! p).

(** [std::set<StackInfo*, ..>] ordered by [a->stackNum < b->stackNum]:
    [find] and [insert] walk the order and take two pointers for the same
    element when neither number is below the other. *)
Fixpoint set_find (m : gmap N StackInfo) (p : N) (s : list N) : bool :=
  match s with
  | [] => false
  | q :: s' =>
      if (stackNum_at m q <? stackNum_at m p)%Z then set_find m p s'
      else if (stackNum_at m p <? stackNum_at m q)%Z then false
      else true
  end.

Fixpoint set_insert (m : gmap N StackInfo) (p : N) (s : list N) : list N :=
  match s with
  | [] => [p]
  | q :: s' =>
      if (stackNum_at m q <? stackNum_at m p)%Z then q :: set_insert m p s'
      else if (stackNum_at m p <? stackNum_at m q)%Z then p :: q :: s'
      else q :: s'
  end.

(** The locals of [_generateServerStatusSection] that the walk over the heap
    snapshot updates. *)
Record Live := mkLive {
  totalActiveBytes : Z;
  live_map : gmap N StackInfo;
  activeStacks : list N;
  stackInfos : list N;
  live_log : list Event;
}.

Definition set_activeBytes (b : Z) (i : StackInfo) : StackInfo :=
  mkStackInfo (stackNum i) (stackObj i) (numFrames i) b.

(** The body of [heapProfile.Iterate] (lines 142-160) for one sample.
    [stackInfoMap[stackHash]] puts a null entry in the map for a hash it
    does not have, before [stackInfoMap.size()] is read for the new
    object's number. *)
Definition live_sample (acc : Live) (sample : Sample) : Live :=
  let total := int64 (totalActiveBytes acc + sum sample) in
  let stackHash := StackHash sample in
  let '(m, log) :=
    match live_map acc !! stackHash with
    | Some _ => (live_map acc, live_log acc)
    | None =>
        let '(info, lines) :=
          StackInfo_new sample (int32 (Z.of_nat (size (live_map acc)) + 1)) in
        (<[stackHash := info]> (live_map acc), live_log acc ++ lines)
    end in
  if set_find m stackHash (activeStacks acc) then
    mkLive total
      (alter (fun i => set_activeBytes (uint64 (activeBytes i + sum sample)) i)
             stackHash m)
      (activeStacks acc) (stackInfos acc) log
  else
    mkLive total
      (alter (set_activeBytes (uint64 (sum sample))) stackHash m)
      (set_insert m stackHash (activeStacks acc))
      (stackInfos acc ++ [stackHash]) log.

Definition live_snapshot (m : gmap N StackInfo) (heapProfile : list Sample) : Live :=
  foldl live_sample (mkLive 0 m [] [] []) heapProfile.

(** [std::stable_sort] with [a->activeBytes > b->activeBytes]: each element
    goes in front of the first one that need not come before it. *)
Fixpoint sort_insert (m : gmap N StackInfo) (p : N) (l : list N) : list N :=
  match l with
  | [] => [p]
  | q :: l' =>
      if (activeBytes_at m p <? activeBytes_at m q)%Z then q :: sort_insert m p l'
      else p :: q :: l'
  end.

Definition stable_sort (m : gmap N StackInfo) (l : list N) : list N :=
  foldr (sort_insert m) [] l.

(** The loop of lines 189-196: stacks go into [importantStacks] one by one
    until their bytes, summed in [size_t], pass the threshold. *)
Fixpoint mark_important (m : gmap N StackInfo) (threshold cumulative : Z)
    (sorted important : list N) : list N :=
  match sorted with
  | [] => important
  | p :: rest =>
      let important' := set_insert m p important in
      let cumulative' := uint64 (cumulative + activeBytes_at m p) in
      if (threshold <? cumulative')%Z then important'
      else mark_important m threshold cumulative' rest important'
  end.

(** The section as it is built: the three numbers of "stats", and under
    "stacks" one sub-object per important stack, named [stack<stackNum>]
    and holding its activeBytes. *)
Record ServerStatusSection := mkSection {
  stats_totalActiveBytes : Z;
  stats_bytesAllocated : Z;
  stats_numStacks : Z;
  stacks : list (string * Z);
}.

Definition shortName (n : Z) : string := String.append "stack" (pretty n).

Definition stack_entry (m : gmap N StackInfo) (p : N) : string * Z :=
  (shortName (stackNum_at m p), int64 (activeBytes_at m p)).

(** [_generateServerStatusSection] (lines 123-218).  [heapProfile] is the
    snapshot of the live heap and [allocProfile] the allocation profile
    that stopping the current token returns. *)
Definition _generateServerStatusSection (heapProfile allocProfile : list Sample)
    (hp : HeapProfiler) : HeapProfiler * ServerStatusSection * list Event :=
  let log0 := if logGeneralStats hp then [Log23159; Log23160; PrintStackTrace] else [] in
  let live := live_snapshot (stackInfoMap hp) heapProfile in
  let m := live_map live in
  let tokens := S (Nat.pred (profileTokens hp)) in
  let allocatedBytes := foldl (fun a sample => int64 (a + sum sample)) 0%Z allocProfile in
  let bytesAllocated := uint64 (sampleBytesAllocated hp + allocatedBytes) in
  let sorted := stable_sort m (stackInfos live) in
  let threshold := threshold_of (totalActiveBytes live) in
  let important := mark_important m threshold 0 sorted (importantStacks hp) in
  let section :=
    mkSection (totalActiveBytes live) (int64 bytesAllocated)
              (int64 (Z.of_nat (size m))) (stack_entry m <$> important) in
  let n := (numImportantSamples hp + 1)%Z in
  if (kMaxImportantSamples <=? n)%Z then
    (mkHeapProfiler tokens (sampleIntervalBytes hp) bytesAllocated false m [] 0,
     section, log0 ++ live_log live ++ [Log23161])
  else
    (mkHeapProfiler tokens (sampleIntervalBytes hp) bytesAllocated false m important n,
     section, log0 ++ live_log live).

(** The constructor (lines 223-228): one profiling token, nothing seen. *)
Definition HeapProfiler_new : HeapProfiler :=
  mkHeapProfiler 1 (uint64 HeapProfilingSampleIntervalBytes) 0 true ∅ [] 0.

(** [generateServerStatusSection] (lines 230-233) and [generateSection]
    (lines 248-253): the section of the profiler when there is one, an
    empty object otherwise. *)
Definition generateServerStatusSection (heapProfile allocProfile : list Sample)
    (heapProfiler : option HeapProfiler)
    : option HeapProfiler * option ServerStatusSection * list Event :=
  match heapProfiler with
  | Some hp =>
      let '(hp', section, log) :=
        _generateServerStatusSection heapProfile allocProfile hp in
      (Some hp', Some section, log)
  | None => (None, None, [])
  end.

(** The profiler after the serverStatus calls [calls] tells of, each with
    its two profiles. *)
Definition after_calls (calls : list (list Sample * list Sample)) (hp : HeapProfiler)
    : HeapProfiler :=
  foldl (fun hp c => (_generateServerStatusSection c.1 c.2 hp).1.1) hp calls.

(** The stack numbers of a map: each within 1 .. size, no two alike. *)
Definition numbered (m : gmap N StackInfo) : Prop :=
  (forall h i, m !! h = Some i -> (1 <= stackNum i <= Z.of_nat (size m))%Z) /\
  (forall h1 h2 i1 i2, m !! h1 = Some i1 -> m !! h2 = Some i2 ->
     stackNum i1 = stackNum i2 -> h1 = h2).

(** A set of pointers in the order of its comparator. *)
Definition set_ordered (m : gmap N StackInfo) (s : list N) : Prop :=
  StronglySorted (fun a b => (a < b)%Z) (stackNum_at m <$> s).

(** The bytes of the samples of [samples] whose stack hashes to [h]. *)
Definition bytes_of (h : N) (samples : list Sample) : Z :=
  foldr (fun sample a => if decide (StackHash sample = h) then (sum sample + a)%Z else a)
        0%Z samples.

Definition total_bytes (samples : list Sample) : Z :=
  foldr (fun sample a => (sum sample + a)%Z) 0%Z samples.

(** What holds of the locals once the samples [seen] of a snapshot have
    been walked, starting from the map [m0]. *)
Definition live_inv (m0 : gmap N StackInfo) (seen : list Sample) (acc : Live) : Prop :=
  numbered (live_map acc) /\
  set_ordered (live_map acc) (activeStacks acc) /\
  (forall h, h ∈ activeStacks acc <-> h ∈ StackHash <$> seen) /\
  (forall h, h ∈ stackInfos acc <-> h ∈ StackHash <$> seen) /\
  NoDup (stackInfos acc) /\
  (forall h, h ∈ StackHash <$> seen ->
     exists i, live_map acc !! h = Some i /\
               activeBytes i = uint64 (bytes_of h seen)) /\
  (forall h, h ∉ StackHash <$> seen -> live_map acc !! h = m0 !! h) /\
  (forall h i, m0 !! h = Some i ->
     exists i', live_map acc !! h = Some i' /\ stackNum i' = stackNum i) /\
  totalActiveBytes acc = int64 (total_bytes seen) /\
  (size m0 <= size (live_map acc) <= size m0 + length seen)%nat.

(** The bytes summed in [size_t] over a list of stacks, from [cumulative]
    on, as the loop of [mark_important] sums them. *)
Definition cumulative_bytes (m : gmap N StackInfo) (cumulative : Z) (l : list N) : Z :=
  foldl (fun a p => uint64 (a + activeBytes_at m p)) cumulative l.

(** What every call keeps of the profiler: stacks numbered apart, the
    important ones known to the map and in the order of their numbers, the
    count of samples below its bound. *)
Definition profiler_wf (hp : HeapProfiler) : Prop :=
  numbered (stackInfoMap hp) /\
  set_ordered (stackInfoMap hp) (importantStacks hp) /\
  (forall p, p ∈ importantStacks hp -> is_Some (stackInfoMap hp !! p)) /\
  (0 <= numImportantSamples hp < kMaxImportantSamples)%Z.

(** The samples of all the heap snapshots of [calls]. *)
Definition snapshot_samples (calls : list (list Sample * list Sample)) : nat :=
  foldr (fun c n => (length c.1 + n)%nat) 0%nat calls.

End with_platform.

(** ** A worked profile *)

(** A stand-in platform: a stack hashes to its first address, an address
    prints as its number, the threshold is 99% in integers. *)
Definition example_platform : Platform :=
  Build_Platform (fun sample => default 0%N (head (stack sample))) pretty
                 (fun total => (total * 99 / 100)%Z) 262144.

(** Three stacks: 10 with 70 + 20 bytes, 20 with 9900, 30 with 10. *)
Definition example_heap : list Sample :=
  [mkSample [10%N; 11%N] 2 70; mkSample [20%N] 1 9900;
   mkSample [10%N; 11%N] 2 20; mkSample [30%N; 31%N; 32%N] 3 10].

Definition example_alloc : list Sample :=
  [mkSample [20%N] 1 4096; mkSample [40%N] 1 512].

(** A later snapshot in which only stack 30 is live. *)
Definition example_heap_later : list Sample := [mkSample [30%N; 31%N; 32%N] 3 5000].

End HeapProfiling.

(** * Facts about the ordered map *)

Section ordered_map_facts.
Context {V : Type}.
Implicit Types (k : Z) (v : V) (m : list (Z * V)).

Lemma key_comp_lt a b : OrderedMap.key_comp a b = true <-> (b < a)%Z.
Proof. unfold OrderedMap.key_comp. apply Z.ltb_lt. Qed.

Lemma key_comp_ge a b : OrderedMap.key_comp a b = false <-> (a <= b)%Z.
Proof. unfold OrderedMap.key_comp. apply Z.ltb_ge. Qed.

Lemma ordered_nil : OrderedMap.ordered (@nil (Z * V)).
Proof. constructor. Qed.

Lemma ordered_cons k v m :
  OrderedMap.ordered ((k, v) :: m) <->
  OrderedMap.ordered m /\ forall k' v', (k', v') ∈ m -> (k' < k)%Z.
Proof.
  unfold OrderedMap.ordered, OrderedMap.keys. simpl. split.
  - intros Hs. apply StronglySorted_inv in Hs as [Hm Hall]. split; [exact Hm |].
    intros k' v' Hin. rewrite Forall_forall in Hall.
    apply key_comp_lt, Hall. apply list_elem_of_fmap. exists (k', v'). done.
  - intros [Hm Hlt]. constructor; [exact Hm |].
    apply Forall_forall. intros k' Hin.
    apply list_elem_of_fmap in Hin as [[k'' v''] [-> Hin]].
    apply key_comp_lt. eapply Hlt, Hin.
Qed.

(** Case analysis on how a key compares with the key of a node. *)
Ltac key_cases k k' :=
  destruct (OrderedMap.key_comp k' k) eqn:?;
  [| destruct (OrderedMap.key_comp k k') eqn:?];
  repeat match goal with
         | H : OrderedMap.key_comp _ _ = true |- _ => apply key_comp_lt in H
         | H : OrderedMap.key_comp _ _ = false |- _ => apply key_comp_ge in H
         end.

Lemma find_elem k v m :
  OrderedMap.ordered m -> OrderedMap.find k m = Some v <-> (k, v) ∈ m.
Proof.
  induction m as [| [k1 v1] m IH]; intros Hord; simpl.
  - split; [discriminate | intros H; inversion H].
  - apply ordered_cons in Hord as [Hm Hlt]. rewrite elem_of_cons.
    key_cases k k1.
    + rewrite (IH Hm). split; [tauto |]. intros [Heq | Hin]; [| done].
      inversion Heq; lia.
    + split; [discriminate |]. intros [Heq | Hin]; [inversion Heq; lia |].
      apply Hlt in Hin. lia.
    + assert (k = k1) as -> by lia. split.
      * intros [= ->]. by left.
      * intros [[= ->] | Hin]; [done |]. apply Hlt in Hin. lia.
Qed.

Lemma find_assign_eq k v m : OrderedMap.find k (OrderedMap.assign k v m) = Some v.
Proof.
  induction m as [| [k1 v1] m IH]; simpl.
  - unfold OrderedMap.key_comp. rewrite Z.ltb_irrefl. done.
  - destruct (OrderedMap.key_comp k1 k) eqn:E1; simpl.
    + rewrite E1. exact IH.
    + destruct (OrderedMap.key_comp k k1) eqn:E2; simpl;
        unfold OrderedMap.key_comp; rewrite Z.ltb_irrefl; done.
Qed.

Lemma find_assign_ne k k' v m :
  k <> k' -> OrderedMap.find k' (OrderedMap.assign k v m) = OrderedMap.find k' m.
Proof.
  intros Hne. induction m as [| [k1 v1] m IH]; simpl.
  - key_cases k' k; try done. lia.
  - destruct (OrderedMap.key_comp k1 k) eqn:E1; simpl.
    + rewrite IH. done.
    + destruct (OrderedMap.key_comp k k1) eqn:E2; simpl.
      * apply key_comp_lt in E2.
        destruct (OrderedMap.key_comp k k') eqn:E3; [done |].
        destruct (OrderedMap.key_comp k' k) eqn:E4.
        -- apply key_comp_lt in E4.
           assert (OrderedMap.key_comp k1 k' = false) as -> by (apply key_comp_ge; lia).
           assert (OrderedMap.key_comp k' k1 = true) as -> by (apply key_comp_lt; lia).
           done.
        -- apply key_comp_ge in E3, E4. lia.
      * apply key_comp_ge in E1, E2. assert (k1 = k) as -> by lia.
        key_cases k' k; try done. lia.
Qed.

Lemma ordered_assign k v m :
  OrderedMap.ordered m -> OrderedMap.ordered (OrderedMap.assign k v m).
Proof.
  induction m as [| [k1 v1] m IH]; intros Hord; simpl.
  - apply ordered_cons. split; [apply ordered_nil |]. intros ? ? H; inversion H.
  - pose proof Hord as Hord'. apply ordered_cons in Hord' as [Hm Hlt].
    key_cases k k1.
    + apply ordered_cons. split; [by apply IH |].
      intros k' v' Hin. apply find_elem in Hin; [| by apply IH].
      destruct (decide (k = k')) as [<- | Hne]; [lia |].
      rewrite find_assign_ne in Hin by done.
      apply find_elem in Hin; [| done]. eauto.
    + apply ordered_cons. split; [done |].
      intros k' v' Hin. apply elem_of_cons in Hin as [[= -> ->] | Hin]; [lia |].
      apply Hlt in Hin. lia.
    + assert (k = k1) as -> by lia. apply ordered_cons. done.
Qed.

Lemma elem_erase k k' v' m :
  OrderedMap.ordered m ->
  (k', v') ∈ OrderedMap.erase k m <-> k' <> k /\ (k', v') ∈ m.
Proof.
  induction m as [| [k1 v1] m IH]; intros Hord; simpl.
  - split; [intros H; inversion H | intros [_ H]; inversion H].
  - apply ordered_cons in Hord as [Hm Hlt].
    key_cases k k1; rewrite ?elem_of_cons.
    + rewrite (IH Hm). split.
      * intros [[= -> ->] | [? ?]]; [split; [lia | by left] | tauto].
      * intros [Hne [Heq | Hin]]; [by left | right; done].
    + split.
      * intros [[= -> ->] | Hin]; [split; [lia | by left] |].
        split; [apply Hlt in Hin; lia | by right].
      * tauto.
    + assert (k = k1) as -> by lia. split.
      * intros Hin. split; [apply Hlt in Hin; lia | by right].
      * intros [Hne [[= ? ?] | Hin]]; [done | done].
Qed.

Lemma ordered_erase k m :
  OrderedMap.ordered m -> OrderedMap.ordered (OrderedMap.erase k m).
Proof.
  induction m as [| [k1 v1] m IH]; intros Hord; simpl; [done |].
  pose proof Hord as Hord'. apply ordered_cons in Hord' as [Hm Hlt].
  key_cases k k1; try done.
  apply ordered_cons. split; [by apply IH |].
  intros k' v' Hin. apply elem_erase in Hin as [_ Hin]; eauto.
Qed.

Lemma find_erase_eq k m :
  OrderedMap.ordered m -> OrderedMap.find k (OrderedMap.erase k m) = None.
Proof.
  intros Hord. destruct (OrderedMap.find k (OrderedMap.erase k m)) as [v |] eqn:E;
    [| done].
  apply find_elem in E; [| by apply ordered_erase].
  apply elem_erase in E as [Hne _]; done.
Qed.

Lemma find_erase_ne k k' m :
  OrderedMap.ordered m -> k <> k' ->
  OrderedMap.find k' (OrderedMap.erase k m) = OrderedMap.find k' m.
Proof.
  intros Hord Hne.
  destruct (OrderedMap.find k' m) as [v |] eqn:E.
  - apply find_elem; [by apply ordered_erase |]. apply elem_erase; [done |].
    split; [done |]. by apply find_elem.
  - destruct (OrderedMap.find k' (OrderedMap.erase k m)) as [v |] eqn:E'; [| done].
    apply find_elem in E'; [| by apply ordered_erase].
    apply elem_erase in E' as [_ Hin]; [| done].
    apply find_elem in Hin; [| done]. congruence.
Qed.

(** Erasing a key that is there empties the map exactly when it was the
    only key. *)
Lemma erase_last k v m :
  OrderedMap.ordered m -> OrderedMap.find k m = Some v ->
  OrderedMap.erase k m = [] <-> m = [(k, v)].
Proof.
  intros Hord Hfind. split.
  - intros Hnil. destruct m as [| [k1 v1] m]; [discriminate |].
    simpl in Hnil, Hfind.
    destruct (OrderedMap.key_comp k1 k) eqn:E1; [discriminate |].
    destruct (OrderedMap.key_comp k k1) eqn:E2; [discriminate |].
    apply key_comp_ge in E1, E2. subst m. inversion Hfind; subst.
    f_equal. f_equal. lia.
  - intros ->. simpl. unfold OrderedMap.key_comp. by rewrite Z.ltb_irrefl.
Qed.

Lemma begin_greatest k v m :
  OrderedMap.ordered m -> OrderedMap.begin m = Some (k, v) ->
  (k, v) ∈ m /\ forall k' v', (k', v') ∈ m -> (k' <= k)%Z.
Proof.
  destruct m as [| [k1 v1] m]; simpl; [discriminate |].
  intros Hord [= -> ->]. apply ordered_cons in Hord as [_ Hlt].
  split; [by left |].
  intros k' v' [[= -> ->] | Hin]%elem_of_cons; [lia |].
  apply Hlt in Hin. lia.
Qed.

Lemma ordered_NoDup m : OrderedMap.ordered m -> NoDup (OrderedMap.keys m).
Proof.
  induction m as [| [k1 v1] m IH]; intros Hord.
  - constructor.
  - apply ordered_cons in Hord as [Hm Hlt].
    unfold OrderedMap.keys in *. simpl. constructor; [| by apply IH].
    intros Hin. apply list_elem_of_fmap in Hin as [[k' v'] [Heq Hin]].
    simpl in Heq. subst k'. apply Hlt in Hin. lia.
Qed.

End ordered_map_facts.

(** * The calls, case by case *)

Lemma bind_unfold {A B} (m : M A) (k : A -> M B) w :
  bind m k w =
  match m w with
  | Returned a w' => k a w'
  | Thrown e w' => Thrown e w'
  | Blocked => Blocked
  | Fatal r => Fatal r
  end.
Proof. reflexivity. Qed.

(** The gate: what [_waitForStepUpToComplete] does in each state. *)
Lemma wait_passes opCtx w :
  gate w = Some StatusOK -> _waitForStepUpToComplete opCtx w = Returned tt w.
Proof.
  unfold gate, _waitForStepUpToComplete, bind, waitForConditionOrInterrupt, get_world.
  intros H. rewrite H. simpl. rewrite H. reflexivity.
Qed.

Lemma wait_failed opCtx w st :
  gate w = Some st -> isOK st = false ->
  _waitForStepUpToComplete opCtx w = Thrown st w.
Proof.
  unfold gate, _waitForStepUpToComplete, bind, waitForConditionOrInterrupt, get_world,
    uassertStatusOK.
  intros H Hst. rewrite H. simpl. rewrite H, Hst. reflexivity.
Qed.

Lemma wait_interrupted opCtx w e :
  gate w = None -> interruptStatus opCtx = Some e ->
  _waitForStepUpToComplete opCtx w = Thrown e w.
Proof.
  unfold gate, _waitForStepUpToComplete, bind, waitForConditionOrInterrupt.
  intros H1 H2. rewrite H1, H2. reflexivity.
Qed.

Lemma wait_blocked opCtx w :
  gate w = None -> interruptStatus opCtx = None ->
  _waitForStepUpToComplete opCtx w = Blocked.
Proof.
  unfold gate, _waitForStepUpToComplete, bind, waitForConditionOrInterrupt.
  intros H1 H2. rewrite H1, H2. reflexivity.
Qed.

(** The gate never changes the world and never aborts. *)
Lemma wait_cases opCtx w :
  _waitForStepUpToComplete opCtx w = Returned tt w /\ gate w = Some StatusOK \/
  (exists e, _waitForStepUpToComplete opCtx w = Thrown e w /\
             (gate w = Some e /\ isOK e = false \/
              gate w = None /\ interruptStatus opCtx = Some e)) \/
  _waitForStepUpToComplete opCtx w = Blocked /\ gate w = None.
Proof.
  destruct (gate w) as [[| code] |] eqn:Hg.
  - left. split; [by apply wait_passes | done].
  - right. left. exists (StatusError code). split; [by apply wait_failed |].
    left. done.
  - destruct (interruptStatus opCtx) as [e |] eqn:Hi.
    + right. left. exists e. split; [by apply wait_interrupted | by right].
    + right. right. split; [by apply wait_blocked | done].
Qed.

Lemma alter_store l t c (p : gmap N (list (Z * N))) :
  alter (OrderedMap.assign t c) l
        (match p !! l with Some _ => p | None => <[l := []]> p end)
  = store l t c p.
Proof.
  unfold store. apply map_eq. intros i.
  destruct (decide (l = i)) as [<- | Hne].
  - rewrite lookup_insert_eq. rewrite lookup_alter_eq.
    destruct (p !! l) as [m |] eqn:E; simpl.
    + by rewrite E.
    + by rewrite lookup_insert_eq.
  - rewrite lookup_insert_ne by done. rewrite lookup_alter_ne by done.
    destruct (p !! l); [done |]. by rewrite lookup_insert_ne.
Qed.

(** [insert] past the gate: the invariant, then the two mutations. *)
Lemma insert_body opCtx l t c w :
  insert opCtx l t c true w =
  match entry (primary w) l t with
  | Some _ => Fatal DuplicateCoordinator
  | None =>
      Returned tt (with_tiers (store l t c (primary w)) (defunct w)
                              (chained c (l, t) w))
  end.
Proof.
  unfold insert, bind, ret, coordinatorsBySession_index, invariant, getAsync, modify,
    entry, primary. simpl.
  destruct (_coordinatorsBySession (catalog w) !! l) as [m |] eqn:E; simpl.
  - destruct (OrderedMap.find t m) as [c' |] eqn:F; simpl; [done |].
    f_equal. unfold with_tiers, with_catalog, chained, with_coordinator, defunct,
      gate, primary. simpl. f_equal. f_equal.
    rewrite <- alter_store. by rewrite E.
  - f_equal. unfold with_tiers, with_catalog, chained, with_coordinator, defunct,
      gate, primary. simpl. f_equal. f_equal.
    rewrite <- alter_store. by rewrite E.
Qed.

Lemma insert_gated opCtx l t c w :
  insert opCtx l t c false w =
  match _waitForStepUpToComplete opCtx w with
  | Returned _ w' => insert opCtx l t c true w'
  | Thrown e w' => Thrown e w'
  | Blocked => Blocked
  | Fatal r => Fatal r
  end.
Proof.
  unfold insert at 1. unfold bind at 1. simpl.
  destruct (_waitForStepUpToComplete opCtx w); done.
Qed.

Lemma insert_passed opCtx l t c forStepUp w :
  passes_gate forStepUp w ->
  insert opCtx l t c forStepUp w = insert opCtx l t c true w.
Proof.
  intros [-> | Hg]; [done |]. destruct forStepUp; [done |].
  rewrite insert_gated, wait_passes; done.
Qed.

(** [remove], as one case analysis. *)
Lemma remove_body l t w :
  remove l t w =
  match entry (primary w) l t with
  | None => Returned tt (drained_signal w)
  | Some c =>
      if doNotForgetCoordinator w then
        match decision (the_coordinator w c) with
        | None => Fatal DecisionNotReady
        | Some st =>
            Returned tt (drained_signal
              (with_tiers (retire l t (primary w))
                          (if isOK st then store l t c (defunct w) else defunct w) w))
        end
      else
        Returned tt (drained_signal
          (with_tiers (retire l t (primary w)) (defunct w) w))
  end.
Proof.
  destruct w as [[p d g] h fp n].
  unfold remove, entry, primary, bind, get_world, ret, modify, invariant,
    defunct_assign, notify_all, drained_signal, with_tiers, with_catalog, retire,
    store, defunct, gate, the_coordinator, primary. simpl.
  destruct (p !! l) as [m |] eqn:E; simpl; [| by destruct (bool_decide _)].
  destruct (OrderedMap.find t m) as [c |] eqn:F; simpl;
    [| by destruct (bool_decide _)].
  destruct fp; simpl.
  - destruct (decision (default fresh_coordinator (h !! c))) as [st |]; simpl;
      [| done].
    destruct (isOK st); simpl; by destruct (bool_decide _).
  - by destruct (bool_decide _).
Qed.

Lemma exitStepUp_body st w :
  exitStepUp st w =
  match gate w with
  | Some _ => Fatal StepUpAlreadyExited
  | None =>
      Returned tt
        (mkWorld (mkCatalog (primary w) (defunct w) (Some st)) (coordinators w)
                 (doNotForgetCoordinator w) (_stepUpCompleteCv :: notified w))
  end.
Proof.
  unfold exitStepUp, bind, get_world, invariant, gate, modify, notify_all.
  destruct (_stepUpCompletionStatus (catalog w)); done.
Qed.

Lemma get_body opCtx l t w :
  gate w = Some StatusOK ->
  get opCtx l t w =
  Returned (match entry (primary w) l t with
            | Some c => Some c
            | None => if doNotForgetCoordinator w then entry (defunct w) l t else None
            end) w.
Proof.
  intros Hg. unfold get. unfold bind at 1. rewrite wait_passes by done.
  unfold bind, get_world, ret, entry, primary, defunct. f_equal.
  destruct (_coordinatorsBySession (catalog w) !! l) as [m |]; simpl.
  - destruct (OrderedMap.find t m) as [c |]; simpl.
    + by rewrite andb_false_r.
    + rewrite andb_true_r. destruct (doNotForgetCoordinator w); [| done].
      destruct (_coordinatorsBySessionDefunct (catalog w) !! l) as [m' |]; simpl;
        [| done].
      by destruct (OrderedMap.find t m').
  - rewrite andb_true_r. destruct (doNotForgetCoordinator w); [| done].
    destruct (_coordinatorsBySessionDefunct (catalog w) !! l) as [m' |]; simpl;
      [| done].
    by destruct (OrderedMap.find t m').
Qed.

Lemma getLatestOnSession_body opCtx l w :
  gate w = Some StatusOK ->
  getLatestOnSession opCtx l w =
  match primary w !! l with
  | None => Returned None w
  | Some [] => Fatal EmptySessionMap
  | Some (e :: _) => Returned (Some e) w
  end.
Proof.
  intros Hg. unfold getLatestOnSession. unfold bind at 1.
  rewrite wait_passes by done. unfold bind at 1. unfold get_world at 1.
  unfold primary. destruct (_coordinatorsBySession (catalog w) !! l) as [[| e m] |];
    done.
Qed.

(** A call that does not get past the gate ends as the gate does. *)
Lemma get_gated opCtx l t w :
  _waitForStepUpToComplete opCtx w <> Returned tt w ->
  (exists e, _waitForStepUpToComplete opCtx w = Thrown e w /\
             get opCtx l t w = Thrown e w) \/
  _waitForStepUpToComplete opCtx w = Blocked /\ get opCtx l t w = Blocked.
Proof.
  intros Hne. unfold get. rewrite bind_unfold.
  destruct (wait_cases opCtx w) as [[H _] | [(e & H & _) | [H _]]]; [done | |].
  - left. exists e. by rewrite H.
  - right. by rewrite H.
Qed.

Lemma getLatestOnSession_gated opCtx l w :
  _waitForStepUpToComplete opCtx w <> Returned tt w ->
  (exists e, _waitForStepUpToComplete opCtx w = Thrown e w /\
             getLatestOnSession opCtx l w = Thrown e w) \/
  _waitForStepUpToComplete opCtx w = Blocked /\
  getLatestOnSession opCtx l w = Blocked.
Proof.
  intros Hne. unfold getLatestOnSession. rewrite bind_unfold.
  destruct (wait_cases opCtx w) as [[H _] | [(e & H & _) | [H _]]]; [done | |].
  - left. exists e. by rewrite H.
  - right. by rewrite H.
Qed.

(** * Facts about a tier *)

Section tier_facts.
Implicit Types (tier p : gmap N (list (Z * N))) (l : N) (t : Z) (c : N).

Lemma entry_holds tier l t c :
  tier_ordered tier -> entry tier l t = Some c <-> holds tier l t c.
Proof.
  intros Hord. unfold entry, holds. split.
  - destruct (tier !! l) as [m |] eqn:E; simpl; [| discriminate].
    intros F. exists m. split; [done |]. apply find_elem; eauto.
  - intros (m & E & Hin). rewrite E. simpl. apply find_elem; eauto.
Qed.

Lemma entry_has_key tier l t :
  tier_ordered tier -> is_Some (entry tier l t) <-> has_key tier l t.
Proof.
  intros Hord. unfold has_key. split.
  - intros [c Hc]. exists c. by apply entry_holds.
  - intros [c Hc]. exists c. by apply entry_holds.
Qed.

Lemma entry_store_eq l t c tier : entry (store l t c tier) l t = Some c.
Proof.
  unfold entry, store. rewrite lookup_insert_eq. simpl. apply find_assign_eq.
Qed.

Lemma entry_store_ne l t c l' t' tier :
  (l', t') <> (l, t) -> entry (store l t c tier) l' t' = entry tier l' t'.
Proof.
  intros Hne. unfold entry, store.
  destruct (decide (l = l')) as [<- | Hl].
  - rewrite lookup_insert_eq. simpl. rewrite find_assign_ne by congruence.
    by destruct (tier !! l).
  - by rewrite lookup_insert_ne.
Qed.

Lemma assign_not_nil {V} t (v : V) m : OrderedMap.assign t v m <> [].
Proof.
  destruct m as [| [k1 v1] m]; simpl; [done |].
  destruct (OrderedMap.key_comp k1 t); [done |].
  by destruct (OrderedMap.key_comp t k1).
Qed.

Lemma store_ordered l t c tier : tier_ordered tier -> tier_ordered (store l t c tier).
Proof.
  intros Hord l' m. unfold store.
  destruct (decide (l = l')) as [<- | Hl].
  - rewrite lookup_insert_eq. intros [= <-]. apply ordered_assign.
    destruct (tier !! l) as [m0 |] eqn:E; simpl; [eauto | apply ordered_nil].
  - rewrite lookup_insert_ne by done. apply Hord.
Qed.

Lemma store_pruned l t c tier : tier_pruned tier -> tier_pruned (store l t c tier).
Proof.
  intros Hne l' m. unfold store.
  destruct (decide (l = l')) as [<- | Hl].
  - rewrite lookup_insert_eq. intros [= <-]. apply assign_not_nil.
  - rewrite lookup_insert_ne by done. apply Hne.
Qed.

Lemma retire_lookup_ne l t l' tier : l <> l' -> retire l t tier !! l' = tier !! l'.
Proof.
  intros Hl. unfold retire. destruct (tier !! l) as [m |]; [| done].
  destruct (OrderedMap.empty _).
  - by rewrite lookup_delete_ne.
  - by rewrite lookup_insert_ne.
Qed.

Lemma empty_nil {V} (m : list (Z * V)) : OrderedMap.empty m = true <-> m = [].
Proof. by destruct m. Qed.

Lemma retire_lookup_eq l t tier m :
  tier !! l = Some m ->
  retire l t tier !! l =
  if OrderedMap.empty (OrderedMap.erase t m) then None
  else Some (OrderedMap.erase t m).
Proof.
  intros E. unfold retire. rewrite E.
  destruct (OrderedMap.empty _).
  - by rewrite lookup_delete_eq.
  - by rewrite lookup_insert_eq.
Qed.

Lemma entry_retire_eq l t tier :
  tier_ordered tier -> entry (retire l t tier) l t = None.
Proof.
  intros Hord. unfold entry.
  destruct (tier !! l) as [m |] eqn:E.
  - rewrite (retire_lookup_eq _ _ _ _ E).
    destruct (OrderedMap.empty _); [done |]. simpl. apply find_erase_eq. eauto.
  - unfold retire. rewrite E. by rewrite E.
Qed.

Lemma entry_retire_ne l t l' t' tier :
  tier_ordered tier -> (l', t') <> (l, t) ->
  entry (retire l t tier) l' t' = entry tier l' t'.
Proof.
  intros Hord Hne. unfold entry.
  destruct (decide (l = l')) as [<- | Hl]; [| by rewrite retire_lookup_ne].
  destruct (tier !! l) as [m |] eqn:E.
  - rewrite (retire_lookup_eq _ _ _ _ E). simpl.
    assert (t <> t') by congruence.
    rewrite <- (find_erase_ne t t' m) by eauto.
    destruct (OrderedMap.empty _) eqn:Hemp; [| done].
    apply empty_nil in Hemp. by rewrite Hemp.
  - unfold retire. rewrite E. by rewrite E.
Qed.

Lemma retire_ordered l t tier : tier_ordered tier -> tier_ordered (retire l t tier).
Proof.
  intros Hord l' m.
  destruct (decide (l = l')) as [<- | Hl].
  - destruct (tier !! l) as [m0 |] eqn:E.
    + rewrite (retire_lookup_eq _ _ _ _ E).
      destruct (OrderedMap.empty _); [done |]. intros [= <-].
      apply ordered_erase. eauto.
    + unfold retire. rewrite E. by rewrite E.
  - rewrite retire_lookup_ne by done. apply Hord.
Qed.

Lemma retire_pruned l t tier : tier_pruned tier -> tier_pruned (retire l t tier).
Proof.
  intros Hne l' m.
  destruct (decide (l = l')) as [<- | Hl].
  - destruct (tier !! l) as [m0 |] eqn:E.
    + rewrite (retire_lookup_eq _ _ _ _ E).
      destruct (OrderedMap.empty _) eqn:Hemp; [done |]. intros [= <-].
      intros Hnil. apply empty_nil in Hnil. congruence.
    + unfold retire. rewrite E. by rewrite E.
  - rewrite retire_lookup_ne by done. apply Hne.
Qed.

(** The session's map goes exactly when the erased entry was its last. *)
Lemma retire_prunes l t c tier :
  tier_ordered tier -> entry tier l t = Some c ->
  retire l t tier !! l = None <-> tier !! l = Some [(t, c)].
Proof.
  intros Hord. unfold entry.
  destruct (tier !! l) as [m |] eqn:E; simpl; [| discriminate].
  intros F. rewrite (retire_lookup_eq _ _ _ _ E).
  destruct (OrderedMap.empty _) eqn:Hemp.
  - apply empty_nil in Hemp. apply (erase_last t c m) in Hemp; [| eauto | done].
    split; [by rewrite Hemp | done].
  - split; [discriminate |]. intros [= ->].
    simpl in Hemp. unfold OrderedMap.key_comp in Hemp.
    by rewrite Z.ltb_irrefl in Hemp.
Qed.

End tier_facts.

(** * The life of a catalog *)

Lemma evolves_refl w : evolves w w.
Proof. split; auto. Qed.

Lemma evolves_trans w1 w2 w3 : evolves w1 w2 -> evolves w2 w3 -> evolves w1 w3.
Proof. intros [H1 G1] [H2 G2]. split; auto. Qed.

Lemma evolves_same_catalog w w' : catalog w' = catalog w -> evolves w w'.
Proof.
  intros Hc. unfold evolves, catalog_wf, primary, defunct, gate. rewrite Hc. auto.
Qed.

Lemma drained_signal_catalog w : catalog (drained_signal w) = catalog w.
Proof. unfold drained_signal. by destruct (bool_decide _). Qed.

Lemma drained_signal_coordinators w :
  coordinators (drained_signal w) = coordinators w.
Proof. unfold drained_signal. by destruct (bool_decide _). Qed.

Lemma drained_signal_fail_point w :
  doNotForgetCoordinator (drained_signal w) = doNotForgetCoordinator w.
Proof. unfold drained_signal. by destruct (bool_decide _). Qed.

Lemma evolves_tiers p d w :
  (catalog_wf w -> tier_ordered p /\ tier_pruned p /\ tier_ordered d) ->
  evolves w (drained_signal (with_tiers p d w)).
Proof.
  intros H. unfold evolves, catalog_wf, primary, defunct, gate.
  rewrite drained_signal_catalog. simpl. split; [exact H | auto].
Qed.

Lemma insert_evolves opCtx l t c forStepUp w w' :
  after (insert opCtx l t c forStepUp w) w = Some w' -> evolves w w'.
Proof.
  assert (Hbody : forall w0 w1,
    after (insert opCtx l t c true w0) w0 = Some w1 -> evolves w0 w1).
  { intros w0 w1. rewrite insert_body.
    destruct (entry (primary w0) l t); simpl; [discriminate |].
    intros [= <-]. unfold evolves, catalog_wf, primary, defunct, gate. simpl.
    split; [| auto]. intros (Ho & Hp & Hd).
    split; [by apply store_ordered |]. split; [by apply store_pruned | done]. }
  destruct forStepUp; [apply Hbody |].
  rewrite insert_gated.
  destruct (wait_cases opCtx w) as [[H _] | [(e & H & _) | [H _]]]; rewrite H.
  - apply Hbody.
  - simpl. intros [= <-]. apply evolves_refl.
  - simpl. intros [= <-]. apply evolves_refl.
Qed.

(** The two lookups leave the world as they found it. *)
Lemma get_pure opCtx l t w w' : after (get opCtx l t w) w = Some w' -> w' = w.
Proof.
  destruct (wait_cases opCtx w) as [[H Hg] | [(e & H & _) | [H _]]].
  - rewrite get_body by done. simpl. congruence.
  - destruct (get_gated opCtx l t w) as [(e' & _ & ->) | [_ ->]]; simpl;
      congruence.
  - destruct (get_gated opCtx l t w) as [(e' & _ & ->) | [_ ->]]; simpl;
      congruence.
Qed.

Lemma getLatestOnSession_pure opCtx l w w' :
  after (getLatestOnSession opCtx l w) w = Some w' -> w' = w.
Proof.
  destruct (wait_cases opCtx w) as [[H Hg] | [(e & H & _) | [H _]]].
  - rewrite getLatestOnSession_body by done.
    destruct (primary w !! l) as [[| e m] |]; simpl; congruence.
  - destruct (getLatestOnSession_gated opCtx l w) as [(e' & _ & ->) | [_ ->]];
      simpl; congruence.
  - destruct (getLatestOnSession_gated opCtx l w) as [(e' & _ & ->) | [_ ->]];
      simpl; congruence.
Qed.

Lemma remove_evolves l t w w' :
  after (remove l t w) w = Some w' -> evolves w w'.
Proof.
  rewrite remove_body.
  assert (Hret : forall d,
    (catalog_wf w -> tier_ordered d) ->
    evolves w (drained_signal (with_tiers (retire l t (primary w)) d w))).
  { intros d Hd. apply evolves_tiers. intros Hwf. pose proof Hwf as (Ho & Hp & _).
    split; [by apply retire_ordered |]. split; [by apply retire_pruned | auto]. }
  destruct (entry (primary w) l t) as [c |]; simpl.
  - destruct (doNotForgetCoordinator w).
    + destruct (decision (the_coordinator w c)) as [st |]; simpl; [| discriminate].
      intros [= <-]. apply Hret. intros (_ & _ & Hd).
      destruct (isOK st); [by apply store_ordered | done].
    + simpl. intros [= <-]. apply Hret. by intros (_ & _ & Hd).
  - intros [= <-]. apply evolves_same_catalog, drained_signal_catalog.
Qed.

Lemma exitStepUp_evolves st w w' :
  after (exitStepUp st w) w = Some w' -> evolves w w'.
Proof.
  rewrite exitStepUp_body. destruct (gate w) eqn:Hg; simpl; [discriminate |].
  intros [= <-]. unfold evolves, catalog_wf, primary, defunct, gate in *. simpl.
  split; [done |]. intros st'. rewrite Hg. discriminate.
Qed.

(** [remove] neither throws nor waits. *)
Lemma remove_cases l t w :
  (exists w', remove l t w = Returned tt w') \/
  remove l t w = Fatal DecisionNotReady.
Proof.
  rewrite remove_body. destruct (entry (primary w) l t) as [c |]; [| eauto].
  destruct (doNotForgetCoordinator w); [| eauto].
  destruct (decision (the_coordinator w c)); eauto.
Qed.

Lemma run_continuations_cases cbs w :
  (exists w', run_continuations cbs w = Returned tt w') \/
  run_continuations cbs w = Fatal DecisionNotReady.
Proof.
  revert w. induction cbs as [| [l t] cbs IH]; intros w; simpl.
  - left. by exists w.
  - rewrite bind_unfold. destruct (remove_cases l t w) as [[w1 ->] | ->]; [| by right].
    apply IH.
Qed.

Lemma run_continuations_evolves cbs w w' :
  run_continuations cbs w = Returned tt w' -> evolves w w'.
Proof.
  revert w. induction cbs as [| [l t] cbs IH]; intros w; simpl.
  - intros [= <-]. apply evolves_refl.
  - rewrite bind_unfold.
    destruct (remove_cases l t w) as [[w1 R] | R]; rewrite R; [| discriminate].
    intros H. apply evolves_trans with w1.
    + apply (remove_evolves l t). by rewrite R.
    + by apply IH.
Qed.

Lemma complete_evolves c st w w' :
  after (complete c st w) w = Some w' -> evolves w w'.
Proof.
  unfold complete. rewrite bind_unfold. unfold get_world.
  destruct (completion (the_coordinator w c)); simpl.
  - intros [= <-]. apply evolves_refl.
  - rewrite bind_unfold. unfold modify.
    set (w1 := with_coordinator c _ w).
    destruct (run_continuations_cases (continuations (the_coordinator w c)) w1)
      as [[w2 R] | R]; rewrite R; simpl; [| discriminate].
    intros [= <-].
    apply evolves_trans with w1; [by apply evolves_same_catalog |].
    by apply (run_continuations_evolves (continuations (the_coordinator w c))).
Qed.

Lemma resolve_decision_catalog c st w w' :
  after (resolve_decision c st w) w = Some w' -> catalog w' = catalog w.
Proof.
  unfold resolve_decision, modify. simpl. intros [= <-].
  by destruct (decision (the_coordinator w c)).
Qed.

Lemma exec_evolves op w w' : exec op w = Some w' -> evolves w w'.
Proof.
  destruct op; simpl.
  - apply insert_evolves.
  - intros H. apply get_pure in H as ->. apply evolves_refl.
  - intros H. apply getLatestOnSession_pure in H as ->. apply evolves_refl.
  - apply remove_evolves.
  - apply exitStepUp_evolves.
  - intros H. by apply evolves_same_catalog, (resolve_decision_catalog coordinator status).
  - apply complete_evolves.
  - intros [= <-]. by apply evolves_same_catalog.
Qed.

Lemma run_evolves ops w w' : run ops w = Some w' -> evolves w w'.
Proof.
  revert w. induction ops as [| op ops IH]; intros w; simpl.
  - intros [= <-]. apply evolves_refl.
  - destruct (exec op w) as [w1 |] eqn:E; [| discriminate].
    intros H. apply evolves_trans with w1; [by apply (exec_evolves op) | by apply IH].
Qed.

Lemma initial_world_wf : catalog_wf initial_world.
Proof.
  unfold catalog_wf, tier_ordered, tier_pruned, primary, defunct. simpl.
  repeat split; intros l m; rewrite lookup_empty; discriminate.
Qed.

Lemma reachable_wf w : reachable w -> catalog_wf w.
Proof.
  intros [ops Hrun]. apply run_evolves in Hrun as [Hwf _].
  apply Hwf, initial_world_wf.
Qed.

Lemma run_app ops1 ops2 w :
  run (ops1 ++ ops2) w = run ops1 w ≫= run ops2.
Proof.
  revert w. induction ops1 as [| op ops1 IH]; intros w; simpl; [done |].
  destruct (exec op w); simpl; [apply IH | done].
Qed.

Lemma reachable_run ops w w' : reachable w -> run ops w = Some w' -> reachable w'.
Proof.
  intros [ops0 H0] H. exists (ops0 ++ ops). rewrite run_app, H0. exact H.
Qed.

Lemma world_open_reachable : reachable world_open.
Proof. exists history_open. vm_compute. reflexivity. Qed.

(** * The keys of a tier *)

Lemma elem_tier_keys tier l t :
  (l, t) ∈ tier_keys tier <-> has_key tier l t.
Proof.
  unfold tier_keys, has_key, holds, OrderedMap.keys. rewrite list_elem_of_bind. split.
  - intros ([l' m] & Hin & Hm). simpl in Hin.
    apply list_elem_of_fmap in Hin as (t' & [= -> ->] & Hin).
    apply list_elem_of_fmap in Hin as ([t'' c] & -> & Hin).
    apply elem_of_map_to_list in Hm. exists c, m. done.
  - intros (c & m & Hm & Hin). exists (l, m). split.
    + simpl. apply list_elem_of_fmap. exists t. split; [done |].
      apply list_elem_of_fmap. exists (t, c). done.
    + by apply elem_of_map_to_list.
Qed.

Lemma tier_keys_NoDup tier : tier_ordered tier -> NoDup (tier_keys tier).
Proof.
  intros Hord. unfold tier_keys. apply NoDup_bind.
  - intros [l1 m1] [l2 m2] [l t] H1 H2 Hy1 Hy2. simpl in *.
    apply list_elem_of_fmap in Hy1 as (t1 & [= -> ->] & _).
    apply list_elem_of_fmap in Hy2 as (t2 & [= -> ->] & _).
    apply elem_of_map_to_list in H1, H2. congruence.
  - intros [l m] Hm. simpl. apply elem_of_map_to_list in Hm.
    apply NoDup_fmap_2_strong; [congruence |].
    apply ordered_NoDup. eauto.
  - apply NoDup_map_to_list.
Qed.

(** * One coordinator per key (C1) *)

(** Inserts of pairwise distinct keys that the primary map does not hold,
    made by recovery: none aborts, and each coordinator ends up under its
    key. *)
Lemma distinct_inserts_succeed (ins : list (N * Z * N)) w :
  tier_ordered (primary w) ->
  NoDup (fst <$> ins) ->
  (forall e, e ∈ ins -> entry (primary w) e.1.1 e.1.2 = None) ->
  exists w',
    run ((fun e => OpInsert anyOpCtx e.1.1 e.1.2 e.2 true) <$> ins) w = Some w' /\
    tier_ordered (primary w') /\
    (forall e, e ∈ ins -> entry (primary w') e.1.1 e.1.2 = Some e.2) /\
    (forall l t, (l, t) ∉ fst <$> ins ->
       entry (primary w') l t = entry (primary w) l t).
Proof.
  revert w. induction ins as [| [[l t] c] ins IH]; intros w Hord Hnd Hfree.
  - exists w. split; [done |]. split; [done |]. split; [| done].
    intros e He. inversion He.
  - simpl in Hnd. apply NoDup_cons in Hnd as [Hnotin Hnd].
    assert (entry (primary w) l t = None) as Hlt by (apply (Hfree (l, t, c)); by left).
    cbn [fmap list_fmap run exec fst snd]. rewrite insert_body, Hlt.
    cbn [after].
    set (w1 := with_tiers _ _ _).
    assert (primary w1 = store l t c (primary w)) as Hp1 by done.
    destruct (IH w1) as (w' & Hrun & Hord' & Hin & Hout).
    + rewrite Hp1. by apply store_ordered.
    + done.
    + intros e He. rewrite Hp1. rewrite entry_store_ne.
      * apply Hfree. by right.
      * intros Heq. apply Hnotin. apply list_elem_of_fmap. exists e.
        split; [| done]. destruct e as [[l' t'] c']. simpl in *. congruence.
    + exists w'. split; [done |]. split; [done |]. split.
      * intros e [-> | He]%elem_of_cons; [| by apply Hin]. simpl.
        rewrite Hout by done. rewrite Hp1. apply entry_store_eq.
      * intros l' t' Hnot. apply not_elem_of_cons in Hnot as [Hne Hnot].
        rewrite Hout by done. rewrite Hp1. by apply entry_store_ne.
Qed.

(** C1, as the code has it.  In a state of the catalog's life, [insert] on
    a key that the primary map already holds aborts the process at the
    invariant once the call is past the step-up gate ([forStepUp], or the
    gate set to success).  A call that the gate stops does not reach the
    invariant: it throws and leaves the catalog as it is (the status of the
    failed recovery once the gate holds one; the caller's own interruption
    status while the gate is unset and the caller is interrupted), or it
    stays in its wait (gate unset, caller not interrupted).  In no case
    does an [insert] on such a key return.  On a key the primary map does
    not hold it never aborts, and past the gate it returns with the
    coordinator registered under the key.  Whatever inserts and removes
    led to the state, no (session, txnNumber) key occurs twice in the
    primary map. *)
Theorem insert_duplicate_is_fatal opCtx l t c forStepUp w :
  reachable w ->
  (has_key (primary w) l t ->
     (passes_gate forStepUp w ->
      insert opCtx l t c forStepUp w = Fatal DuplicateCoordinator) /\
     (~ passes_gate forStepUp w ->
      (forall r, insert opCtx l t c forStepUp w <> Fatal r) /\
      (forall st, gate w = Some st ->
         isOK st = false /\ insert opCtx l t c forStepUp w = Thrown st w) /\
      (forall e, gate w = None -> interruptStatus opCtx = Some e ->
         insert opCtx l t c forStepUp w = Thrown e w) /\
      (gate w = None -> interruptStatus opCtx = None ->
         insert opCtx l t c forStepUp w = Blocked)) /\
     (forall a w', insert opCtx l t c forStepUp w <> Returned a w')) /\
  (~ has_key (primary w) l t ->
     (forall r, insert opCtx l t c forStepUp w <> Fatal r) /\
     (passes_gate forStepUp w ->
      exists w', insert opCtx l t c forStepUp w = Returned tt w' /\
                 holds (primary w') l t c)) /\
  NoDup (tier_keys (primary w)) /\
  (forall l' t', (l', t') ∈ tier_keys (primary w) <-> has_key (primary w) l' t').
Proof.
  intros Hreach. pose proof (reachable_wf w Hreach) as (Ho & Hp & Hd).
  assert (Hcases :
    insert opCtx l t c forStepUp w = insert opCtx l t c true w \/
    (exists e, insert opCtx l t c forStepUp w = Thrown e w) \/
    insert opCtx l t c forStepUp w = Blocked).
  { destruct forStepUp; [by left |]. rewrite insert_gated.
    destruct (wait_cases opCtx w) as [[H _] | [(e & H & _) | [H _]]]; rewrite H; eauto. }
  split; [| split].
  - intros Hkey. apply entry_has_key in Hkey as [c' Hc']; [| done].
    split; [| split].
    + intros Hgate. rewrite insert_passed by done. rewrite insert_body, Hc'. done.
    + intros Hstopped.
      assert (forStepUp = false) as ->.
      { destruct forStepUp; [| done]. exfalso. apply Hstopped. by left. }
      assert (gate w <> Some StatusOK) as Hshut.
      { intros Hg. apply Hstopped. by right. }
      rewrite insert_gated.
      split; [| split; [| split]].
      * intros r.
        destruct (wait_cases opCtx w) as [[_ Hg] | [(e & -> & _) | [-> _]]];
          [done | discriminate | discriminate].
      * intros st Hg. destruct st as [| code]; [done |].
        split; [done |]. by rewrite (wait_failed opCtx w (StatusError code)).
      * intros e Hg Hint. by rewrite (wait_interrupted opCtx w e).
      * intros Hg Hint. by rewrite wait_blocked.
    + intros a w'. destruct Hcases as [-> | [[e ->] | ->]]; try discriminate.
      rewrite insert_body, Hc'. discriminate.
  - intros Hkey.
    assert (entry (primary w) l t = None) as Hnone.
    { destruct (entry (primary w) l t) eqn:E; [| done].
      exfalso. apply Hkey. apply entry_has_key; [done |]. by rewrite E. }
    split.
    + intros r. destruct Hcases as [-> | [[e ->] | ->]]; try discriminate.
      rewrite insert_body, Hnone. discriminate.
    + intros Hgate. rewrite insert_passed by done. rewrite insert_body, Hnone.
      eexists. split; [done |].
      apply entry_holds; [by apply store_ordered |]. apply entry_store_eq.
  - split; [by apply tier_keys_NoDup |]. intros l' t'. apply elem_tier_keys.
Qed.

Lemma world_failed_reachable : reachable world_failed.
Proof. exists history_failed. vm_compute. reflexivity. Qed.

Lemma insert_duplicate_is_fatal_witness :
  insert anyOpCtx 7 3 500 false world_open = Fatal DuplicateCoordinator /\
  insert anyOpCtx 7 1 500 false world_failed
    = Thrown (StatusError 11602) world_failed /\
  insert (mkOpCtx (Some (StatusError 11601))) 7 1 500 false world_recovering
    = Thrown (StatusError 11601) world_recovering /\
  insert anyOpCtx 7 1 500 false world_recovering = Blocked /\
  (exists w', insert anyOpCtx 7 4 500 false world_open = Returned tt w' /\
              holds (primary w') 7 4 500) /\
  NoDup (tier_keys (primary world_open)).
Proof.
  assert (Hrecovering : reachable world_recovering).
  { exists [OpInsert anyOpCtx 7 1 100 true]. vm_compute. reflexivity. }
  assert (Hheld : forall w, tier_ordered (primary w) ->
            entry (primary w) 7 1 = Some 100%N -> has_key (primary w) 7 1).
  { intros w Hord He. apply entry_has_key; [done |]. by rewrite He. }
  assert (Hstopped : forall w, gate w <> Some StatusOK -> ~ passes_gate false w).
  { intros w Hg [Hstep | Hopen]; [discriminate | done]. }
  destruct (insert_duplicate_is_fatal anyOpCtx 7 3 500 false world_open
              world_open_reachable) as (Hdup & _ & Hnodup & _).
  destruct (insert_duplicate_is_fatal anyOpCtx 7 4 500 false world_open
              world_open_reachable) as (_ & Hnew & _).
  destruct (insert_duplicate_is_fatal anyOpCtx 7 1 500 false world_failed
              world_failed_reachable) as (Hfailed & _).
  destruct (insert_duplicate_is_fatal (mkOpCtx (Some (StatusError 11601))) 7 1 500
              false world_recovering Hrecovering) as (Hcancelled & _).
  destruct (insert_duplicate_is_fatal anyOpCtx 7 1 500 false world_recovering
              Hrecovering) as (Hwaiting & _).
  split; [| split; [| split; [| split; [| split]]]].
  - apply Hdup.
    + exists 101%N, [(3, 101%N); (2, 102%N); (1, 100%N)]%Z.
      split; [vm_compute; reflexivity | by left].
    + right. vm_compute. reflexivity.
  - destruct Hfailed as (_ & Hgate & _).
    + apply Hheld; [apply reachable_wf, world_failed_reachable |].
      vm_compute. reflexivity.
    + destruct Hgate as (_ & Hthrows & _).
      * apply Hstopped. vm_compute. discriminate.
      * apply Hthrows. vm_compute. reflexivity.
  - destruct Hcancelled as (_ & Hgate & _).
    + apply Hheld; [by apply reachable_wf |]. vm_compute. reflexivity.
    + destruct Hgate as (_ & _ & Hthrows & _).
      * apply Hstopped. vm_compute. discriminate.
      * apply Hthrows; vm_compute; reflexivity.
  - destruct Hwaiting as (_ & Hgate & _).
    + apply Hheld; [by apply reachable_wf |]. vm_compute. reflexivity.
    + destruct Hgate as (_ & _ & _ & Hwaits).
      * apply Hstopped. vm_compute. discriminate.
      * apply Hwaits; vm_compute; reflexivity.
  - apply Hnew.
    + intros Hkey. apply entry_has_key in Hkey as [c' Hc'].
      * vm_compute in Hc'. discriminate.
      * apply reachable_wf, world_open_reachable.
    + right. vm_compute. reflexivity.
  - exact Hnodup.
Defined.

(** C1, as the claim words it, fails: the gate comes before the invariant.
    Once recovery has failed, an [insert] with [forStepUp = false] on a key
    that the primary map holds throws the recovery error, which the caller
    can catch; it does not abort. *)
Lemma closed_gate_precedes_duplicate_check :
  run history_failed initial_world = Some world_failed /\
  entry (primary world_failed) 7 1 = Some 100%N /\
  insert anyOpCtx 7 1 500 false world_failed
    = Thrown (StatusError 11602) world_failed /\
  insert anyOpCtx 7 1 500 false world_failed <> Fatal DuplicateCoordinator.
Proof.
  split; [vm_compute; reflexivity |].
  split; [vm_compute; reflexivity |].
  split; [vm_compute; reflexivity |].
  vm_compute. discriminate.
Qed.

(** * The step-up gate (C2, C6) *)

Lemma exitStepUp_sets_gate st w w' :
  exitStepUp st w = Returned tt w' -> gate w = None /\ gate w' = Some st.
Proof.
  rewrite exitStepUp_body. destruct (gate w); [discriminate |].
  intros [= <-]. done.
Qed.

Lemma run_keeps_gate ops w w' st :
  gate w = Some st -> run ops w = Some w' -> gate w' = Some st.
Proof. intros Hg Hrun. apply run_evolves in Hrun as [_ H]. auto. Qed.

(** C2, as the code has it.  Once [exitStepUp] has stored a non-success
    status, every later call of [get], of [getLatestOnSession] and of
    [insert] with [forStepUp = false] throws that very status: it neither
    waits, nor reports not-found, nor goes through. *)
Theorem failed_step_up_refuses_gated_calls st w w1 ops w2 opCtx l t c :
  isOK st = false ->
  exitStepUp st w = Returned tt w1 ->
  run ops w1 = Some w2 ->
  insert opCtx l t c false w2 = Thrown st w2 /\
  get opCtx l t w2 = Thrown st w2 /\
  getLatestOnSession opCtx l w2 = Thrown st w2.
Proof.
  intros Hst Hexit Hrun.
  apply exitStepUp_sets_gate in Hexit as [_ Hg1].
  pose proof (run_keeps_gate ops w1 w2 st Hg1 Hrun) as Hg2.
  pose proof (wait_failed opCtx w2 st Hg2 Hst) as Hwait.
  split; [| split].
  - by rewrite insert_gated, Hwait.
  - unfold get. by rewrite bind_unfold, Hwait.
  - unfold getLatestOnSession. by rewrite bind_unfold, Hwait.
Qed.

Lemma failed_step_up_refuses_gated_calls_witness :
  insert anyOpCtx 7 2 500 false world_failed = Thrown (StatusError 11602) world_failed /\
  get anyOpCtx 7 1 world_failed = Thrown (StatusError 11602) world_failed /\
  getLatestOnSession anyOpCtx 7 world_failed
    = Thrown (StatusError 11602) world_failed.
Proof.
  apply (failed_step_up_refuses_gated_calls (StatusError 11602)
           (default initial_world (run [OpInsert anyOpCtx 7 1 100 true] initial_world))
           world_failed [] world_failed anyOpCtx 7 2 500).
  - reflexivity.
  - vm_compute. reflexivity.
  - reflexivity.
Defined.

(** C2, as the claim words it, fails: after recovery has failed, an
    [insert] with [forStepUp = true] does not look at the gate and
    registers its coordinator. *)
Lemma failed_step_up_accepts_step_up_insert :
  run history_failed initial_world = Some world_failed /\
  gate world_failed = Some (StatusError 11602) /\
  insert anyOpCtx 7 2 500 true world_failed
    <> Thrown (StatusError 11602) world_failed /\
  exists w', insert anyOpCtx 7 2 500 true world_failed = Returned tt w' /\
             entry (primary w') 7 2 = Some 500%N.
Proof.
  split; [vm_compute; reflexivity |].
  split; [vm_compute; reflexivity |].
  split; [vm_compute; discriminate |].
  eexists. split; [vm_compute; reflexivity |]. vm_compute. reflexivity.
Qed.

(** C6.  [exitStepUp] on a catalog whose gate is unset stores the status;
    on a catalog whose gate is set it aborts the process at the invariant.
    A status once stored stays as it is through every later history of the
    catalog, so any second call, however late, aborts. *)
Theorem exitStepUp_at_most_once st w :
  (gate w = None ->
     exists w', exitStepUp st w = Returned tt w' /\ gate w' = Some st) /\
  (is_Some (gate w) -> exitStepUp st w = Fatal StepUpAlreadyExited) /\
  (forall st0 ops w', gate w = Some st0 -> run ops w = Some w' ->
     gate w' = Some st0) /\
  (forall w1 ops w2 st2, exitStepUp st w = Returned tt w1 -> run ops w1 = Some w2 ->
     gate w2 = Some st /\ exitStepUp st2 w2 = Fatal StepUpAlreadyExited /\
     run (ops ++ [OpExitStepUp st2]) w1 = None).
Proof.
  split; [| split; [| split]].
  - intros Hg. rewrite exitStepUp_body, Hg. eexists. split; done.
  - intros [st0 Hg]. by rewrite exitStepUp_body, Hg.
  - intros st0 ops w' Hg Hrun. by apply (run_keeps_gate ops w).
  - intros w1 ops w2 st2 Hexit Hrun.
    apply exitStepUp_sets_gate in Hexit as [_ Hg1].
    pose proof (run_keeps_gate ops w1 w2 st Hg1 Hrun) as Hg2.
    assert (exitStepUp st2 w2 = Fatal StepUpAlreadyExited) as Hfatal
      by (by rewrite exitStepUp_body, Hg2).
    split; [done |]. split; [done |].
    rewrite run_app, Hrun. simpl. by rewrite Hfatal.
Qed.

Lemma exitStepUp_at_most_once_witness :
  (exists w', exitStepUp StatusOK initial_world = Returned tt w' /\
              gate w' = Some StatusOK) /\
  exitStepUp (StatusError 11602) world_open = Fatal StepUpAlreadyExited /\
  run (history_open ++ [OpRemove 7 1; OpExitStepUp StatusOK]) initial_world = None.
Proof.
  destruct (exitStepUp_at_most_once StatusOK initial_world) as (H1 & _ & _ & _).
  destruct (exitStepUp_at_most_once (StatusError 11602) world_open)
    as (_ & H2 & _ & _).
  split; [apply H1; reflexivity |].
  split; [apply H2; exists StatusOK; vm_compute; reflexivity |].
  vm_compute. reflexivity.
Defined.

(** * The latest coordinator of a session (C3) *)

(** C3.  In a state of the catalog's life with the gate open,
    [getLatestOnSession] on a session that has entries returns one of the
    session's entries, and no entry of the session has a greater
    transaction number; on a session without entries it returns none. *)
Theorem getLatestOnSession_greatest opCtx l w :
  reachable w -> gate w = Some StatusOK ->
  ((exists t, has_key (primary w) l t) ->
     exists t c,
       getLatestOnSession opCtx l w = Returned (Some (t, c)) w /\
       holds (primary w) l t c /\
       forall t', has_key (primary w) l t' -> (t' <= t)%Z) /\
  ((forall t, ~ has_key (primary w) l t) ->
     getLatestOnSession opCtx l w = Returned None w).
Proof.
  intros Hreach Hg. pose proof (reachable_wf w Hreach) as (Ho & Hp & _).
  rewrite getLatestOnSession_body by done.
  destruct (primary w !! l) as [m |] eqn:E.
  - pose proof (Ho l m E) as Hm. pose proof (Hp l m E) as Hne.
    destruct m as [| [t c] m]; [done |].
    destruct (begin_greatest t c ((t, c) :: m) Hm eq_refl) as [Hin Hmax].
    split.
    + intros _. exists t, c. split; [done |]. split; [by exists ((t, c) :: m) |].
      intros t' (c' & m' & E' & Hin'). rewrite E in E'. injection E' as <-.
      eauto.
    + intros Hnone. exfalso. apply (Hnone t). exists c, ((t, c) :: m). done.
  - split; [| done]. intros (t & c & m & E' & _). congruence.
Qed.

Lemma getLatestOnSession_greatest_witness :
  (exists t c,
     getLatestOnSession anyOpCtx 7 world_open = Returned (Some (t, c)) world_open /\
     holds (primary world_open) 7 t c /\
     forall t', has_key (primary world_open) 7 t' -> (t' <= t)%Z) /\
  getLatestOnSession anyOpCtx 8 world_open = Returned None world_open.
Proof.
  assert (Hg : gate world_open = Some StatusOK) by (vm_compute; reflexivity).
  destruct (getLatestOnSession_greatest anyOpCtx 7 world_open
              world_open_reachable Hg) as [Hsome _].
  destruct (getLatestOnSession_greatest anyOpCtx 8 world_open
              world_open_reachable Hg) as [_ Hnone].
  split.
  - apply Hsome. exists 1%Z, 100%N, [(3, 101%N); (2, 102%N); (1, 100%N)]%Z.
    split; [vm_compute; reflexivity |]. right. right. left.
  - apply Hnone. intros t (c & m & E & _). vm_compute in E. discriminate.
Defined.

(** The scenario of C3: the transaction numbers 1, 3 and 2 inserted on one
    session in any of their six orders; the latest is 3 every time. *)
Lemma getLatestOnSession_any_order order :
  order ≡ₚ [(1, 100%N); (3, 101%N); (2, 102%N)]%Z ->
  exists w, run (history_in_order order) initial_world = Some w /\
            getLatestOnSession anyOpCtx 7 w = Returned (Some (3%Z, 101%N)) w.
Proof.
  intros Hperm. symmetry in Hperm. apply permutations_Permutation in Hperm.
  vm_compute in Hperm.
  repeat (apply elem_of_cons in Hperm as [-> | Hperm];
          [eexists; split; vm_compute; reflexivity |]).
  inversion Hperm.
Qed.

(** * Retiring an entry (C4) *)

Lemma remove_absent l t w :
  entry (primary w) l t = None ->
  remove l t w = Returned tt (drained_signal w).
Proof. intros H. by rewrite remove_body, H. Qed.

Lemma primary_drained_signal w : primary (drained_signal w) = primary w.
Proof. unfold primary. by rewrite drained_signal_catalog. Qed.

Lemma defunct_drained_signal w : defunct (drained_signal w) = defunct w.
Proof. unfold defunct. by rewrite drained_signal_catalog. Qed.

(** What a [remove] that finds its key leaves behind. *)
Lemma remove_present l t c w :
  entry (primary w) l t = Some c ->
  (doNotForgetCoordinator w = true -> is_Some (decision (the_coordinator w c))) ->
  exists w',
    remove l t w = Returned tt w' /\
    primary w' = retire l t (primary w) /\
    defunct w' =
      (if doNotForgetCoordinator w
       then match decision (the_coordinator w c) with
            | Some st => if isOK st then store l t c (defunct w) else defunct w
            | None => defunct w
            end
       else defunct w) /\
    coordinators w' = coordinators w /\
    doNotForgetCoordinator w' = doNotForgetCoordinator w /\
    gate w' = gate w.
Proof.
  intros He Hdec. rewrite remove_body, He.
  destruct (doNotForgetCoordinator w) eqn:Hfp.
  - destruct (Hdec eq_refl) as [st Hst]. rewrite Hst.
    eexists. split; [done |].
    rewrite primary_drained_signal, defunct_drained_signal,
      drained_signal_coordinators, drained_signal_fail_point.
    unfold gate. rewrite drained_signal_catalog. done.
  - eexists. split; [done |].
    rewrite primary_drained_signal, defunct_drained_signal,
      drained_signal_coordinators, drained_signal_fail_point.
    unfold gate. rewrite drained_signal_catalog. done.
Qed.

Lemma holds_retire l t l' t' c' tier :
  tier_ordered tier -> (l', t') <> (l, t) ->
  holds (retire l t tier) l' t' c' <-> holds tier l' t' c'.
Proof.
  intros Hord Hne.
  rewrite <- !entry_holds by auto using retire_ordered.
  by rewrite entry_retire_ne.
Qed.

Lemma has_key_retire l t tier : tier_ordered tier -> ~ has_key (retire l t tier) l t.
Proof.
  intros Hord Hkey. apply entry_has_key in Hkey as [c Hc];
    [| by apply retire_ordered].
  by rewrite entry_retire_eq in Hc.
Qed.

Lemma no_key_no_entry tier l t :
  tier_ordered tier -> ~ has_key tier l t -> entry tier l t = None.
Proof.
  intros Hord Hkey. destruct (entry tier l t) eqn:E; [| done].
  exfalso. apply Hkey, entry_has_key; [done |]. by rewrite E.
Qed.

(** A coordinator that carries the single continuation of its [insert]
    retires exactly that key when it completes. *)
Lemma complete_runs_remove c st l t w :
  completion (the_coordinator w c) = None ->
  continuations (the_coordinator w c) = [(l, t)] ->
  complete c st w =
  remove l t
    (with_coordinator c
       (mkCoordinator (Some (default st (decision (the_coordinator w c)))) (Some st) [])
       w).
Proof.
  intros Hcomp Hcont. unfold complete. rewrite bind_unfold. unfold get_world.
  rewrite Hcomp, Hcont. rewrite bind_unfold. unfold modify. simpl.
  rewrite bind_unfold. by destruct (remove l t _) as [[] ? | | |].
Qed.

(** C4.  In a state of the catalog's life, [remove] of a key that the
    primary map does not hold returns and leaves both tiers and every
    coordinator as they were.  [remove] of a key that it holds returns with
    that key gone and every other key of the primary map still holding what
    it held; the session has no sub-map afterwards exactly when the entry
    was the only one of its sub-map; and a second [remove] of the key
    changes nothing.  (The one call that does not return is the abort of
    C9: fail point on, decision not in.)  A coordinator registered by
    [insert] carries the key as its continuation, and its completion is
    this [remove] of that key: the key goes and every other key stays. *)
Theorem remove_retires_its_key l t w :
  reachable w ->
  (~ has_key (primary w) l t ->
     exists w', remove l t w = Returned tt w' /\
                catalog w' = catalog w /\ coordinators w' = coordinators w) /\
  (forall c,
     holds (primary w) l t c ->
     (doNotForgetCoordinator w = true /\
      decision (the_coordinator w c) = None /\
      remove l t w = Fatal DecisionNotReady) \/
     exists w',
       remove l t w = Returned tt w' /\
       ~ has_key (primary w') l t /\
       (forall l' t' c', (l', t') <> (l, t) ->
          holds (primary w') l' t' c' <-> holds (primary w) l' t' c') /\
       (primary w' !! l = None <-> primary w !! l = Some [(t, c)]) /\
       exists w'', remove l t w' = Returned tt w'' /\ catalog w'' = catalog w') /\
  (forall opCtx c forStepUp st w1,
     completion (the_coordinator w c) = None ->
     continuations (the_coordinator w c) = [] ->
     insert opCtx l t c forStepUp w = Returned tt w1 ->
     continuations (the_coordinator w1 c) = [(l, t)] /\
     exists w2,
       complete c st w1 = Returned tt w2 /\
       ~ has_key (primary w2) l t /\
       (forall l' t' c', (l', t') <> (l, t) ->
          holds (primary w2) l' t' c' <-> holds (primary w1) l' t' c')).
Proof.
  intros Hreach. pose proof (reachable_wf w Hreach) as (Ho & Hp & Hd).
  split; [| split].
  - intros Hkey. rewrite remove_absent by by apply no_key_no_entry.
    eexists. split; [done |].
    by rewrite drained_signal_catalog, drained_signal_coordinators.
  - intros c Hc. apply entry_holds in Hc; [| done].
    destruct (doNotForgetCoordinator w) eqn:Hfp;
      [destruct (decision (the_coordinator w c)) as [st |] eqn:Hdec |].
    2: { left. split; [done |]. split; [done |].
         by rewrite remove_body, Hc, Hfp, Hdec. }
    all: right.
    all: assert (doNotForgetCoordinator w = true ->
                 is_Some (decision (the_coordinator w c))) as Hready
      by (intros ?; first [congruence | by rewrite Hdec]).
    all: destruct (remove_present l t c w Hc Hready) as (w' & Hrem & Hprim & _).
    all: exists w'; split; [done |]; rewrite Hprim.
    all: split; [by apply has_key_retire |].
    all: split; [intros; by apply holds_retire |].
    all: split; [by apply retire_prunes |].
    all: rewrite remove_absent;
      [eexists; split; [done | apply drained_signal_catalog]
      | rewrite Hprim; by apply entry_retire_eq].
  - intros opCtx c forStepUp st w1 Hcomp Hcont Hins.
    assert (insert opCtx l t c true w = Returned tt w1) as Hbody.
    { destruct forStepUp; [done |]. rewrite insert_gated in Hins.
      destruct (wait_cases opCtx w) as [[H _] | [(e & H & _) | [H _]]];
        rewrite H in Hins; [done | discriminate | discriminate]. }
    rewrite insert_body in Hbody.
    destruct (entry (primary w) l t) eqn:He; [discriminate |].
    injection Hbody as <-.
    set (w1 := with_tiers _ _ _).
    assert (the_coordinator w1 c =
            mkCoordinator (decision (the_coordinator w c)) None [(l, t)]) as Hc1.
    { unfold w1, the_coordinator. simpl. rewrite lookup_insert_eq. simpl.
      fold (the_coordinator w c). by rewrite Hcomp, Hcont. }
    split; [by rewrite Hc1 |].
    rewrite (complete_runs_remove c st l t w1) by (by rewrite Hc1).
    set (w1' := with_coordinator c _ w1).
    assert (primary w1' = store l t c (primary w)) as Hprim1 by done.
    assert (tier_ordered (primary w1')) as Ho1
      by (rewrite Hprim1; by apply store_ordered).
    destruct (remove_present l t c w1') as (w2 & Hrem & Hprim2 & _).
    { rewrite Hprim1. apply entry_store_eq. }
    { intros _. unfold w1', the_coordinator. simpl. rewrite lookup_insert_eq.
      simpl. eauto. }
    exists w2. split; [done |]. rewrite Hprim2.
    split; [by apply has_key_retire |].
    intros; by apply holds_retire.
Qed.

Lemma remove_retires_its_key_witness :
  (exists w', remove 7 9 world_open = Returned tt w' /\
              catalog w' = catalog world_open /\
              coordinators w' = coordinators world_open) /\
  (exists w', remove 7 2 world_open = Returned tt w' /\
              ~ has_key (primary w') 7 2 /\
              (holds (primary w') 7 3 101 <-> holds (primary world_open) 7 3 101)) /\
  (exists w1 w2, insert anyOpCtx 8 5 103 false world_open = Returned tt w1 /\
                 complete 103 StatusOK w1 = Returned tt w2 /\
                 ~ has_key (primary w2) 8 5).
Proof.
  pose proof (remove_retires_its_key 7 9 world_open world_open_reachable)
    as (Habs & _ & _).
  pose proof (remove_retires_its_key 7 2 world_open world_open_reachable)
    as (_ & Hpres & _).
  pose proof (remove_retires_its_key 8 5 world_open world_open_reachable)
    as (_ & _ & Hcompl).
  assert (Hwf : tier_ordered (primary world_open))
    by apply reachable_wf, world_open_reachable.
  split; [| split].
  - apply Habs. intros Hkey. apply entry_has_key in Hkey as [c Hc]; [| done].
    vm_compute in Hc. discriminate.
  - destruct (Hpres 102%N) as [(Hfp & _) | (w' & Hrem & Hgone & Hothers & _)].
    + apply entry_holds; [done |]. vm_compute. reflexivity.
    + vm_compute in Hfp. discriminate.
    + exists w'. split; [done |]. split; [done |]. apply Hothers. congruence.
  - assert (exists w1, insert anyOpCtx 8 5 103 false world_open = Returned tt w1)
      as [w1 Hins] by (eexists; vm_compute; reflexivity).
    destruct (Hcompl anyOpCtx 103%N false StatusOK w1) as (_ & w2 & Hc & Hgone & _);
      [vm_compute; reflexivity | vm_compute; reflexivity | done |].
    exists w1, w2. done.
Defined.

(** * The defunct tier (C7, C8, C9) *)

Lemma world_retaining_reachable : reachable world_retaining.
Proof.
  apply (reachable_run [OpSetFailPoint true; OpDecide 102 StatusOK;
                        OpDecide 100 (StatusError 11602)] world_open).
  - apply world_open_reachable.
  - vm_compute. reflexivity.
Qed.

(** C7.  In a state of the catalog's life with the gate open, [get]
    returns the coordinator that the primary map holds under the key; when
    the primary map has no such key it returns, with the fail point on,
    what the defunct tier holds under the key and none if that has no such
    key either, and with the fail point off none.  It changes nothing.
    So after the [remove] of a coordinator whose decision was a success,
    [get] still returns it with the fail point on, and returns none with
    the fail point off. *)
Theorem get_falls_back_to_defunct opCtx l t w :
  reachable w -> gate w = Some StatusOK ->
  (forall c, holds (primary w) l t c -> get opCtx l t w = Returned (Some c) w) /\
  (~ has_key (primary w) l t ->
     (doNotForgetCoordinator w = true ->
        (forall c, holds (defunct w) l t c -> get opCtx l t w = Returned (Some c) w) /\
        (~ has_key (defunct w) l t -> get opCtx l t w = Returned None w)) /\
     (doNotForgetCoordinator w = false -> get opCtx l t w = Returned None w)) /\
  (forall c,
     holds (primary w) l t c ->
     decision (the_coordinator w c) = Some StatusOK ->
     exists w',
       remove l t w = Returned tt w' /\
       (doNotForgetCoordinator w = true -> get opCtx l t w' = Returned (Some c) w') /\
       (doNotForgetCoordinator w = false -> get opCtx l t w' = Returned None w')).
Proof.
  intros Hreach Hg. pose proof (reachable_wf w Hreach) as (Ho & Hp & Hd).
  split; [| split].
  - intros c Hc. apply entry_holds in Hc; [| done].
    rewrite get_body by done. by rewrite Hc.
  - intros Hkey. apply no_key_no_entry in Hkey; [| done].
    rewrite get_body by done. rewrite Hkey. split.
    + intros ->. split.
      * intros c Hc. apply entry_holds in Hc; [| done]. by rewrite Hc.
      * intros Hdkey. by rewrite no_key_no_entry.
    + by intros ->.
  - intros c Hc Hdec. apply entry_holds in Hc; [| done].
    destruct (remove_present l t c w Hc) as (w' & Hrem & Hprim & Hdef & _ & Hfp & Hg');
      [by rewrite Hdec |].
    exists w'. split; [done |].
    rewrite get_body by congruence.
    rewrite Hprim, entry_retire_eq by done. rewrite Hfp.
    split; intros Hfp'; rewrite Hfp' in *; [| done].
    rewrite Hdef, Hdec. simpl. by rewrite entry_store_eq.
Qed.

Lemma get_falls_back_to_defunct_witness :
  get anyOpCtx 7 2 world_retaining = Returned (Some 102%N) world_retaining /\
  (exists w', remove 7 2 world_retaining = Returned tt w' /\
              get anyOpCtx 7 2 w' = Returned (Some 102%N) w') /\
  (exists w', remove 7 2 world_forgetting = Returned tt w' /\
              get anyOpCtx 7 2 w' = Returned None w') /\
  get anyOpCtx 7 9 world_open = Returned None world_open.
Proof.
  assert (Hreach : reachable world_forgetting).
  { apply (reachable_run [OpDecide 102 StatusOK] world_open);
      [apply world_open_reachable | vm_compute; reflexivity]. }
  assert (Hgf : gate world_forgetting = Some StatusOK) by (vm_compute; reflexivity).
  destruct (get_falls_back_to_defunct anyOpCtx 7 2 world_forgetting Hreach Hgf)
    as (_ & _ & Hoff).
  assert (Hg : gate world_retaining = Some StatusOK) by (vm_compute; reflexivity).
  assert (Hg' : gate world_open = Some StatusOK) by (vm_compute; reflexivity).
  destruct (get_falls_back_to_defunct anyOpCtx 7 2 world_retaining
              world_retaining_reachable Hg) as (Hprim & _ & Hscen).
  destruct (get_falls_back_to_defunct anyOpCtx 7 9 world_open
              world_open_reachable Hg') as (_ & Hnone & _).
  assert (Hholds : holds (primary world_retaining) 7 2 102).
  { apply entry_holds; [apply reachable_wf, world_retaining_reachable |].
    vm_compute. reflexivity. }
  split; [by apply Hprim |]. split.
  - destruct (Hscen 102%N Hholds) as (w' & Hrem & Hon & _);
      [vm_compute; reflexivity |].
    exists w'. split; [done |]. apply Hon. vm_compute. reflexivity.
  - split.
    + destruct (Hoff 102%N) as (w' & Hrem & _ & Hnot).
      * apply entry_holds; [apply reachable_wf, Hreach |]. vm_compute. reflexivity.
      * vm_compute. reflexivity.
      * exists w'. split; [done |]. apply Hnot. vm_compute. reflexivity.
    + apply Hnone; [| vm_compute; reflexivity].
      intros Hkey. apply entry_has_key in Hkey as [c Hc];
        [| apply reachable_wf, world_open_reachable].
      vm_compute in Hc. discriminate.
Defined.

(** C8.  With the fail point on, [remove] of a key that the primary map
    holds, for a coordinator whose decision is in: when the decision is a
    success the coordinator is in the defunct tier under the key afterwards
    and gone from the primary map; when the decision is an error the
    defunct tier is what it was and the key is gone from the primary map
    all the same. *)
Theorem remove_retains_successful_only l t c st w :
  reachable w ->
  holds (primary w) l t c ->
  doNotForgetCoordinator w = true ->
  decision (the_coordinator w c) = Some st ->
  exists w',
    remove l t w = Returned tt w' /\
    ~ has_key (primary w') l t /\
    (isOK st = true ->
       defunct w' = store l t c (defunct w) /\ holds (defunct w') l t c) /\
    (isOK st = false -> defunct w' = defunct w).
Proof.
  intros Hreach Hc Hfp Hdec. pose proof (reachable_wf w Hreach) as (Ho & Hp & Hd).
  apply entry_holds in Hc; [| done].
  destruct (remove_present l t c w Hc) as (w' & Hrem & Hprim & Hdef & _);
    [by rewrite Hdec |].
  exists w'. split; [done |]. rewrite Hprim. split; [by apply has_key_retire |].
  rewrite Hfp, Hdec in Hdef. rewrite Hdef.
  split; intros ->; [| done]. split; [done |].
  apply entry_holds; [by apply store_ordered |]. apply entry_store_eq.
Qed.

Lemma remove_retains_successful_only_witness :
  (exists w', remove 7 2 world_retaining = Returned tt w' /\
              ~ has_key (primary w') 7 2 /\ holds (defunct w') 7 2 102) /\
  (exists w', remove 7 1 world_retaining = Returned tt w' /\
              ~ has_key (primary w') 7 1 /\ defunct w' = defunct world_retaining).
Proof.
  assert (Hwf : tier_ordered (primary world_retaining))
    by apply reachable_wf, world_retaining_reachable.
  split.
  - destruct (remove_retains_successful_only 7 2 102 StatusOK world_retaining
                world_retaining_reachable) as (w' & Hrem & Hgone & Hok & _).
    + apply entry_holds; [done |]. vm_compute. reflexivity.
    + vm_compute. reflexivity.
    + vm_compute. reflexivity.
    + exists w'. split; [done |]. split; [done |]. by apply Hok.
  - destruct (remove_retains_successful_only 7 1 100 (StatusError 11602)
                world_retaining world_retaining_reachable)
      as (w' & Hrem & Hgone & _ & Herr).
    + apply entry_holds; [done |]. vm_compute. reflexivity.
    + vm_compute. reflexivity.
    + vm_compute. reflexivity.
    + exists w'. split; [done |]. split; [done |]. by apply Herr.
Defined.

(** C9.  With the fail point on, [remove] of a key that the primary map
    holds aborts the process at the invariant when the coordinator's
    decision is not in yet; when it is in, [remove] returns. *)
Theorem remove_requires_decision l t c w :
  reachable w ->
  holds (primary w) l t c ->
  doNotForgetCoordinator w = true ->
  (decision (the_coordinator w c) = None -> remove l t w = Fatal DecisionNotReady) /\
  (is_Some (decision (the_coordinator w c)) ->
     (forall r, remove l t w <> Fatal r) /\
     exists w', remove l t w = Returned tt w').
Proof.
  intros Hreach Hc Hfp. pose proof (reachable_wf w Hreach) as (Ho & Hp & Hd).
  apply entry_holds in Hc; [| done]. split.
  - intros Hdec. by rewrite remove_body, Hc, Hfp, Hdec.
  - intros Hdec. destruct (remove_present l t c w Hc) as (w' & Hrem & _); [done |].
    rewrite Hrem. split; [discriminate | by exists w'].
Qed.

Lemma remove_requires_decision_witness :
  remove 7 3 world_retaining = Fatal DecisionNotReady /\
  exists w', remove 7 2 world_retaining = Returned tt w'.
Proof.
  assert (Hwf : tier_ordered (primary world_retaining))
    by apply reachable_wf, world_retaining_reachable.
  split.
  - apply (remove_requires_decision 7 3 101 world_retaining
             world_retaining_reachable).
    + apply entry_holds; [done |]. vm_compute. reflexivity.
    + vm_compute. reflexivity.
    + vm_compute. reflexivity.
  - apply (remove_requires_decision 7 2 102 world_retaining
             world_retaining_reachable).
    + apply entry_holds; [done |]. vm_compute. reflexivity.
    + vm_compute. reflexivity.
    + exists StatusOK. vm_compute. reflexivity.
Defined.

(** * Calls that the gate stops (C10) *)

(** C10.  A call that the gate stops, by a failed recovery or by the
    caller's own cancellation, throws that error in the world it found:
    [insert] with [forStepUp = false] has added no entry to either tier and
    chained no continuation, and the lookups have changed nothing either.
    No throw of these calls ever comes with a changed world.  [insert] with
    [forStepUp = true] does not look at the gate or at the caller's
    operation: it returns or hits the duplicate invariant, whatever the
    gate. *)
Theorem gate_failure_changes_nothing opCtx l t c w :
  (forall e,
     gate w = Some e /\ isOK e = false \/
     gate w = None /\ interruptStatus opCtx = Some e ->
     insert opCtx l t c false w = Thrown e w /\
     get opCtx l t w = Thrown e w /\
     getLatestOnSession opCtx l w = Thrown e w) /\
  (forall forStepUp e w',
     insert opCtx l t c forStepUp w = Thrown e w' -> w' = w /\ forStepUp = false) /\
  (forall e w', get opCtx l t w = Thrown e w' -> w' = w) /\
  (forall e w', getLatestOnSession opCtx l w = Thrown e w' -> w' = w) /\
  (insert opCtx l t c true w = Fatal DuplicateCoordinator \/
   exists w', insert opCtx l t c true w = Returned tt w') /\
  (forall opCtx', insert opCtx' l t c true w = insert opCtx l t c true w).
Proof.
  split; [| split; [| split; [| split; [| split]]]].
  - intros e He.
    assert (_waitForStepUpToComplete opCtx w = Thrown e w) as Hwait.
    { destruct He as [[Hg Hok] | [Hg Hi]];
        [by apply wait_failed | by apply wait_interrupted]. }
    split; [| split].
    + by rewrite insert_gated, Hwait.
    + unfold get. by rewrite bind_unfold, Hwait.
    + unfold getLatestOnSession. by rewrite bind_unfold, Hwait.
  - intros forStepUp e w'. destruct forStepUp.
    + rewrite insert_body. by destruct (entry (primary w) l t).
    + rewrite insert_gated.
      destruct (wait_cases opCtx w) as [[H _] | [(e' & H & _) | [H _]]]; rewrite H.
      * rewrite insert_body. by destruct (entry (primary w) l t).
      * intros [= <- <-]. done.
      * discriminate.
  - intros e w' H. apply (get_pure opCtx l t). by rewrite H.
  - intros e w' H. apply (getLatestOnSession_pure opCtx l). by rewrite H.
  - rewrite insert_body. destruct (entry (primary w) l t); eauto.
  - intros opCtx'. by rewrite !insert_body.
Qed.

Lemma gate_failure_changes_nothing_witness :
  insert anyOpCtx 7 2 500 false world_failed
    = Thrown (StatusError 11602) world_failed /\
  insert (mkOpCtx (Some (StatusError 11601))) 7 2 500 false initial_world
    = Thrown (StatusError 11601) initial_world /\
  exists w', insert (mkOpCtx (Some (StatusError 11601))) 7 2 500 true initial_world
             = Returned tt w'.
Proof.
  destruct (gate_failure_changes_nothing anyOpCtx 7 2 500 world_failed)
    as (Hfail & _).
  destruct (gate_failure_changes_nothing (mkOpCtx (Some (StatusError 11601)))
              7 2 500 initial_world) as (Hint & _ & _ & _ & Hstep & _).
  split; [| split].
  - apply Hfail. left. split; vm_compute; reflexivity.
  - apply Hint. right. split; vm_compute; reflexivity.
  - destruct Hstep as [Hfatal | Hret]; [| exact Hret].
    vm_compute in Hfatal. discriminate.
Defined.

(** * The drain (C5) *)

Lemma no_active_true w : no_active_coordinators w = true <-> primary w = ∅.
Proof. unfold no_active_coordinators, primary. apply bool_decide_eq_true. Qed.

Lemma no_active_false w : no_active_coordinators w = false <-> primary w <> ∅.
Proof. unfold no_active_coordinators, primary. apply bool_decide_eq_false. Qed.

Lemma join_waiting_returned toBSON deadline wakes log w' log' :
  join_waiting toBSON deadline wakes log = JoinReturned w' log' ->
  primary w' = ∅ /\ w' ∈ wake_sees <$> wakes.
Proof.
  revert deadline log. induction wakes as [| wk wakes IH]; intros deadline log; simpl;
    [discriminate |].
  destruct (no_active_coordinators (wake_sees wk)) eqn:E.
  - intros [= <- <-]. split; [by apply no_active_true | by left].
  - destruct (deadline <=? wake_at wk)%N; intros H; apply IH in H as [? ?];
      (split; [done | by right]).
Qed.

Lemma join_waiting_stays toBSON deadline wakes log :
  (forall wk, wk ∈ wakes -> primary (wake_sees wk) <> ∅) ->
  exists log', join_waiting toBSON deadline wakes log = JoinWaiting log'.
Proof.
  revert deadline log. induction wakes as [| wk wakes IH]; intros deadline log Hall;
    simpl; [eauto |].
  assert (no_active_coordinators (wake_sees wk) = false) as ->
    by (apply no_active_false, Hall; by left).
  destruct (deadline <=? wake_at wk)%N; apply IH; intros; apply Hall; by right.
Qed.

Lemma join_waiting_ends toBSON deadline before wk later log :
  (forall wk', wk' ∈ before -> primary (wake_sees wk') <> ∅) ->
  primary (wake_sees wk) = ∅ ->
  exists log',
    join_waiting toBSON deadline (before ++ wk :: later) log
    = JoinReturned (wake_sees wk) log'.
Proof.
  revert deadline log. induction before as [| wk0 before IH]; intros deadline log Hall Hwk;
    simpl.
  - apply no_active_true in Hwk. rewrite Hwk. eauto.
  - assert (no_active_coordinators (wake_sees wk0) = false) as ->
      by (apply no_active_false, Hall; by left).
    destruct (deadline <=? wake_at wk0)%N; apply IH; try done;
      intros; apply Hall; by right.
Qed.

Lemma join_waiting_periodic toBSON deadline wakes log :
  (forall i wk, wakes !! i = Some wk ->
     wake_at wk = (deadline + join_wait_interval * N.of_nat i)%N /\
     primary (wake_sees wk) <> ∅) ->
  join_waiting toBSON deadline wakes log
  = JoinWaiting (log ++ (wakes ≫= (fun wk => diagnostic_lines toBSON (wake_sees wk)))).
Proof.
  revert deadline log. induction wakes as [| wk wakes IH]; intros deadline log Hall.
  - simpl. by rewrite app_nil_r.
  - destruct (Hall 0%nat wk eq_refl) as [Hat Hne]. simpl.
    apply no_active_false in Hne. rewrite Hne.
    assert ((deadline <=? wake_at wk)%N = true) as -> by (apply N.leb_le; lia).
    rewrite IH.
    + by rewrite <- app_assoc.
    + intros i wk' Hi. destruct (Hall (S i) wk' Hi) as [Hat' Hne'].
      split; [| done]. rewrite Hat', Hat. lia.
Qed.

Lemma elem_outstanding w l ts :
  (l, ts) ∈ outstanding (catalog w) <->
  exists m, primary w !! l = Some m /\ ts = OrderedMap.keys m.
Proof.
  unfold outstanding, primary. rewrite list_elem_of_fmap. split.
  - intros ([l' m] & [= -> ->] & Hin). apply elem_of_map_to_list in Hin. eauto.
  - intros (m & Hm & ->). exists (l, m). split; [done |].
    by apply elem_of_map_to_list.
Qed.

(** The wait goes on, logging nothing, through the wake-ups that come
    before its deadline. *)
Lemma join_waiting_early toBSON deadline before rest log :
  (forall wk, wk ∈ before ->
     (wake_at wk < deadline)%N /\ primary (wake_sees wk) <> ∅) ->
  join_waiting toBSON deadline (before ++ rest) log
  = join_waiting toBSON deadline rest log.
Proof.
  induction before as [| wk before IH]; intros Hall; [done |]. simpl.
  destruct (Hall wk) as [Hat Hne]; [by left |].
  apply no_active_false in Hne. rewrite Hne.
  assert ((deadline <=? wake_at wk)%N = false) as -> by (apply N.leb_gt; lia).
  apply IH. intros wk' Hin. apply Hall. by right.
Qed.

(** What has been logged stays in front of what is logged later. *)
Lemma join_waiting_log toBSON deadline wakes log :
  join_waiting toBSON deadline wakes log
  = logged_first log (join_waiting toBSON deadline wakes []).
Proof.
  revert deadline log. induction wakes as [| wk wakes IH]; intros deadline log; simpl.
  - by rewrite app_nil_r.
  - destruct (no_active_coordinators (wake_sees wk)).
    + simpl. by rewrite app_nil_r.
    + destruct (deadline <=? wake_at wk)%N; [| apply IH].
      rewrite (IH _ (log ++ _)), (IH _ (diagnostic_lines _ _)).
      destruct (join_waiting toBSON _ wakes []); simpl; by rewrite <- app_assoc.
Qed.

(** The text of the dump, spelled out: the sessions of the primary map in
    some order, each with the numbers of its map. *)
Lemma toString_text toBSON w :
  exists sessions : list (LogicalSessionId * list TxnNumber),
    sessions ≡ₚ (fun e => (e.1, e.2.*1)) <$> map_to_list (primary w) /\
    sessions = outstanding (catalog w) /\
    _toString toBSON (catalog w) =
      "[" +:+ String.concat EmptyString
                ((fun e => newline +:+ toBSON e.1 +:+ ": " +:+
                    String.concat EmptyString
                      ((fun t : Z => pretty t +:+ " ") <$> e.2)) <$> sessions)
          +:+ "]".
Proof. exists (outstanding (catalog w)). done. Qed.

Lemma has_key_outstanding w l t :
  has_key (primary w) l t <->
  exists ts, (l, ts) ∈ outstanding (catalog w) /\ t ∈ ts.
Proof.
  unfold has_key, holds. split.
  - intros (c & m & Hm & Hin). exists (OrderedMap.keys m). split.
    + apply elem_outstanding. eauto.
    + unfold OrderedMap.keys. apply list_elem_of_fmap. by exists (t, c).
  - intros (ts & Hts & Hin). apply elem_outstanding in Hts as (m & Hm & ->).
    unfold OrderedMap.keys in Hin.
    apply list_elem_of_fmap in Hin as ([t' c] & -> & Hin). eauto.
Qed.

(** C5.  [join] returns only in a state whose primary map is empty: the one
    it is called in, or the one some wake-up finds.  While every state it
    sees has entries it stays in its wait; the first wake-up that finds the
    map empty ends it.  Its wait is 5 seconds long: woken before 5 seconds
    have passed with entries left, it logs nothing and waits on; at the
    first wake-up that comes 5 seconds or more after the wait began and
    finds entries left, it logs two lines, the number of sessions of the
    primary map and the dump of the catalog as that wake-up finds it, and
    goes on as a [join] called at that instant does, so that the next
    lines come no sooner than 5 seconds later; woken exactly every 5
    seconds it logs the two lines every time.  The dump is an opening
    bracket, one line for each session of the primary map (the session id,
    a colon, and the transaction numbers of the session, each followed by
    a blank) and a closing bracket: it shows exactly the outstanding
    (session, txnNumber) keys.  [remove] calls [notify_all] on
    [_noActiveCoordinatorsCv] when it leaves the primary map empty, and
    only then. *)
Theorem join_waits_for_drain toBSON now w wakes :
  (forall w' log, join toBSON now w wakes = JoinReturned w' log ->
     primary w' = ∅ /\ (w' = w \/ w' ∈ wake_sees <$> wakes)) /\
  (primary w <> ∅ ->
   (forall wk, wk ∈ wakes -> primary (wake_sees wk) <> ∅) ->
   exists log, join toBSON now w wakes = JoinWaiting log) /\
  (forall before wk later,
     wakes = before ++ wk :: later ->
     primary w <> ∅ ->
     (forall wk', wk' ∈ before -> primary (wake_sees wk') <> ∅) ->
     primary (wake_sees wk) = ∅ ->
     exists log, join toBSON now w wakes = JoinReturned (wake_sees wk) log) /\
  (primary w = ∅ -> join toBSON now w wakes = JoinReturned w []) /\
  join_wait_interval = 5000%N /\
  (primary w <> ∅ ->
   (forall wk, wk ∈ wakes ->
      (wake_at wk < now + 5000)%N /\ primary (wake_sees wk) <> ∅) ->
   join toBSON now w wakes = JoinWaiting []) /\
  (forall before wk later,
     wakes = before ++ wk :: later ->
     primary w <> ∅ ->
     (forall wk', wk' ∈ before ->
        (wake_at wk' < now + 5000)%N /\ primary (wake_sees wk') <> ∅) ->
     (now + 5000 <= wake_at wk)%N ->
     primary (wake_sees wk) <> ∅ ->
     join toBSON now w wakes
     = logged_first
         [LogSessionsLeft (size (primary (wake_sees wk)));
          LogCatalog (_toString toBSON (catalog (wake_sees wk)))]
         (join toBSON (wake_at wk) (wake_sees wk) later)) /\
  (primary w <> ∅ ->
   (forall i wk, wakes !! i = Some wk ->
      wake_at wk = (now + 5000 * (N.of_nat i + 1))%N /\
      primary (wake_sees wk) <> ∅) ->
   join toBSON now w wakes
   = JoinWaiting
       (wakes ≫= (fun wk =>
          [LogSessionsLeft (size (primary (wake_sees wk)));
           LogCatalog (_toString toBSON (catalog (wake_sees wk)))]))) /\
  (forall w0, exists sessions : list (LogicalSessionId * list TxnNumber),
     sessions ≡ₚ (fun e => (e.1, e.2.*1)) <$> map_to_list (primary w0) /\
     (forall l t,
        has_key (primary w0) l t <-> exists ts, (l, ts) ∈ sessions /\ t ∈ ts) /\
     _toString toBSON (catalog w0) =
       "[" +:+ String.concat EmptyString
                 ((fun e => newline +:+ toBSON e.1 +:+ ": " +:+
                     String.concat EmptyString
                       ((fun t : Z => pretty t +:+ " ") <$> e.2)) <$> sessions)
           +:+ "]") /\
  (forall l t,
     has_key (primary w) l t <->
     exists ts, (l, ts) ∈ outstanding (catalog w) /\ t ∈ ts) /\
  (forall l t w', remove l t w = Returned tt w' ->
     (primary w' = ∅ -> notified w' = _noActiveCoordinatorsCv :: notified w) /\
     (primary w' <> ∅ -> notified w' = notified w)).
Proof.
  unfold join.
  split; [| split; [| split; [| split; [| split; [| split; [| split;
    [| split; [| split; [| split]]]]]]]]].
  - intros w' log. destruct (no_active_coordinators w) eqn:E.
    + intros [= <- <-]. split; [by apply no_active_true | by left].
    + intros H. apply join_waiting_returned in H as [? ?]. split; [done | by right].
  - intros Hne Hall. apply no_active_false in Hne. rewrite Hne.
    by apply join_waiting_stays.
  - intros before wk later -> Hne Hall Hwk. apply no_active_false in Hne.
    rewrite Hne. by apply join_waiting_ends.
  - intros He. apply no_active_true in He. by rewrite He.
  - reflexivity.
  - intros Hne Hall. apply no_active_false in Hne. rewrite Hne.
    rewrite <- (app_nil_r wakes). by rewrite join_waiting_early.
  - intros before wk later -> Hne Hall Hat Hwk. apply no_active_false in Hne.
    rewrite Hne. rewrite join_waiting_early by done. simpl.
    apply no_active_false in Hwk. rewrite Hwk.
    assert ((now + join_wait_interval <=? wake_at wk)%N = true) as ->
      by (apply N.leb_le; unfold join_wait_interval; lia).
    apply join_waiting_log.
  - intros Hne Hall. apply no_active_false in Hne. rewrite Hne.
    rewrite join_waiting_periodic; [done |].
    intros i wk Hi. destruct (Hall i wk Hi) as [Hat ?]. split; [| done].
    rewrite Hat. unfold join_wait_interval. lia.
  - intros w0. destruct (toString_text toBSON w0) as (sessions & Hperm & Hs & Htext).
    exists sessions. split; [done |]. split; [| done].
    intros l t. rewrite Hs. apply has_key_outstanding.
  - intros l t. apply has_key_outstanding.
  - intros l t w'. rewrite remove_body.
    assert (Hsig : forall w0,
      (primary (drained_signal w0) = ∅ ->
       notified (drained_signal w0) = _noActiveCoordinatorsCv :: notified w0) /\
      (primary (drained_signal w0) <> ∅ -> notified (drained_signal w0) = notified w0)).
    { intros w0. rewrite primary_drained_signal. unfold drained_signal.
      destruct (bool_decide (primary w0 = ∅)) eqn:E.
      - apply bool_decide_eq_true in E. done.
      - apply bool_decide_eq_false in E. done. }
    destruct (entry (primary w) l t) as [c |].
    + destruct (doNotForgetCoordinator w).
      * destruct (decision (the_coordinator w c)); [| discriminate].
        intros [= <-]. exact (Hsig (with_tiers _ _ w)).
      * intros [= <-]. exact (Hsig (with_tiers _ _ w)).
    + intros [= <-]. apply Hsig.
Qed.

Lemma join_waits_for_drain_witness :
  (exists log,
     join pretty 0 world_open [mkWake 5000 world_open; mkWake 7000 world_drained]
     = JoinReturned world_drained log) /\
  join pretty 0 world_open [mkWake 5000 world_open; mkWake 10000 world_open]
  = JoinWaiting [LogSessionsLeft 1; LogCatalog ("[" +:+ newline +:+ "7: 3 2 1 ]");
                 LogSessionsLeft 1; LogCatalog ("[" +:+ newline +:+ "7: 3 2 1 ]")] /\
  join pretty 0 world_open
    [mkWake 3000 world_open; mkWake 6000 world_open; mkWake 9000 world_open;
     mkWake 11000 world_open; mkWake 12000 world_drained]
  = JoinReturned world_drained
      [LogSessionsLeft 1; LogCatalog ("[" +:+ newline +:+ "7: 3 2 1 ]");
       LogSessionsLeft 1; LogCatalog ("[" +:+ newline +:+ "7: 3 2 1 ]")] /\
  (forall w', remove 7 1 world_open = Returned tt w' ->
     notified w' = notified world_open).
Proof.
  assert (Hne : primary world_open <> ∅).
  { intros H. apply (f_equal (fun m => m !! 7%N)) in H. vm_compute in H.
    discriminate. }
  destruct (join_waits_for_drain pretty 0 world_open
              [mkWake 5000 world_open; mkWake 7000 world_drained])
    as (_ & _ & Hends & _).
  destruct (join_waits_for_drain pretty 0 world_open
              [mkWake 5000 world_open; mkWake 10000 world_open])
    as (_ & _ & _ & _ & _ & _ & _ & Hlog & _ & _ & Hsig).
  destruct (join_waits_for_drain pretty 0 world_open
              [mkWake 3000 world_open; mkWake 6000 world_open; mkWake 9000 world_open;
               mkWake 11000 world_open; mkWake 12000 world_drained])
    as (_ & _ & _ & _ & _ & _ & Hexpiry & _).
  split; [| split; [| split]].
  - apply (Hends [mkWake 5000 world_open] (mkWake 7000 world_drained) []).
    + reflexivity.
    + exact Hne.
    + intros wk' Hin. apply list_elem_of_singleton in Hin as ->. exact Hne.
    + vm_compute. reflexivity.
  - rewrite Hlog; [vm_compute; reflexivity | exact Hne |].
    intros [| [| i]] wk Hi; simpl in Hi; [| | done].
    + injection Hi as <-. split; [reflexivity | exact Hne].
    + injection Hi as <-. split; [reflexivity | exact Hne].
  - rewrite (Hexpiry [mkWake 3000 world_open] (mkWake 6000 world_open)
               [mkWake 9000 world_open; mkWake 11000 world_open;
                mkWake 12000 world_drained]).
    + vm_compute. reflexivity.
    + reflexivity.
    + exact Hne.
    + intros wk' Hin. apply list_elem_of_singleton in Hin as ->.
      split; [vm_compute; reflexivity | exact Hne].
    + vm_compute. discriminate.
    + exact Hne.
  - intros w' Hrem. destruct (Hsig 7%N 1%Z w' Hrem) as [_ Hkeep].
    apply Hkeep. intros H. apply (f_equal (fun m => m !! 7%N)) in H.
    assert (exists w0, remove 7 1 world_open = Returned tt w0 /\
                       primary w0 !! 7%N <> None) as (w0 & Hw0 & Hl).
    { eexists. split; [vm_compute; reflexivity |]. vm_compute. discriminate. }
    rewrite Hrem in Hw0. injection Hw0 as <-. rewrite H in Hl.
    by rewrite lookup_empty in Hl.
Defined.

(** * Further properties of the catalog *)

(** X1.  In every state of a catalog's life each session of the primary map
    has at least one entry, so [getLatestOnSession] never fails its
    [invariant(!coordinatorsForSession.empty())]: it never aborts. *)
Theorem getLatestOnSession_never_aborts opCtx l w :
  reachable w ->
  (forall m, primary w !! l = Some m -> m <> []) /\
  (forall r, getLatestOnSession opCtx l w <> Fatal r).
Proof.
  intros Hreach. pose proof (reachable_wf w Hreach) as (_ & Hp & _).
  split; [intros m; apply Hp |].
  intros r. destruct (wait_cases opCtx w) as [[H Hg] | [(e & H & _) | [H _]]].
  - rewrite getLatestOnSession_body by done.
    destruct (primary w !! l) as [[| e m] |] eqn:E; try discriminate.
    by apply Hp in E.
  - destruct (getLatestOnSession_gated opCtx l w) as [(e' & _ & ->) | [_ ->]];
      [congruence | discriminate | discriminate].
  - destruct (getLatestOnSession_gated opCtx l w) as [(e' & _ & ->) | [_ ->]];
      [congruence | discriminate | discriminate].
Qed.

Lemma getLatestOnSession_never_aborts_witness :
  (forall m, primary world_open !! 7%N = Some m -> m <> []) /\
  (forall r, getLatestOnSession anyOpCtx 7 world_open <> Fatal r).
Proof.
  exact (getLatestOnSession_never_aborts anyOpCtx 7 world_open world_open_reachable).
Defined.

Lemma insert_returned opCtx l t c forStepUp w w' :
  insert opCtx l t c forStepUp w = Returned tt w' ->
  entry (primary w) l t = None /\
  w' = with_tiers (store l t c (primary w)) (defunct w) (chained c (l, t) w).
Proof.
  intros Hins.
  assert (insert opCtx l t c true w = Returned tt w') as Hbody.
  { destruct forStepUp; [done |]. rewrite insert_gated in Hins.
    destruct (wait_cases opCtx w) as [[H _] | [(e & H & _) | [H _]]];
      rewrite H in Hins; [done | discriminate | discriminate]. }
  rewrite insert_body in Hbody.
  destruct (entry (primary w) l t); [discriminate |].
  by injection Hbody as <-.
Qed.

(** X2.  Insert, then look up.  With the gate open, [insert] of a key the
    primary map does not hold returns, a [get] of that key then returns the
    coordinator just registered, and a [get] of any other key returns what
    it returned before; [insert] leaves the defunct tier, the gate and the
    fail point alone. *)
Theorem insert_then_get opCtx opCtx' l t c forStepUp w :
  reachable w -> gate w = Some StatusOK -> ~ has_key (primary w) l t ->
  exists w',
    insert opCtx l t c forStepUp w = Returned tt w' /\
    get opCtx' l t w' = Returned (Some c) w' /\
    (forall l' t' r, (l', t') <> (l, t) ->
       get opCtx' l' t' w' = Returned r w' <-> get opCtx' l' t' w = Returned r w) /\
    defunct w' = defunct w /\ gate w' = gate w /\
    doNotForgetCoordinator w' = doNotForgetCoordinator w.
Proof.
  intros Hreach Hg Hkey. pose proof (reachable_wf w Hreach) as (Ho & Hp & Hd).
  apply no_key_no_entry in Hkey; [| done].
  rewrite (insert_passed opCtx l t c forStepUp w) by by right.
  rewrite insert_body, Hkey. eexists. split; [done |].
  set (w' := with_tiers _ _ _).
  assert (gate w' = Some StatusOK) as Hg' by done.
  split; [| split]; [| | done].
  - rewrite get_body by done. change (primary w') with (store l t c (primary w)).
    by rewrite entry_store_eq.
  - intros l' t' r Hne. rewrite !get_body by done.
    change (primary w') with (store l t c (primary w)).
    change (defunct w') with (defunct w).
    change (doNotForgetCoordinator w') with (doNotForgetCoordinator w).
    rewrite entry_store_ne by done.
    split; intros [= <-]; done.
Qed.

Lemma insert_then_get_witness :
  exists w',
    insert anyOpCtx 7 4 500 false world_open = Returned tt w' /\
    get anyOpCtx 7 4 w' = Returned (Some 500%N) w' /\
    (get anyOpCtx 7 2 w' = Returned (Some 102%N) w' <->
     get anyOpCtx 7 2 world_open = Returned (Some 102%N) world_open).
Proof.
  destruct (insert_then_get anyOpCtx anyOpCtx 7 4 500 false world_open
              world_open_reachable) as (w' & Hins & Hget & Hother & _).
  - vm_compute. reflexivity.
  - intros Hkey. apply entry_has_key in Hkey as [c' Hc'].
    + vm_compute in Hc'. discriminate.
    + apply reachable_wf, world_open_reachable.
  - exists w'. split; [done |]. split; [done |]. apply Hother. congruence.
Defined.

(** X3.  Insert, then ask for the latest.  With the gate open, after the
    [insert] of a new key ([l], [t]) the latest coordinator of session [l]
    is the new one when [t] is above every transaction number the session
    had, and is the one it was when that one's number is above [t]; the
    latest of every other session is what it was. *)
Theorem insert_then_latest opCtx opCtx' l t c forStepUp w w' :
  reachable w -> gate w = Some StatusOK ->
  insert opCtx l t c forStepUp w = Returned tt w' ->
  ((forall t0, has_key (primary w) l t0 -> (t0 < t)%Z) ->
     getLatestOnSession opCtx' l w' = Returned (Some (t, c)) w') /\
  (forall t0 c0,
     getLatestOnSession opCtx' l w = Returned (Some (t0, c0)) w -> (t < t0)%Z ->
     getLatestOnSession opCtx' l w' = Returned (Some (t0, c0)) w') /\
  (forall l' r, l' <> l ->
     getLatestOnSession opCtx' l' w' = Returned r w' <->
     getLatestOnSession opCtx' l' w = Returned r w).
Proof.
  intros Hreach Hg Hins. pose proof (reachable_wf w Hreach) as (Ho & Hp & Hd).
  apply insert_returned in Hins as [Hnone ->].
  set (w' := with_tiers _ _ _).
  assert (gate w' = Some StatusOK) as Hg' by done.
  assert (primary w' = store l t c (primary w)) as Hprim by done.
  split; [| split].
  - intros Habove. rewrite getLatestOnSession_body by done.
    rewrite Hprim. unfold store. rewrite lookup_insert_eq.
    destruct (primary w !! l) as [[| [k1 v1] m] |] eqn:E; simpl; try done.
    assert (k1 < t)%Z as Hlt.
    { apply Habove. exists v1, ((k1, v1) :: m). split; [done | by left]. }
    assert (OrderedMap.key_comp k1 t = false) as -> by (apply key_comp_ge; lia).
    assert (OrderedMap.key_comp t k1 = true) as -> by (by apply key_comp_lt).
    done.
  - intros t0 c0. rewrite !getLatestOnSession_body by done.
    rewrite Hprim. unfold store. rewrite lookup_insert_eq.
    destruct (primary w !! l) as [[| [k1 v1] m] |] eqn:E; simpl; try discriminate.
    intros [= -> ->] Hlt.
    assert (OrderedMap.key_comp t0 t = true) as -> by (by apply key_comp_lt).
    done.
  - intros l' r Hne. rewrite !getLatestOnSession_body by done.
    rewrite Hprim. unfold store. rewrite lookup_insert_ne by done.
    destruct (primary w !! l') as [[| e m] |]; split; intros [= <-]; done.
Qed.

Lemma insert_then_latest_witness :
  exists w',
    insert anyOpCtx 7 9 500 false world_open = Returned tt w' /\
    getLatestOnSession anyOpCtx 7 w' = Returned (Some (9%Z, 500%N)) w' /\
    exists w'',
      insert anyOpCtx 7 0 501 false world_open = Returned tt w'' /\
      getLatestOnSession anyOpCtx 7 w'' = Returned (Some (3%Z, 101%N)) w''.
Proof.
  assert (Hg : gate world_open = Some StatusOK) by (vm_compute; reflexivity).
  assert (exists w', insert anyOpCtx 7 9 500 false world_open = Returned tt w')
    as [w' Hins] by (eexists; vm_compute; reflexivity).
  assert (exists w'', insert anyOpCtx 7 0 501 false world_open = Returned tt w'')
    as [w'' Hins'] by (eexists; vm_compute; reflexivity).
  destruct (insert_then_latest anyOpCtx anyOpCtx 7 9 500 false world_open w'
              world_open_reachable Hg Hins) as (Hnew & _ & _).
  destruct (insert_then_latest anyOpCtx anyOpCtx 7 0 501 false world_open w''
              world_open_reachable Hg Hins') as (_ & Hold & _).
  exists w'. split; [done |]. split.
  - apply Hnew. intros t0 Hkey. apply entry_has_key in Hkey as [c0 Hc0];
      [| apply reachable_wf, world_open_reachable].
    unfold entry in Hc0.
    assert (primary world_open !! 7%N
            = Some [(3, 101%N); (2, 102%N); (1, 100%N)]%Z) as E
      by (vm_compute; reflexivity).
    rewrite E in Hc0.
    assert ((t0, c0) ∈ [(3, 101%N); (2, 102%N); (1, 100%N)]%Z) as Hin.
    { apply find_elem; [| exact Hc0].
      destruct (reachable_wf world_open world_open_reachable) as [Ho _].
      apply (Ho 7%N). exact E. }
    repeat (apply elem_of_cons in Hin as [[= -> _] | Hin]; [lia |]).
    inversion Hin.
  - exists w''. split; [done |]. apply Hold; [vm_compute; reflexivity | lia].
Defined.

(** ** The defunct tier over the life of a catalog *)

Lemma the_coordinator_with p tc w q :
  the_coordinator (with_coordinator p tc w) q
  = if decide (p = q) then tc else the_coordinator w q.
Proof.
  unfold the_coordinator, with_coordinator. simpl.
  destruct (decide (p = q)) as [<- | Hne].
  - by rewrite lookup_insert_eq.
  - by rewrite lookup_insert_ne.
Qed.

Lemma follows_refl w : follows w w.
Proof. unfold follows. split; [auto |]. split; [auto |]. intros; by left. Qed.

Lemma follows_trans w1 w2 w3 : follows w1 w2 -> follows w2 w3 -> follows w1 w3.
Proof.
  intros (D1 & K1 & S1) (D2 & K2 & S2). split; [auto |]. split; [auto |].
  intros l t c H3. destruct (S2 l t c H3) as [H2 | H2]; [| by right].
  destruct (S1 l t c H2) as [H1 | (st & Hst & Hok)]; [by left |].
  right. exists st. split; [by apply D2 | done].
Qed.

Lemma follows_quietly_refl w : follows_quietly w w.
Proof. split; [apply follows_refl | done]. Qed.

Lemma follows_quietly_trans w1 w2 w3 :
  follows_quietly w1 w2 -> follows_quietly w2 w3 -> follows_quietly w1 w3.
Proof.
  intros (F1 & P1 & Q1) (F2 & P2 & Q2).
  split; [by apply follows_trans with w2 |]. split; [congruence |].
  intros Hoff. rewrite Q2 by congruence. by apply Q1.
Qed.

(** A change of the coordinators that overwrites no decision, with both
    tiers and the fail point left alone. *)
Lemma follows_quietly_coordinators w w' :
  defunct w' = defunct w ->
  doNotForgetCoordinator w' = doNotForgetCoordinator w ->
  (forall c st, decision (the_coordinator w c) = Some st ->
                decision (the_coordinator w' c) = Some st) ->
  follows_quietly w w'.
Proof.
  intros Hd Hfp Hdec. split; [| by split].
  split; [done |]. rewrite Hd. split; [auto |]. intros; by left.
Qed.

Lemma insert_thrown opCtx l t c forStepUp w e w' :
  insert opCtx l t c forStepUp w = Thrown e w' -> w' = w.
Proof.
  destruct forStepUp.
  - rewrite insert_body. by destruct (entry (primary w) l t).
  - rewrite insert_gated.
    destruct (wait_cases opCtx w) as [[H _] | [(e' & H & _) | [H _]]]; rewrite H.
    + rewrite insert_body. by destruct (entry (primary w) l t).
    + by intros [= _ <-].
    + discriminate.
Qed.

Lemma insert_follows opCtx l t c forStepUp w w' :
  after (insert opCtx l t c forStepUp w) w = Some w' -> follows_quietly w w'.
Proof.
  destruct (insert opCtx l t c forStepUp w) as [[] w1 | e w1 | |] eqn:Hins; simpl;
    [| | intros [= <-]; apply follows_quietly_refl | discriminate].
  - intros [= <-]. apply insert_returned in Hins as [_ ->].
    apply follows_quietly_coordinators; [done | done |].
    intros c0 st. change (the_coordinator (with_tiers _ _ ?x) c0)
      with (the_coordinator x c0).
    unfold chained. rewrite the_coordinator_with.
    destruct (decide (c = c0)) as [<- | Hne]; done.
  - intros [= <-]. apply insert_thrown in Hins as ->. apply follows_quietly_refl.
Qed.

Lemma entry_store_cases l t c l' t' tier :
  entry (store l t c tier) l' t'
  = if decide ((l', t') = (l, t)) then Some c else entry tier l' t'.
Proof.
  destruct (decide ((l', t') = (l, t))) as [[= -> ->] | Hne].
  - apply entry_store_eq.
  - by apply entry_store_ne.
Qed.

Lemma remove_follows l t w w' :
  after (remove l t w) w = Some w' -> follows_quietly w w'.
Proof.
  rewrite remove_body.
  assert (Hsame : forall p,
    follows_quietly w (drained_signal (with_tiers p (defunct w) w))).
  { intros p. apply follows_quietly_coordinators.
    - by rewrite defunct_drained_signal.
    - by rewrite drained_signal_fail_point.
    - intros c st. unfold the_coordinator. by rewrite drained_signal_coordinators. }
  destruct (entry (primary w) l t) as [c |] eqn:He; simpl.
  - destruct (doNotForgetCoordinator w) eqn:Hfp; [| intros [= <-]; apply Hsame].
    destruct (decision (the_coordinator w c)) as [st |] eqn:Hdec; simpl;
      [| discriminate].
    intros [= <-]. destruct (isOK st) eqn:Hok; [| apply Hsame].
    split; [| split].
    + split; [| split].
      * intros c0 st0. unfold the_coordinator. by rewrite drained_signal_coordinators.
      * intros l0 t0. rewrite defunct_drained_signal.
        change (defunct (with_tiers _ ?d _)) with d. rewrite entry_store_cases.
        destruct (decide _); eauto.
      * intros l0 t0 c0. rewrite defunct_drained_signal.
        change (defunct (with_tiers _ ?d _)) with d. rewrite entry_store_cases.
        destruct (decide _); [| by left]. intros [= <-]. right. exists st.
        split; [| done]. unfold the_coordinator in *.
        by rewrite drained_signal_coordinators.
    + by rewrite drained_signal_fail_point.
    + rewrite Hfp. discriminate.
  - intros [= <-]. apply follows_quietly_coordinators.
    + by rewrite defunct_drained_signal.
    + by rewrite drained_signal_fail_point.
    + intros c st. unfold the_coordinator. by rewrite drained_signal_coordinators.
Qed.

Lemma run_continuations_follows cbs w w' :
  run_continuations cbs w = Returned tt w' -> follows_quietly w w'.
Proof.
  revert w. induction cbs as [| [l t] cbs IH]; intros w; simpl.
  - intros [= <-]. apply follows_quietly_refl.
  - rewrite bind_unfold.
    destruct (remove_cases l t w) as [[w1 R] | R]; rewrite R; [| discriminate].
    intros H. apply follows_quietly_trans with w1.
    + apply (remove_follows l t). by rewrite R.
    + by apply IH.
Qed.

Lemma complete_follows c st w w' :
  after (complete c st w) w = Some w' -> follows_quietly w w'.
Proof.
  unfold complete. rewrite bind_unfold. unfold get_world.
  destruct (completion (the_coordinator w c)); simpl.
  - intros [= <-]. apply follows_quietly_refl.
  - rewrite bind_unfold. unfold modify.
    set (w1 := with_coordinator c _ w).
    destruct (run_continuations_cases (continuations (the_coordinator w c)) w1)
      as [[w2 R] | R]; rewrite R; simpl; [| discriminate].
    intros [= <-]. apply follows_quietly_trans with w1.
    + apply follows_quietly_coordinators; [done | done |].
      intros c0 st0. unfold w1. rewrite the_coordinator_with.
      destruct (decide (c = c0)) as [<- | Hne]; [| done].
      intros ->. done.
    + by apply (run_continuations_follows (continuations (the_coordinator w c))).
Qed.

Lemma resolve_decision_follows c st w w' :
  after (resolve_decision c st w) w = Some w' -> follows_quietly w w'.
Proof.
  unfold resolve_decision, modify. simpl. intros [= <-].
  destruct (decision (the_coordinator w c)) eqn:Hdec; [apply follows_quietly_refl |].
  apply follows_quietly_coordinators; [done | done |].
  intros c0 st0. rewrite the_coordinator_with.
  destruct (decide (c = c0)) as [<- | Hne]; [congruence | done].
Qed.

Lemma exitStepUp_follows st w w' :
  after (exitStepUp st w) w = Some w' -> follows_quietly w w'.
Proof.
  rewrite exitStepUp_body. destruct (gate w); simpl; [discriminate |].
  intros [= <-]. by apply follows_quietly_coordinators.
Qed.

(** Every call but the switch of the fail point. *)
Lemma exec_follows_quietly op w w' :
  (forall b, op <> OpSetFailPoint b) -> exec op w = Some w' -> follows_quietly w w'.
Proof.
  intros Hop. destruct op; simpl.
  - apply insert_follows.
  - intros H. apply get_pure in H as ->. apply follows_quietly_refl.
  - intros H. apply getLatestOnSession_pure in H as ->. apply follows_quietly_refl.
  - apply remove_follows.
  - apply exitStepUp_follows.
  - apply resolve_decision_follows.
  - apply complete_follows.
  - by destruct (Hop enabled).
Qed.

Lemma exec_follows op w w' : exec op w = Some w' -> follows w w'.
Proof.
  destruct op; try (intros H; apply (exec_follows_quietly _ w w') in H as [? _];
                    [done | discriminate]).
  simpl. intros [= <-]. split; [done |]. split; [done |]. intros; by left.
Qed.

Lemma run_follows ops w w' : run ops w = Some w' -> follows w w'.
Proof.
  revert w. induction ops as [| op ops IH]; intros w; simpl.
  - intros [= <-]. apply follows_refl.
  - destruct (exec op w) as [w1 |] eqn:E; [| discriminate].
    intros H. apply follows_trans with w1; [by apply (exec_follows op) | by apply IH].
Qed.

(** X4.  [remove] is not behind the step-up gate.  In any state, whatever
    the gate and whatever the key, it never throws and never waits: it
    returns, leaving the gate as it was, or aborts at the invariant on the
    decision.  So in a state of the catalog's life where the gate stops the
    lookups of a registered key (they wait while recovery is under way,
    they throw the recovery status once it has failed), a [remove] of that
    key, as the completion of its coordinator makes it, still goes through
    and retires the entry. *)
Theorem remove_is_not_gated opCtx l t c w :
  (forall e w', remove l t w <> Thrown e w') /\
  remove l t w <> Blocked /\
  (forall w', remove l t w = Returned tt w' -> gate w' = gate w) /\
  ((exists w', remove l t w = Returned tt w') \/
   remove l t w = Fatal DecisionNotReady) /\
  (reachable w -> holds (primary w) l t c ->
   doNotForgetCoordinator w = false ->
   (gate w = None -> interruptStatus opCtx = None ->
    get opCtx l t w = Blocked /\ getLatestOnSession opCtx l w = Blocked) /\
   (forall st, gate w = Some st -> isOK st = false ->
    get opCtx l t w = Thrown st w /\ getLatestOnSession opCtx l w = Thrown st w) /\
   exists w', remove l t w = Returned tt w' /\
              ~ has_key (primary w') l t /\ gate w' = gate w).
Proof.
  assert (Hgate : forall w', remove l t w = Returned tt w' -> gate w' = gate w).
  { rewrite remove_body. intros w'.
    assert (forall w0, gate (drained_signal w0) = gate w0) as Hsig.
    { intros w0. unfold drained_signal. by destruct (bool_decide _). }
    destruct (entry (primary w) l t) as [c' |].
    - destruct (doNotForgetCoordinator w).
      + destruct (decision (the_coordinator w c')); [| discriminate].
        intros [= <-]. by rewrite Hsig.
      + intros [= <-]. by rewrite Hsig.
    - intros [= <-]. by rewrite Hsig. }
  split; [| split; [| split; [| split]]].
  - intros e w'. destruct (remove_cases l t w) as [[w0 ->] | ->]; discriminate.
  - destruct (remove_cases l t w) as [[w0 ->] | ->]; discriminate.
  - exact Hgate.
  - apply remove_cases.
  - intros Hreach Hc Hfp. pose proof (reachable_wf w Hreach) as (Ho & _ & _).
    split; [| split].
    + intros Hg Hint. pose proof (wait_blocked opCtx w Hg Hint) as Hwait.
      split; [unfold get | unfold getLatestOnSession]; by rewrite bind_unfold, Hwait.
    + intros st Hg Hst. pose proof (wait_failed opCtx w st Hg Hst) as Hwait.
      split; [unfold get | unfold getLatestOnSession]; by rewrite bind_unfold, Hwait.
    + apply entry_holds in Hc; [| done].
      destruct (remove_present l t c w Hc) as (w' & Hrem & Hprim & _);
        [by rewrite Hfp |].
      exists w'. split; [done |]. rewrite Hprim.
      split; [by apply has_key_retire | by apply Hgate].
Qed.

Lemma world_recovering_reachable : reachable world_recovering.
Proof. exists [OpInsert anyOpCtx 7 1 100 true]. vm_compute. reflexivity. Qed.

Lemma remove_is_not_gated_witness :
  (get anyOpCtx 7 1 world_recovering = Blocked /\
   exists w', remove 7 1 world_recovering = Returned tt w' /\
              ~ has_key (primary w') 7 1 /\ gate w' = None) /\
  (get anyOpCtx 7 1 world_failed = Thrown (StatusError 11602) world_failed /\
   exists w', remove 7 1 world_failed = Returned tt w' /\
              ~ has_key (primary w') 7 1 /\
              gate w' = Some (StatusError 11602)).
Proof.
  destruct (remove_is_not_gated anyOpCtx 7 1 100 world_recovering)
    as (_ & _ & _ & _ & Hrecovering).
  destruct (remove_is_not_gated anyOpCtx 7 1 100 world_failed)
    as (_ & _ & _ & _ & Hfailed).
  split.
  - destruct Hrecovering as (Hwaits & _ & Hrem).
    + apply world_recovering_reachable.
    + apply entry_holds; [apply reachable_wf, world_recovering_reachable |].
      vm_compute. reflexivity.
    + vm_compute. reflexivity.
    + split; [apply Hwaits; reflexivity | exact Hrem].
  - destruct Hfailed as (_ & Hthrows & Hrem).
    + apply world_failed_reachable.
    + apply entry_holds; [apply reachable_wf, world_failed_reachable |].
      vm_compute. reflexivity.
    + vm_compute. reflexivity.
    + split; [apply Hthrows; vm_compute; reflexivity | exact Hrem].
Defined.

(** X5.  Nothing ever takes a key out of the defunct tier: a key it holds
    in some state of a catalog's life it holds after every later history of
    calls (the coordinator under it may have been replaced by a later one
    retired under the same key). *)
Theorem defunct_tier_never_forgets ops l t w w' :
  reachable w -> run ops w = Some w' ->
  has_key (defunct w) l t -> has_key (defunct w') l t.
Proof.
  intros Hreach Hrun Hkey.
  pose proof (reachable_wf w Hreach) as (_ & _ & Hd).
  pose proof (reachable_wf w' (reachable_run ops w w' Hreach Hrun)) as (_ & _ & Hd').
  apply entry_has_key; [done |]. apply entry_has_key in Hkey; [| done].
  apply run_follows in Hrun as (_ & Hkeep & _). by apply Hkeep.
Qed.

Lemma world_retained_reachable : reachable world_retained.
Proof.
  apply (reachable_run [OpRemove 7 2] world_retaining);
    [apply world_retaining_reachable | vm_compute; reflexivity].
Qed.

Lemma defunct_tier_never_forgets_witness :
  run history_later world_retained = Some world_later /\
  has_key (defunct world_later) 7 2.
Proof.
  assert (Hrun : run history_later world_retained = Some world_later)
    by (vm_compute; reflexivity).
  split; [exact Hrun |].
  apply (defunct_tier_never_forgets history_later 7 2 world_retained world_later
           world_retained_reachable Hrun).
  apply entry_has_key; [apply reachable_wf, world_retained_reachable |].
  vm_compute. eauto.
Defined.

(** X6.  The defunct tier is written only under the fail point: over any
    history that does not switch the fail point on, started with it off,
    the defunct tier stays what it was.  For a catalog created empty it
    stays empty, and every coordinator that [get] returns is one the
    primary map holds. *)
Theorem defunct_tier_needs_fail_point ops w w' :
  doNotForgetCoordinator w = false ->
  OpSetFailPoint true ∉ ops ->
  run ops w = Some w' ->
  defunct w' = defunct w /\ doNotForgetCoordinator w' = false /\
  (reachable w -> defunct w = ∅ ->
   forall opCtx l t c, get opCtx l t w' = Returned (Some c) w' ->
                       holds (primary w') l t c).
Proof.
  intros Hfp Hops Hrun.
  assert (defunct w' = defunct w /\ doNotForgetCoordinator w' = false) as [Hd Hfp'].
  { revert w Hfp Hrun. induction ops as [| op ops IH]; intros w Hfp; simpl.
    - by intros [= <-].
    - apply not_elem_of_cons in Hops as [Hop Hops].
      destruct (exec op w) as [w1 |] eqn:E; [| discriminate]. intros Hrun.
      assert (defunct w1 = defunct w /\ doNotForgetCoordinator w1 = false) as [Hd1 Hf1].
      { destruct op; try (apply (exec_follows_quietly _ w w1) in E as (_ & Hf & Hd);
                          [split; [by apply Hd | congruence] | discriminate]).
        destruct enabled; [done |]. simpl in E. by injection E as <-. }
      destruct (IH Hops w1 Hf1 Hrun) as [Hd' Hf']. split; congruence. }
  split; [done |]. split; [done |].
  intros Hreach Hempty opCtx l t c Hget.
  pose proof (reachable_wf w' (reachable_run ops w w' Hreach Hrun)) as (Ho & _ & _).
  destruct (wait_cases opCtx w') as [[H Hg] | [(e & H & _) | [H _]]].
  - rewrite get_body in Hget by done. rewrite Hfp' in Hget.
    destruct (entry (primary w') l t) as [c' |] eqn:E; [| discriminate].
    injection Hget as <-. by apply entry_holds.
  - destruct (get_gated opCtx l t w') as [(e' & _ & He) | [_ He]];
      [congruence | |]; rewrite He in Hget; discriminate.
  - destruct (get_gated opCtx l t w') as [(e' & _ & He) | [_ He]];
      [congruence | |]; rewrite He in Hget; discriminate.
Qed.

Lemma defunct_tier_needs_fail_point_witness :
  defunct world_drained = ∅ /\ doNotForgetCoordinator world_drained = false.
Proof.
  destruct (defunct_tier_needs_fail_point
              (history_open ++ [OpComplete 100 StatusOK; OpComplete 101 StatusOK;
                                OpComplete 102 StatusOK])
              initial_world world_drained) as (Hd & Hfp & _).
  - reflexivity.
  - intros Hin. vm_compute in Hin.
    repeat (apply elem_of_cons in Hin as [Hin | Hin]; [discriminate |]).
    inversion Hin.
  - vm_compute. reflexivity.
  - split; [exact Hd | exact Hfp].
Defined.

(** X7.  Only coordinators that completed successfully are remembered: in
    every state of a catalog's life, each coordinator that the defunct tier
    holds has its decision in, and the decision is a success. *)
Theorem defunct_tier_holds_successes l t c w :
  reachable w -> holds (defunct w) l t c ->
  exists st, decision (the_coordinator w c) = Some st /\ isOK st = true.
Proof.
  intros Hreach Hc. pose proof (reachable_wf w Hreach) as (_ & _ & Hd).
  apply entry_holds in Hc; [| done].
  destruct Hreach as [ops Hrun]. apply run_follows in Hrun as (_ & _ & Hsucc).
  destruct (Hsucc l t c Hc) as [Hinit | Hst]; [| done].
  vm_compute in Hinit. discriminate.
Qed.

Lemma defunct_tier_holds_successes_witness :
  exists st, decision (the_coordinator world_retained 102) = Some st /\
             isOK st = true.
Proof.
  apply (defunct_tier_holds_successes 7 2 102 world_retained
           world_retained_reachable).
  apply entry_holds; [apply reachable_wf, world_retained_reachable |].
  vm_compute. reflexivity.
Defined.

(** X8.  [exitStepUp] with a success status opens the gate.  Before it,
    with the gate unset, a lookup and a gated [insert] whose caller is not
    cancelled stay in their wait; [exitStepUp] stores the status, signals
    [_stepUpCompleteCv] and touches neither tier nor any coordinator; after
    it the same lookups return, [get] with the coordinator the primary map
    holds under the key. *)
Theorem exitStepUp_opens_the_gate opCtx l t w :
  reachable w -> gate w = None -> interruptStatus opCtx = None ->
  get opCtx l t w = Blocked /\
  getLatestOnSession opCtx l w = Blocked /\
  (forall c, insert opCtx l t c false w = Blocked) /\
  exists w',
    exitStepUp StatusOK w = Returned tt w' /\
    primary w' = primary w /\ defunct w' = defunct w /\
    coordinators w' = coordinators w /\
    notified w' = _stepUpCompleteCv :: notified w /\
    (forall c, holds (primary w) l t c -> get opCtx l t w' = Returned (Some c) w') /\
    (exists r, getLatestOnSession opCtx l w' = Returned r w').
Proof.
  intros Hreach Hg Hint. pose proof (reachable_wf w Hreach) as (Ho & Hp & _).
  pose proof (wait_blocked opCtx w Hg Hint) as Hwait.
  split; [unfold get; by rewrite bind_unfold, Hwait |].
  split; [unfold getLatestOnSession; by rewrite bind_unfold, Hwait |].
  split; [intros c; by rewrite insert_gated, Hwait |].
  rewrite exitStepUp_body, Hg. eexists. split; [done |].
  set (w' := mkWorld _ _ _ _).
  assert (gate w' = Some StatusOK) as Hg' by done.
  do 4 (split; [done |]). split.
  - intros c Hc. apply entry_holds in Hc; [| done].
    rewrite get_body by done. change (primary w') with (primary w). by rewrite Hc.
  - rewrite getLatestOnSession_body by done. change (primary w') with (primary w).
    destruct (primary w !! l) as [[| e m] |] eqn:E; eauto.
    by apply Hp in E.
Qed.

Lemma exitStepUp_opens_the_gate_witness :
  get anyOpCtx 7 1 world_recovering = Blocked /\
  exists w', exitStepUp StatusOK world_recovering = Returned tt w' /\
             get anyOpCtx 7 1 w' = Returned (Some 100%N) w'.
Proof.
  destruct (exitStepUp_opens_the_gate anyOpCtx 7 1 world_recovering
              world_recovering_reachable)
    as (Hget & _ & _ & w' & Hexit & _ & _ & _ & _ & Hafter & _).
  - vm_compute. reflexivity.
  - reflexivity.
  - split; [exact Hget |]. exists w'. split; [exact Hexit |]. apply Hafter.
    apply entry_holds; [apply reachable_wf, world_recovering_reachable |].
    vm_compute. reflexivity.
Defined.

(** X9.  [getLatestOnSession] does not fall back on the defunct tier.
    With the fail point on, once the only coordinator of a session has been
    retired after a successful decision, [get] of its key still returns it
    and [getLatestOnSession] of its session returns none. *)
Theorem getLatestOnSession_ignores_defunct opCtx l t c w :
  reachable w -> gate w = Some StatusOK -> doNotForgetCoordinator w = true ->
  primary w !! l = Some [(t, c)] ->
  decision (the_coordinator w c) = Some StatusOK ->
  exists w',
    remove l t w = Returned tt w' /\
    get opCtx l t w' = Returned (Some c) w' /\
    getLatestOnSession opCtx l w' = Returned None w'.
Proof.
  intros Hreach Hg Hfp Hl Hdec. pose proof (reachable_wf w Hreach) as (Ho & Hp & Hd).
  assert (entry (primary w) l t = Some c) as He.
  { unfold entry. rewrite Hl. simpl. unfold OrderedMap.key_comp.
    by rewrite Z.ltb_irrefl. }
  destruct (remove_present l t c w He) as (w' & Hrem & Hprim & Hdef & _ & Hfp' & Hg');
    [by rewrite Hdec |].
  exists w'. split; [done |]. split.
  - rewrite get_body by congruence.
    rewrite Hprim, entry_retire_eq by done. rewrite Hfp', Hfp, Hdef, Hfp, Hdec. simpl.
    apply f_equal2; [| done]. apply entry_store_eq.
  - rewrite getLatestOnSession_body by congruence.
    assert (primary w' !! l = None) as ->; [| done].
    rewrite Hprim. by apply (retire_prunes l t c).
Qed.

Lemma getLatestOnSession_ignores_defunct_witness :
  exists w1 w',
    run [OpInsert anyOpCtx 9 5 400 false; OpDecide 400 StatusOK] world_retaining
      = Some w1 /\
    remove 9 5 w1 = Returned tt w' /\
    get anyOpCtx 9 5 w' = Returned (Some 400%N) w' /\
    getLatestOnSession anyOpCtx 9 w' = Returned None w'.
Proof.
  assert (exists w1,
    run [OpInsert anyOpCtx 9 5 400 false; OpDecide 400 StatusOK] world_retaining
      = Some w1 /\
    gate w1 = Some StatusOK /\ doNotForgetCoordinator w1 = true /\
    primary w1 !! 9%N = Some [(5%Z, 400%N)] /\
    decision (the_coordinator w1 400) = Some StatusOK)
    as (w1 & Hrun & Hg & Hfp & Hl & Hdec).
  { eexists. split; [vm_compute; reflexivity |].
    repeat split; vm_compute; reflexivity. }
  destruct (getLatestOnSession_ignores_defunct anyOpCtx 9 5 400 w1)
    as (w' & Hrem & Hget & Hlatest); try done.
  - eapply reachable_run; [apply world_retaining_reachable | exact Hrun].
  - exists w1, w'. done.
Defined.

(** X10.  What [join] logs is consistent and complete.  In every state of
    a catalog's life the text that [_toString] gives is an opening bracket,
    one line for each session of the primary map, and a closing bracket
    (there is no session line exactly when the primary map is empty).  Every
    session of the primary map has one line and no session has two; a
    line gives all the transaction numbers of its session, at least one,
    from the greatest down, none twice.  When [join] logs, at the end of a
    5 second wait with entries left, the number in its first line is the
    number of session lines of the dump in its second. *)
Theorem dump_lists_each_session_once toBSON w :
  reachable w ->
  exists sessions : list (LogicalSessionId * list TxnNumber),
    _toString toBSON (catalog w) =
      "[" +:+ String.concat EmptyString
                ((fun e => newline +:+ toBSON e.1 +:+ ": " +:+
                    String.concat EmptyString
                      ((fun t : Z => pretty t +:+ " ") <$> e.2)) <$> sessions)
          +:+ "]" /\
    (sessions = [] <-> primary w = ∅) /\
    NoDup sessions.*1 /\
    (forall l, l ∈ sessions.*1 <-> is_Some (primary w !! l)) /\
    (forall l ts, (l, ts) ∈ sessions ->
       ts <> [] /\ StronglySorted (fun a b => (b < a)%Z) ts /\ NoDup ts /\
       forall t, t ∈ ts <-> has_key (primary w) l t) /\
    (primary w <> ∅ -> forall now,
       join toBSON now w [mkWake (now + 5000) w]
       = JoinWaiting [LogSessionsLeft (length sessions);
                      LogCatalog (_toString toBSON (catalog w))]).
Proof.
  intros Hreach. pose proof (reachable_wf w Hreach) as (Ho & Hp & _).
  destruct (toString_text toBSON w) as (sessions & _ & -> & Htext).
  assert (Hlen : length (outstanding (catalog w)) = size (primary w)).
  { unfold outstanding, primary. rewrite length_fmap. apply length_map_to_list. }
  exists (outstanding (catalog w)).
  split; [exact Htext |]. split; [| split; [| split; [| split]]].
  - rewrite <- length_zero_iff_nil, Hlen. apply map_size_empty_iff.
  - unfold outstanding. rewrite <- list_fmap_compose.
    apply (NoDup_fst_map_to_list (_coordinatorsBySession (catalog w))).
  - intros l. rewrite list_elem_of_fmap. split.
    + intros ([l' ts] & -> & Hin). apply elem_outstanding in Hin as (m & Hm & _).
      by exists m.
    + intros [m Hm]. exists (l, OrderedMap.keys m). split; [done |].
      apply elem_outstanding. eauto.
  - intros l ts Hin.
    assert (forall t, t ∈ ts <-> has_key (primary w) l t) as Hkeys.
    { intros t. rewrite has_key_outstanding. split; [by eauto |].
      intros (ts' & Hin' & Ht).
      apply elem_outstanding in Hin as (m & Hm & ->).
      apply elem_outstanding in Hin' as (m' & Hm' & ->). congruence. }
    apply elem_outstanding in Hin as (m & Hm & ->).
    pose proof (Ho l m Hm) as Hord. pose proof (Hp l m Hm) as Hne.
    split; [by destruct m |]. split; [| split; [by apply ordered_NoDup | done]].
    clear Hkeys Hne Hm. unfold OrderedMap.ordered in Hord.
    induction Hord as [| a ks Hs IH Hall]; constructor; [done |].
    eapply Forall_impl; [exact Hall |]. intros b Hb. by apply key_comp_lt.
  - intros Hne now. unfold join. pose proof Hne as Hactive.
    apply no_active_false in Hactive. rewrite Hactive. simpl. rewrite Hactive.
    assert ((now + join_wait_interval <=? now + 5000)%N = true) as ->
      by (apply N.leb_le; unfold join_wait_interval; lia).
    unfold diagnostic_lines. by rewrite Hlen.
Qed.

Lemma dump_lists_each_session_once_witness :
  exists sessions : list (LogicalSessionId * list TxnNumber),
    _toString pretty (catalog world_open) = "[" +:+ newline +:+ "7: 3 2 1 ]" /\
    length sessions = 1%nat /\
    join pretty 0 world_open [mkWake 5000 world_open]
    = JoinWaiting [LogSessionsLeft (length sessions);
                   LogCatalog ("[" +:+ newline +:+ "7: 3 2 1 ]")] /\
    forall ts, (7%N, ts) ∈ sessions ->
      ts <> [] /\ StronglySorted (fun a b => (b < a)%Z) ts /\ NoDup ts.
Proof.
  destruct (dump_lists_each_session_once pretty world_open world_open_reachable)
    as (sessions & Htext & _ & _ & _ & Hlines & Hjoin).
  assert (Hne : primary world_open <> ∅).
  { intros H. apply (f_equal (fun m => m !! 7%N)) in H. vm_compute in H.
    discriminate. }
  specialize (Hjoin Hne 0%N).
  assert (Hlog : join pretty 0 world_open [mkWake (0 + 5000) world_open]
            = JoinWaiting [LogSessionsLeft 1;
                           LogCatalog ("[" +:+ newline +:+ "7: 3 2 1 ]")])
    by (vm_compute; reflexivity).
  rewrite Hlog in Hjoin. injection Hjoin as Hcount.
  exists sessions. split; [vm_compute; reflexivity |]. split; [done |].
  split; [by rewrite <- Hcount |].
  intros ts Hin. destruct (Hlines 7%N ts Hin) as (? & ? & ? & _). done.
Defined.

(** X11.  The continuation that [insert] chains captures the key, not the
    coordinator.  When a coordinator was retired by hand and another one
    registered under its key, the completion of the first retires the
    entry of the second, which has not completed. *)
Theorem completion_retires_the_key_it_captured c1 c2 st l t w :
  reachable w ->
  completion (the_coordinator w c1) = None ->
  continuations (the_coordinator w c1) = [(l, t)] ->
  holds (primary w) l t c2 -> c2 <> c1 ->
  doNotForgetCoordinator w = false ->
  exists w',
    complete c1 st w = Returned tt w' /\
    ~ has_key (primary w') l t /\
    the_coordinator w' c2 = the_coordinator w c2.
Proof.
  intros Hreach Hcomp Hcont Hc2 Hne Hfp.
  pose proof (reachable_wf w Hreach) as (Ho & _ & _).
  apply entry_holds in Hc2; [| done].
  rewrite (complete_runs_remove c1 st l t w Hcomp Hcont).
  set (w1 := with_coordinator c1 _ w).
  destruct (remove_present l t c2 w1 Hc2) as (w' & Hrem & Hprim & _ & Hco & _).
  { intros Hon. change (doNotForgetCoordinator w = true) in Hon. congruence. }
  exists w'. split; [done |]. split.
  - rewrite Hprim. by apply has_key_retire.
  - unfold the_coordinator at 1. rewrite Hco. fold (the_coordinator w1 c2).
    unfold w1. rewrite the_coordinator_with. by destruct (decide (c1 = c2)).
Qed.

Lemma completion_retires_the_key_it_captured_witness :
  holds (primary world_reused) 7 2 200 /\
  completion (the_coordinator world_reused 200) = None /\
  exists w', complete 102 StatusOK world_reused = Returned tt w' /\
             ~ has_key (primary w') 7 2 /\
             completion (the_coordinator w' 200) = None.
Proof.
  assert (Hreach : reachable world_reused).
  { apply (reachable_run [OpRemove 7 2; OpInsert anyOpCtx 7 2 200 false] world_open);
      [apply world_open_reachable | vm_compute; reflexivity]. }
  assert (Hholds : holds (primary world_reused) 7 2 200).
  { apply entry_holds; [apply reachable_wf, Hreach |]. vm_compute. reflexivity. }
  split; [exact Hholds |]. split; [vm_compute; reflexivity |].
  destruct (completion_retires_the_key_it_captured 102 200 StatusOK 7 2 world_reused
              Hreach) as (w' & Hc & Hgone & Hsame);
    [vm_compute; reflexivity | vm_compute; reflexivity | exact Hholds
    | discriminate | vm_compute; reflexivity |].
  exists w'. split; [done |]. split; [done |]. rewrite Hsame.
  vm_compute. reflexivity.
Defined.

(** * Facts about the heap profiler *)

Module HeapProfilingFacts.
Import HeapProfiling.

Section with_platform.
Context `{Platform}.
Implicit Types (m : gmap N StackInfo) (p q h : N) (s : list N).

Lemma uint64_add_l a b : uint64 (uint64 a + b) = uint64 (a + b).
Proof. unfold uint64. by rewrite Zplus_mod_idemp_l. Qed.

Lemma int64_add_l a b : int64 (int64 a + b) = int64 (a + b).
Proof.
  unfold int64. f_equal.
  replace ((a + 2 ^ 63) mod 2 ^ 64 - 2 ^ 63 + b + 2 ^ 63)%Z
    with ((a + 2 ^ 63) mod 2 ^ 64 + b)%Z by lia.
  rewrite Zplus_mod_idemp_l. f_equal. lia.
Qed.

Lemma int32_small z : (0 <= z < 2 ^ 31)%Z -> int32 z = z.
Proof. intros Hz. unfold int32. rewrite Z.mod_small; lia. Qed.

Lemma set_ordered_cons m q s :
  set_ordered m (q :: s) <->
  set_ordered m s /\ forall r, r ∈ s -> (stackNum_at m q < stackNum_at m r)%Z.
Proof.
  unfold set_ordered. simpl. split.
  - intros Hs. apply StronglySorted_inv in Hs as [Hs Hall]. split; [done |].
    intros r Hr. rewrite Forall_forall in Hall. apply Hall.
    apply list_elem_of_fmap. by exists r.
  - intros [Hs Hlt]. constructor; [done |]. apply Forall_forall.
    intros n (r & -> & Hr)%list_elem_of_fmap. by apply Hlt.
Qed.

(** With numbers that tell the pointers apart, the set behaves as a set of
    pointers. *)
Lemma set_find_elem m p s :
  set_ordered m s ->
  (forall q, q ∈ s -> stackNum_at m q = stackNum_at m p -> q = p) ->
  set_find m p s = true <-> p ∈ s.
Proof.
  induction s as [| q s IH]; intros Hord Hinj; simpl.
  - split; [discriminate | intros Hin; inversion Hin].
  - apply set_ordered_cons in Hord as [Hs Hlt]. rewrite elem_of_cons.
    destruct (stackNum_at m q <? stackNum_at m p)%Z eqn:E1;
      [apply Z.ltb_lt in E1 | apply Z.ltb_ge in E1].
    + rewrite IH; [| done | intros; apply Hinj; [by right | done]].
      split; [tauto |]. intros [-> | Hin]; [lia | done].
    + destruct (stackNum_at m p <? stackNum_at m q)%Z eqn:E2;
        [apply Z.ltb_lt in E2 | apply Z.ltb_ge in E2].
      * split; [discriminate |]. intros [-> | Hin]; [lia |].
        apply Hlt in Hin. lia.
      * split; [| done]. intros _. left. symmetry. apply Hinj; [by left | lia].
Qed.

Lemma set_insert_keeps m p q s : q ∈ s -> q ∈ set_insert m p s.
Proof.
  induction s as [| r s IH]; simpl; [intros Hin; inversion Hin |].
  intros Hin. destruct (stackNum_at m r <? stackNum_at m p)%Z.
  - apply elem_of_cons in Hin as [-> | Hin]; [by left | right; by apply IH].
  - destruct (stackNum_at m p <? stackNum_at m r)%Z; [by right | done].
Qed.

Lemma set_insert_elem m p q s :
  q ∈ set_insert m p s -> q = p \/ q ∈ s.
Proof.
  induction s as [| r s IH]; simpl.
  - intros Hin. apply list_elem_of_singleton in Hin. by left.
  - destruct (stackNum_at m r <? stackNum_at m p)%Z.
    + intros [-> | Hin]%elem_of_cons; [right; by left |].
      destruct (IH Hin); [by left | right; by right].
    + destruct (stackNum_at m p <? stackNum_at m r)%Z; [| by right].
      intros [-> | Hin]%elem_of_cons; [by left | by right].
Qed.

(** Either the pointer is in after [insert], or the set already had one
    with its number. *)
Lemma set_insert_has m p s :
  p ∈ set_insert m p s \/
  exists q, q ∈ s /\ stackNum_at m q = stackNum_at m p.
Proof.
  induction s as [| r s IH]; simpl; [left; by left |].
  destruct (stackNum_at m r <? stackNum_at m p)%Z eqn:E1.
  - destruct IH as [Hin | (q & Hq & Hn)]; [left; by right |].
    right. exists q. split; [by right | done].
  - destruct (stackNum_at m p <? stackNum_at m r)%Z eqn:E2; [left; by left |].
    apply Z.ltb_ge in E1, E2. right. exists r. split; [by left | lia].
Qed.

Lemma set_insert_ordered m p s : set_ordered m s -> set_ordered m (set_insert m p s).
Proof.
  induction s as [| r s IH]; intros Hord; simpl.
  - apply set_ordered_cons. split; [constructor |]. intros ? Hin; inversion Hin.
  - pose proof Hord as Hord'. apply set_ordered_cons in Hord' as [Hs Hlt].
    destruct (stackNum_at m r <? stackNum_at m p)%Z eqn:E1;
      [apply Z.ltb_lt in E1 | apply Z.ltb_ge in E1].
    + apply set_ordered_cons. split; [by apply IH |].
      intros q Hq. apply set_insert_elem in Hq as [-> | Hq]; [done | by apply Hlt].
    + destruct (stackNum_at m p <? stackNum_at m r)%Z eqn:E2;
        [apply Z.ltb_lt in E2 | done].
      apply set_ordered_cons. split; [done |].
      intros q [-> | Hq]%elem_of_cons; [done |]. apply Hlt in Hq. lia.
Qed.

(** The set operations read the map only for the numbers. *)
Lemma set_find_ext m m' p s :
  (forall q, stackNum_at m' q = stackNum_at m q) -> set_find m' p s = set_find m p s.
Proof. intros Hn. induction s as [| q s IH]; simpl; [done |]. by rewrite !Hn, IH. Qed.

Lemma set_insert_ext m m' p s :
  (forall q, stackNum_at m' q = stackNum_at m q) ->
  set_insert m' p s = set_insert m p s.
Proof. intros Hn. induction s as [| q s IH]; simpl; [done |]. by rewrite !Hn, IH. Qed.

Lemma set_ordered_ext m m' s :
  (forall q, q ∈ s -> stackNum_at m' q = stackNum_at m q) ->
  set_ordered m s -> set_ordered m' s.
Proof.
  intros Hn. unfold set_ordered.
  assert (stackNum_at m' <$> s = stackNum_at m <$> s) as ->; [| done].
  apply list_fmap_ext. intros i q Hq. apply Hn. by eapply list_elem_of_lookup_2.
Qed.

Lemma stackNum_at_alter m f h q :
  (forall i, stackNum (f i) = stackNum i) ->
  stackNum_at (alter f h m) q = stackNum_at m q.
Proof.
  intros Hf. unfold stackNum_at. destruct (decide (h = q)) as [<- | Hne].
  - rewrite lookup_alter_eq. destruct (m !! h); simpl; [by rewrite Hf | done].
  - by rewrite lookup_alter_ne.
Qed.

Lemma stackNum_at_lookup m h i : m !! h = Some i -> stackNum_at m h = stackNum i.
Proof. intros E. unfold stackNum_at. by rewrite E. Qed.

Lemma size_alter_map m f h : size (alter f h m) = size m.
Proof. rewrite <- !size_dom. by rewrite dom_alter_L. Qed.

Lemma numbered_alter m f h :
  (forall i, stackNum (f i) = stackNum i) -> numbered m -> numbered (alter f h m).
Proof.
  intros Hf [Hb Hinj]. split.
  - intros h' i' Hi. rewrite size_alter_map.
    destruct (decide (h = h')) as [<- | Hne].
    + rewrite lookup_alter_eq in Hi. destruct (m !! h) as [i |] eqn:E; [| done].
      injection Hi as <-. rewrite Hf. by apply (Hb h).
    + rewrite lookup_alter_ne in Hi by done. by apply (Hb h').
  - intros h1 h2 i1 i2 H1 H2 Heq.
    assert (forall h' i', alter f h m !! h' = Some i' ->
              exists i0, m !! h' = Some i0 /\ stackNum i0 = stackNum i') as Hback.
    { intros h' i' Hi. destruct (decide (h = h')) as [<- | Hne].
      - rewrite lookup_alter_eq in Hi. destruct (m !! h) as [i |]; [| done].
        injection Hi as <-. eauto.
      - rewrite lookup_alter_ne in Hi by done. eauto. }
    destruct (Hback _ _ H1) as (j1 & E1 & N1).
    destruct (Hback _ _ H2) as (j2 & E2 & N2).
    apply (Hinj h1 h2 j1 j2 E1 E2). congruence.
Qed.

Lemma numbered_insert m h info :
  numbered m -> m !! h = None -> stackNum info = (Z.of_nat (size m) + 1)%Z ->
  numbered (<[h := info]> m).
Proof.
  intros [Hb Hinj] Hnone Hnum. split.
  - intros h' i'. rewrite map_size_insert_None by done.
    destruct (decide (h = h')) as [<- | Hne].
    + rewrite lookup_insert_eq. intros [= <-]. lia.
    + rewrite lookup_insert_ne by done. intros Hi. apply Hb in Hi. lia.
  - intros h1 h2 i1 i2.
    destruct (decide (h = h1)) as [<- | Hne1]; destruct (decide (h = h2)) as [<- | Hne2];
      rewrite ?lookup_insert_eq, ?lookup_insert_ne by done; try done.
    + intros [= <-] H2 Heq. apply Hb in H2. lia.
    + intros H1 [= <-] Heq. apply Hb in H1. lia.
    + apply Hinj.
Qed.

Lemma bytes_of_app h l sample :
  bytes_of h (l ++ [sample])
  = (bytes_of h l + if decide (StackHash sample = h) then sum sample else 0)%Z.
Proof.
  unfold bytes_of. induction l as [| x l IH]; simpl.
  - destruct (decide _); lia.
  - rewrite IH. destruct (decide (StackHash x = h)); lia.
Qed.

Lemma bytes_of_absent h l : h ∉ StackHash <$> l -> bytes_of h l = 0%Z.
Proof.
  unfold bytes_of. induction l as [| x l IH]; simpl; [done |].
  intros Hnot. apply not_elem_of_cons in Hnot as [Hne Hnot].
  destruct (decide (StackHash x = h)); [congruence | by apply IH].
Qed.

Lemma total_bytes_app l sample :
  total_bytes (l ++ [sample]) = (total_bytes l + sum sample)%Z.
Proof. unfold total_bytes. induction l as [| x l IH]; simpl; lia. Qed.

Lemma hashes_app (l : list Sample) sample h :
  h ∈ StackHash <$> (l ++ [sample]) <-> h = StackHash sample \/ h ∈ StackHash <$> l.
Proof.
  rewrite fmap_app, elem_of_app. simpl. rewrite list_elem_of_singleton. tauto.
Qed.

Lemma live_inv_start m0 : numbered m0 -> live_inv m0 [] (mkLive 0 m0 [] [] []).
Proof.
  intros Hnum. unfold live_inv. simpl.
  split; [done |]. split; [constructor |].
  split; [done |]. split; [done |]. split; [constructor |].
  split; [intros h Hin; inversion Hin |]. split; [done |].
  split; [eauto |]. split; [done | lia].
Qed.

(** One sample more keeps what holds of the locals, as long as the number
    of the next new stack fits an [int]. *)
Lemma live_sample_inv m0 seen acc sample :
  live_inv m0 seen acc ->
  (Z.of_nat (size (live_map acc)) + 1 < 2 ^ 31)%Z ->
  live_inv m0 (seen ++ [sample]) (live_sample acc sample).
Proof.
  intros (Hnum & Hord & Hact & Hinfos & Hnd & Hbytes & Hrest & Hold & Htot & Hsize)
    Hbound.
  unfold live_sample. set (h := StackHash sample).
  (* the map once the stack is registered *)
  assert (exists m1 log1 i1,
    match live_map acc !! h with
    | Some _ => (live_map acc, live_log acc)
    | None =>
        let '(info, lines) :=
          StackInfo_new sample (int32 (Z.of_nat (size (live_map acc)) + 1)) in
        (<[h := info]> (live_map acc), live_log acc ++ lines)
    end = (m1, log1) /\
    numbered m1 /\ m1 !! h = Some i1 /\
    (forall q, q <> h -> m1 !! q = live_map acc !! q) /\
    (forall q, is_Some (live_map acc !! q) -> m1 !! q = live_map acc !! q) /\
    (live_map acc !! h = None -> activeBytes i1 = 0%Z) /\
    (size (live_map acc) <= size m1 <= size (live_map acc) + 1)%nat)
    as (m1 & log1 & i1 & -> & Hnum1 & Hh1 & Hne1 & Hagree & Hfresh & Hsize1).
  { destruct (live_map acc !! h) as [i0 |] eqn:E.
    - exists (live_map acc), (live_log acc), i0.
      do 5 (split; [done |]). split; [discriminate | lia].
    - simpl. eexists _, _, _. split; [done |].
      split; [| split; [apply lookup_insert_eq |]].
      + apply numbered_insert; [done | done |]. simpl. apply int32_small. lia.
      + split; [intros q Hq; by rewrite lookup_insert_ne |].
        split; [| split; [done |]].
        * intros q [iq Hq]. rewrite lookup_insert_ne; [done | congruence].
        * rewrite map_size_insert_None by done. lia. }
  assert (Hnums : forall q, q ∈ activeStacks acc ->
            stackNum_at m1 q = stackNum_at (live_map acc) q).
  { intros q Hq. apply Hact, Hbytes in Hq as (iq & Hiq & _).
    unfold stackNum_at. rewrite Hagree; [done | by rewrite Hiq]. }
  assert (Hord1 : set_ordered m1 (activeStacks acc)) by by apply (set_ordered_ext (live_map acc)).
  assert (Hfind : set_find m1 h (activeStacks acc) = true <-> h ∈ StackHash <$> seen).
  { rewrite <- Hact. apply set_find_elem; [done |].
    intros q Hq Heq. apply Hact, Hbytes in Hq as (iq & Hiq & _).
    destruct Hnum1 as [_ Hinj]. apply (Hinj q h iq i1); [| done |].
    - rewrite Hagree; [done | by rewrite Hiq].
    - rewrite (stackNum_at_lookup m1 h i1) in Heq by done.
      rewrite (stackNum_at_lookup m1 q iq) in Heq; [done |].
      rewrite Hagree; [done | by rewrite Hiq]. }
  assert (Hold1 : forall h' i, m0 !! h' = Some i ->
            exists i', m1 !! h' = Some i' /\ stackNum i' = stackNum i).
  { intros h' i Hi. destruct (Hold h' i Hi) as (i' & Hi' & Hn).
    exists i'. split; [| done]. rewrite Hagree; [done | by rewrite Hi']. }
  assert (Halter : forall f,
            (forall i, stackNum (f i) = stackNum i) ->
            forall h' i, m0 !! h' = Some i ->
              exists i', alter f h m1 !! h' = Some i' /\ stackNum i' = stackNum i).
  { intros f Hf h' i Hi. destruct (Hold1 h' i Hi) as (i' & Hi' & Hn).
    destruct (decide (h = h')) as [<- | Hne].
    - exists (f i'). rewrite lookup_alter_eq, Hi'. split; [done |]. by rewrite Hf.
    - exists i'. by rewrite lookup_alter_ne. }
  assert (Hseen_ne : forall h', h' <> h -> h' ∈ StackHash <$> seen ->
            exists i, live_map acc !! h' = Some i /\
                      activeBytes i = uint64 (bytes_of h' (seen ++ [sample]))).
  { intros h' Hne Hin. destruct (Hbytes h' Hin) as (i & Hi & Hb).
    exists i. split; [done |]. rewrite bytes_of_app.
    fold h. destruct (decide (h = h')); [congruence |]. by rewrite Z.add_0_r. }
  destruct (set_find m1 h (activeStacks acc)) eqn:Hf.
  - (* the stack is active already *)
    assert (Hin : h ∈ StackHash <$> seen) by by apply Hfind.
    unfold live_inv. simpl.
    split; [by apply numbered_alter |].
    split; [apply (set_ordered_ext m1); [| done]; intros; by apply stackNum_at_alter |].
    split; [intros h'; rewrite hashes_app, Hact; fold h; split;
            [tauto | intros [-> | ?]; done] |].
    split; [intros h'; rewrite hashes_app, Hinfos; fold h; split;
            [tauto | intros [-> | ?]; done] |].
    split; [done |].
    split; [| split; [| split; [by apply Halter | split]]].
    + intros h' [-> | Hin']%hashes_app.
      * destruct (Hbytes h Hin) as (i & Hi & Hb).
        rewrite Hagree in Hh1 by by rewrite Hi. rewrite Hi in Hh1. injection Hh1 as <-.
        exists (set_activeBytes (uint64 (activeBytes i + sum sample)) i).
        rewrite lookup_alter_eq. rewrite Hagree by by rewrite Hi. rewrite Hi.
        split; [done |]. simpl. rewrite Hb, uint64_add_l, bytes_of_app.
        fold h. by destruct (decide (h = h)).
      * destruct (decide (h' = h)) as [-> | Hne].
        -- destruct (Hbytes h Hin) as (i & Hi & Hb).
           exists (set_activeBytes (uint64 (activeBytes i + sum sample)) i).
           rewrite lookup_alter_eq. rewrite Hagree by by rewrite Hi. rewrite Hi.
           split; [done |]. simpl. rewrite Hb, uint64_add_l, bytes_of_app.
           fold h. by destruct (decide (h = h)).
        -- destruct (Hseen_ne h' Hne Hin') as (i & Hi & Hb). exists i.
           rewrite lookup_alter_ne by done. rewrite Hne1 by done. done.
    + intros h' Hnot. rewrite hashes_app in Hnot.
      assert (h' <> h) by (intros ->; apply Hnot; by left).
      rewrite lookup_alter_ne by done. rewrite Hne1 by done. apply Hrest. tauto.
    + by rewrite Htot, int64_add_l, total_bytes_app.
    + rewrite size_alter_map, length_app. simpl.
      destruct (Hbytes h Hin) as (i & Hi & _).
      assert (m1 = live_map acc) as ->; [| lia].
      apply map_eq. intros q. destruct (decide (q = h)) as [-> | Hne];
        [apply Hagree; by rewrite Hi | by apply Hne1].
  - (* the first sample of this stack in the snapshot *)
    assert (Hnotin : h ∉ StackHash <$> seen).
    { intros Hin. apply Hfind in Hin. congruence. }
    unfold live_inv. simpl.
    split; [by apply numbered_alter |].
    split; [apply (set_ordered_ext m1); [intros; by apply stackNum_at_alter |];
            by apply set_insert_ordered |].
    split.
    { intros h'. rewrite hashes_app. fold h. split.
      - intros [-> | Hin]%set_insert_elem; [by left | right; by apply Hact].
      - intros [-> | Hin]; [| apply set_insert_keeps; by apply Hact].
        destruct (set_insert_has m1 h (activeStacks acc)) as [Hin | (q & Hq & Heq)];
          [done |].
        exfalso. apply Hnotin. apply Hact in Hq.
        destruct (Hbytes q Hq) as (iq & Hiq & _).
        destruct Hnum1 as [_ Hinj].
        assert (q = h) as <-; [| done].
        apply (Hinj q h iq i1); [rewrite Hagree; [done | by rewrite Hiq] | done |].
        rewrite (stackNum_at_lookup m1 h i1) in Heq by done.
        rewrite (stackNum_at_lookup m1 q iq) in Heq; [done |].
        rewrite Hagree; [done | by rewrite Hiq]. }
    split; [intros h'; rewrite hashes_app, elem_of_app, list_elem_of_singleton, Hinfos;
            fold h; tauto |].
    split; [apply NoDup_app; split; [done |]; split;
            [intros q Hq ->%list_elem_of_singleton; by apply Hnotin, Hinfos
            | apply NoDup_singleton] |].
    split; [| split; [| split; [by apply Halter | split]]].
    + intros h' [-> | Hin']%hashes_app.
      * exists (set_activeBytes (uint64 (sum sample)) i1).
        rewrite lookup_alter_eq, Hh1. split; [done |]. simpl.
        rewrite bytes_of_app, bytes_of_absent by done. fold h.
        by destruct (decide (h = h)).
      * assert (h' <> h) as Hne by (intros ->; done).
        destruct (Hseen_ne h' Hne Hin') as (i & Hi & Hb). exists i.
        rewrite lookup_alter_ne by done. rewrite Hne1 by done. done.
    + intros h' Hnot. rewrite hashes_app in Hnot.
      assert (h' <> h) by (intros ->; apply Hnot; by left).
      rewrite lookup_alter_ne by done. rewrite Hne1 by done. apply Hrest. tauto.
    + by rewrite Htot, int64_add_l, total_bytes_app.
    + rewrite size_alter_map, length_app. simpl. lia.
Qed.

Lemma live_snapshot_inv m0 heapProfile :
  numbered m0 ->
  (Z.of_nat (size m0) + Z.of_nat (length heapProfile) < 2 ^ 31)%Z ->
  live_inv m0 heapProfile (live_snapshot m0 heapProfile).
Proof.
  intros Hnum Hbound. unfold live_snapshot.
  assert (Hgen : forall rest seen acc,
    live_inv m0 seen acc ->
    (Z.of_nat (size m0) + Z.of_nat (length seen) + Z.of_nat (length rest) < 2 ^ 31)%Z ->
    live_inv m0 (seen ++ rest) (foldl live_sample acc rest)).
  { induction rest as [| sample rest IH]; intros seen acc Hinv Hb; simpl.
    - by rewrite app_nil_r.
    - replace (seen ++ sample :: rest) with ((seen ++ [sample]) ++ rest)
        by (by rewrite <- app_assoc).
      simpl in Hb. apply IH.
      + apply live_sample_inv; [done |].
        destruct Hinv as (_ & _ & _ & _ & _ & _ & _ & _ & _ & Hsize). lia.
      + rewrite length_app. simpl. lia. }
  apply (Hgen heapProfile [] _ (live_inv_start m0 Hnum)). simpl. lia.
Qed.

(** The map a call leaves is the one its walk over the snapshot built. *)
Lemma generate_map heapProfile allocProfile hp :
  stackInfoMap (_generateServerStatusSection heapProfile allocProfile hp).1.1
  = live_map (live_snapshot (stackInfoMap hp) heapProfile).
Proof.
  unfold _generateServerStatusSection.
  by destruct (kMaxImportantSamples <=? numImportantSamples hp + 1)%Z.
Qed.

Lemma generate_section heapProfile allocProfile hp :
  let live := live_snapshot (stackInfoMap hp) heapProfile in
  let m := live_map live in
  (_generateServerStatusSection heapProfile allocProfile hp).1.2
  = mkSection (totalActiveBytes live)
      (int64 (uint64 (sampleBytesAllocated hp
                      + foldl (fun a sample => int64 (a + sum sample)) 0%Z allocProfile)))
      (int64 (Z.of_nat (size m)))
      (stack_entry m <$>
         mark_important m (threshold_of (totalActiveBytes live)) 0
           (stable_sort m (stackInfos live)) (importantStacks hp)).
Proof.
  unfold _generateServerStatusSection.
  by destruct (kMaxImportantSamples <=? numImportantSamples hp + 1)%Z.
Qed.

Lemma mark_important_keeps m threshold cumulative sorted important q :
  q ∈ important -> q ∈ mark_important m threshold cumulative sorted important.
Proof.
  revert cumulative important. induction sorted as [| p rest IH];
    intros cumulative important Hq; simpl; [done |].
  destruct (threshold <? _)%Z; [by apply set_insert_keeps |].
  apply IH. by apply set_insert_keeps.
Qed.

Lemma mark_important_elem m threshold cumulative sorted important q :
  q ∈ mark_important m threshold cumulative sorted important ->
  q ∈ important \/ q ∈ sorted.
Proof.
  revert cumulative important. induction sorted as [| p rest IH];
    intros cumulative important; simpl; [by left |].
  destruct (threshold <? _)%Z.
  - intros [-> | Hq]%set_insert_elem; [right; by left | by left].
  - intros [[-> | Hq]%set_insert_elem | Hq]%IH;
      [right; by left | by left | right; by right].
Qed.

Lemma mark_important_ordered m threshold cumulative sorted important :
  set_ordered m important ->
  set_ordered m (mark_important m threshold cumulative sorted important).
Proof.
  revert cumulative important. induction sorted as [| p rest IH];
    intros cumulative important Hord; simpl; [done |].
  destruct (threshold <? _)%Z; [by apply set_insert_ordered |].
  apply IH. by apply set_insert_ordered.
Qed.

Lemma sort_insert_elem m p q l : q ∈ sort_insert m p l <-> q = p \/ q ∈ l.
Proof.
  induction l as [| r l IH]; simpl.
  - rewrite list_elem_of_singleton. split; [by left |]. intros [? | Hin]; [done |].
    inversion Hin.
  - destruct (activeBytes_at m p <? activeBytes_at m r)%Z.
    + rewrite !elem_of_cons, IH. tauto.
    + rewrite !elem_of_cons. tauto.
Qed.

Lemma stable_sort_elem m q l : q ∈ stable_sort m l <-> q ∈ l.
Proof.
  unfold stable_sort. induction l as [| p l IH]; simpl; [done |].
  rewrite sort_insert_elem, elem_of_cons, IH. tauto.
Qed.

(** A call keeps the profiler well formed, and keeps every stack's number. *)
Lemma generate_wf heapProfile allocProfile hp :
  profiler_wf hp ->
  (Z.of_nat (size (stackInfoMap hp)) + Z.of_nat (length heapProfile) < 2 ^ 31)%Z ->
  let hp' := (_generateServerStatusSection heapProfile allocProfile hp).1.1 in
  profiler_wf hp' /\
  (forall h i, stackInfoMap hp !! h = Some i ->
     exists i', stackInfoMap hp' !! h = Some i' /\ stackNum i' = stackNum i) /\
  (size (stackInfoMap hp') <= size (stackInfoMap hp) + length heapProfile)%nat.
Proof.
  intros (Hnum & Hord & Hknown & Hcount) Hbound.
  pose proof (live_snapshot_inv (stackInfoMap hp) heapProfile Hnum Hbound)
    as (Hnum' & _ & _ & Hinfos & _ & Hbytes & _ & Hold & _ & Hsize).
  cbv zeta. rewrite generate_map.
  split; [| split; [done | lia]].
  set (live := live_snapshot (stackInfoMap hp) heapProfile) in *.
  assert (Hnums : forall q, q ∈ importantStacks hp ->
            stackNum_at (live_map live) q = stackNum_at (stackInfoMap hp) q).
  { intros q Hq. destruct (Hknown q Hq) as [i Hi].
    destruct (Hold q i Hi) as (i' & Hi' & Hn).
    by rewrite (stackNum_at_lookup _ q i'), (stackNum_at_lookup _ q i). }
  assert (Hord' : set_ordered (live_map live) (importantStacks hp))
    by by apply (set_ordered_ext (stackInfoMap hp)).
  unfold profiler_wf, _generateServerStatusSection. fold live.
  unfold kMaxImportantSamples in *.
  destruct (4 * 3600 <=? numImportantSamples hp + 1)%Z eqn:E; simpl.
  - split; [done |]. split; [constructor |]. split; [| lia].
    intros p Hp. inversion Hp.
  - apply Z.leb_gt in E. split; [done |].
    split; [by apply mark_important_ordered |]. split; [| lia].
    intros p [Hp | Hp]%mark_important_elem.
    + destruct (Hknown p Hp) as [i Hi]. destruct (Hold p i Hi) as (i' & Hi' & _).
      by rewrite Hi'.
    + apply stable_sort_elem, Hinfos, Hbytes in Hp as (i & Hi & _). by rewrite Hi.
Qed.

Lemma HeapProfiler_new_wf : profiler_wf HeapProfiler_new.
Proof.
  unfold profiler_wf, HeapProfiler_new, numbered, kMaxImportantSamples. simpl.
  split; [split; intros *; rewrite lookup_empty; discriminate |].
  split; [constructor |]. split; [intros p Hp; inversion Hp | lia].
Qed.

Lemma after_calls_snoc calls c hp :
  after_calls (calls ++ [c]) hp
  = (_generateServerStatusSection c.1 c.2 (after_calls calls hp)).1.1.
Proof. unfold after_calls. by rewrite foldl_app. Qed.

Lemma snapshot_samples_snoc calls c :
  snapshot_samples (calls ++ [c]) = (snapshot_samples calls + length c.1)%nat.
Proof.
  unfold snapshot_samples. induction calls as [| c0 calls IH]; simpl; [lia |].
  rewrite IH. lia.
Qed.

Lemma after_calls_wf calls :
  (Z.of_nat (snapshot_samples calls) < 2 ^ 31)%Z ->
  profiler_wf (after_calls calls HeapProfiler_new) /\
  (size (stackInfoMap (after_calls calls HeapProfiler_new))
   <= snapshot_samples calls)%nat.
Proof.
  induction calls as [| c calls IH] using rev_ind; intros Hbound.
  - split; [apply HeapProfiler_new_wf | done].
  - rewrite snapshot_samples_snoc in Hbound. rewrite after_calls_snoc.
    destruct IH as [Hwf Hsize]; [lia |].
    destruct (generate_wf c.1 c.2 (after_calls calls HeapProfiler_new) Hwf)
      as (Hwf' & _ & Hsize'); [lia |].
    split; [done |]. rewrite snapshot_samples_snoc. lia.
Qed.

Lemma int64_uint64 z : int64 (uint64 z) = int64 z.
Proof.
  unfold int64, uint64. f_equal.
  rewrite Zplus_mod_idemp_l. done.
Qed.

Lemma uint64_int64_add a b : uint64 (a + int64 b) = uint64 (a + b).
Proof.
  unfold int64, uint64.
  replace (a + ((b + 2 ^ 63) mod 2 ^ 64 - 2 ^ 63))%Z
    with ((b + 2 ^ 63) mod 2 ^ 64 + (a - 2 ^ 63))%Z by lia.
  rewrite Zplus_mod_idemp_l. f_equal. lia.
Qed.

Lemma int64_small z : (- 2 ^ 63 <= z < 2 ^ 63)%Z -> int64 z = z.
Proof. intros Hz. unfold int64. rewrite Z.mod_small; lia. Qed.

Lemma allocated_bytes_total (allocProfile : list Sample) :
  foldl (fun a sample => int64 (a + sum sample)) 0%Z allocProfile
  = int64 (total_bytes allocProfile).
Proof.
  assert (Hgen : forall l a,
    foldl (fun a sample => int64 (a + sum sample)) (int64 a) l
    = int64 (a + total_bytes l)).
  { induction l as [| x l IH]; intros a; simpl.
    - by rewrite Z.add_0_r.
    - rewrite int64_add_l, IH. f_equal. unfold total_bytes. simpl. lia. }
  apply (Hgen allocProfile 0%Z).
Qed.

(** X12.  Stack numbers tell stacks apart.  Over any sequence of
    serverStatus calls on a new profiler (with fewer than 2^31 samples in
    all), every stack the profiler knows has a number between 1 and the
    number of stacks known, no two stacks have the same number, and a
    stack keeps the number it got when it was first seen. *)
Theorem stack_numbers_tell_stacks_apart calls c :
  (Z.of_nat (snapshot_samples (calls ++ [c])) < 2 ^ 31)%Z ->
  let hp := after_calls calls HeapProfiler_new in
  let hp' := after_calls (calls ++ [c]) HeapProfiler_new in
  (forall h i, stackInfoMap hp' !! h = Some i ->
     (1 <= stackNum i <= Z.of_nat (size (stackInfoMap hp')))%Z) /\
  (forall h1 h2 i1 i2,
     stackInfoMap hp' !! h1 = Some i1 -> stackInfoMap hp' !! h2 = Some i2 ->
     stackNum i1 = stackNum i2 -> h1 = h2) /\
  (forall h i, stackInfoMap hp !! h = Some i ->
     exists i', stackInfoMap hp' !! h = Some i' /\ stackNum i' = stackNum i).
Proof.
  intros Hbound hp hp'.
  pose proof Hbound as Hbound'. rewrite snapshot_samples_snoc in Hbound'.
  destruct (after_calls_wf calls) as [Hwf Hsize]; [lia |].
  destruct (after_calls_wf (calls ++ [c]) Hbound) as [((Hb & Hinj) & _) _].
  split; [exact Hb |]. split; [exact Hinj |].
  unfold hp'. rewrite after_calls_snoc.
  destruct (generate_wf c.1 c.2 (after_calls calls HeapProfiler_new) Hwf)
    as (_ & Hkeep & _); [lia | exact Hkeep].
Qed.

(** X13.  What a section reports.  For a well-formed profiler:
    totalActiveBytes is the sum of the snapshot's samples, bytesAllocated
    the running sum of the allocation profiles; the bytes kept for each
    stack of the snapshot are the sum of its samples, however they are
    interleaved with those of other stacks; numStacks is the number of
    stacks known. *)
Theorem section_sums_per_stack heapProfile allocProfile hp :
  profiler_wf hp ->
  (Z.of_nat (size (stackInfoMap hp)) + Z.of_nat (length heapProfile) < 2 ^ 31)%Z ->
  let r := _generateServerStatusSection heapProfile allocProfile hp in
  stats_totalActiveBytes r.1.2 = int64 (total_bytes heapProfile) /\
  stats_bytesAllocated r.1.2
    = int64 (sampleBytesAllocated hp + total_bytes allocProfile) /\
  sampleBytesAllocated r.1.1
    = uint64 (sampleBytesAllocated hp + total_bytes allocProfile) /\
  (forall h, h ∈ StackHash <$> heapProfile ->
     activeBytes_at (stackInfoMap r.1.1) h = uint64 (bytes_of h heapProfile)) /\
  stats_numStacks r.1.2 = Z.of_nat (size (stackInfoMap r.1.1)).
Proof.
  intros (Hnum & _) Hbound r.
  pose proof (live_snapshot_inv (stackInfoMap hp) heapProfile Hnum Hbound)
    as (_ & _ & _ & _ & _ & Hbytes & _ & _ & Htot & Hsize).
  unfold r. rewrite generate_section, generate_map. cbv zeta. simpl.
  split; [done |].
  split; [by rewrite int64_uint64, allocated_bytes_total, <- (int64_uint64 (_ + int64 _)),
            uint64_int64_add, int64_uint64 |].
  split.
  { unfold _generateServerStatusSection.
    destruct (kMaxImportantSamples <=? numImportantSamples hp + 1)%Z; simpl;
      by rewrite allocated_bytes_total, uint64_int64_add. }
  split.
  - intros h Hh. destruct (Hbytes h Hh) as (i & Hi & Hb).
    unfold activeBytes_at. by rewrite Hi.
  - apply int64_small. lia.
Qed.

(** X14.  A stack that the snapshot does not contain keeps the bytes of the
    last snapshot that did: its record is untouched, and when it is one of
    the important stacks the section reports it again under its name with
    those old bytes. *)
Theorem absent_stack_keeps_its_bytes heapProfile allocProfile hp h :
  profiler_wf hp ->
  (Z.of_nat (size (stackInfoMap hp)) + Z.of_nat (length heapProfile) < 2 ^ 31)%Z ->
  h ∉ StackHash <$> heapProfile ->
  let r := _generateServerStatusSection heapProfile allocProfile hp in
  stackInfoMap r.1.1 !! h = stackInfoMap hp !! h /\
  (h ∈ importantStacks hp -> stack_entry (stackInfoMap hp) h ∈ stacks r.1.2).
Proof.
  intros (Hnum & _) Hbound Hnot r.
  pose proof (live_snapshot_inv (stackInfoMap hp) heapProfile Hnum Hbound)
    as (_ & _ & _ & _ & _ & _ & Hrest & _).
  unfold r. rewrite generate_section, generate_map. cbv zeta. simpl.
  split; [by apply Hrest |].
  intros Himp. apply list_elem_of_fmap. exists h. split.
  - unfold stack_entry, stackNum_at, activeBytes_at. by rewrite Hrest.
  - by apply mark_important_keeps.
Qed.

Lemma sort_insert_sorted m p l :
  StronglySorted (fun a b => (activeBytes_at m b <= activeBytes_at m a)%Z) l ->
  StronglySorted (fun a b => (activeBytes_at m b <= activeBytes_at m a)%Z)
                 (sort_insert m p l).
Proof.
  induction l as [| q l IH]; intros Hs; simpl.
  - constructor; [constructor | constructor].
  - pose proof Hs as Hs'. apply StronglySorted_inv in Hs' as [Hl Hall].
    destruct (activeBytes_at m p <? activeBytes_at m q)%Z eqn:E;
      [apply Z.ltb_lt in E | apply Z.ltb_ge in E].
    + constructor; [by apply IH |]. apply Forall_forall.
      intros r [-> | Hr]%sort_insert_elem; [lia |].
      rewrite Forall_forall in Hall. by apply Hall.
    + constructor; [done |]. constructor; [done |].
      eapply Forall_impl; [exact Hall |]. simpl. intros r Hr. lia.
Qed.

Lemma stable_sort_sorted m l :
  StronglySorted (fun a b => (activeBytes_at m b <= activeBytes_at m a)%Z)
                 (stable_sort m l).
Proof.
  unfold stable_sort. induction l as [| p l IH]; simpl; [constructor |].
  by apply sort_insert_sorted.
Qed.

Lemma sort_insert_perm m p l : sort_insert m p l ≡ₚ p :: l.
Proof.
  induction l as [| q l IH]; simpl; [done |].
  destruct (activeBytes_at m p <? activeBytes_at m q)%Z; [| done].
  rewrite IH. apply perm_swap.
Qed.

Lemma stable_sort_perm m l : stable_sort m l ≡ₚ l.
Proof.
  unfold stable_sort. induction l as [| p l IH]; simpl; [done |].
  by rewrite sort_insert_perm, IH.
Qed.

(** The loop marks a stack when no shorter run of the sorted stacks has
    passed the threshold before it, and only then. *)
Lemma mark_important_marks m threshold cumulative sorted important i q :
  sorted !! i = Some q ->
  (forall j, (1 <= j <= i)%nat ->
     (cumulative_bytes m cumulative (take j sorted) <= threshold)%Z) ->
  q ∈ mark_important m threshold cumulative sorted important \/
  exists r, r ∈ mark_important m threshold cumulative sorted important /\
            stackNum_at m r = stackNum_at m q.
Proof.
  revert cumulative important i.
  induction sorted as [| p rest IH]; intros cumulative important i Hi Hcum;
    [done |].
  simpl. destruct i as [| i].
  - injection Hi as ->.
    assert (forall s, (forall x, x ∈ set_insert m q important -> x ∈ s) ->
              q ∈ s \/ exists r, r ∈ s /\ stackNum_at m r = stackNum_at m q) as Hup.
    { intros s Hs.
      destruct (set_insert_has m q important) as [Hin | (r & Hr & Hn)];
        [left; by apply Hs |].
      right. exists r. split; [| done]. by apply Hs, set_insert_keeps. }
    destruct (threshold <? _)%Z; [by apply Hup |].
    apply Hup. intros x Hx. by apply mark_important_keeps.
  - simpl in Hi.
    assert ((threshold <? uint64 (cumulative + activeBytes_at m p))%Z = false) as ->.
    { apply Z.ltb_ge. apply (Hcum 1%nat). lia. }
    apply (IH _ _ i Hi). intros j Hj. apply (Hcum (S j)). lia.
Qed.

Lemma mark_important_only m threshold cumulative sorted important q :
  q ∈ mark_important m threshold cumulative sorted important ->
  q ∈ important \/
  exists i, sorted !! i = Some q /\
    forall j, (1 <= j <= i)%nat ->
      (cumulative_bytes m cumulative (take j sorted) <= threshold)%Z.
Proof.
  revert cumulative important.
  induction sorted as [| p rest IH]; intros cumulative important; simpl; [by left |].
  assert (Hfirst : q ∈ set_insert m p important ->
    q ∈ important \/
    exists i, (p :: rest) !! i = Some q /\
      forall j, (1 <= j <= i)%nat ->
        (cumulative_bytes m cumulative (take j (p :: rest)) <= threshold)%Z).
  { intros [-> | Hq]%set_insert_elem; [| by left].
    right. exists 0%nat. split; [done |]. intros j Hj. lia. }
  destruct (threshold <? uint64 (cumulative + activeBytes_at m p))%Z eqn:E;
    [exact Hfirst |].
  apply Z.ltb_ge in E.
  intros [Hq | (i & Hi & Hcum)]%IH; [by apply Hfirst |].
  right. exists (S i). split; [done |].
  intros [| j] Hj; [lia |]. simpl. destruct j as [| j]; [done |].
  apply (Hcum (S j)). lia.
Qed.

(** X15.  Which stacks a call marks.  The stacks of the snapshot are taken
    heaviest first (each once, in the order [std::stable_sort] leaves them)
    and marked important one after the other until the bytes summed so far
    pass the threshold: a stack is marked when no shorter run of the
    sorted stacks has passed the threshold before it, and a stack that was
    not important before is marked only then.  The section reports exactly
    the marked stacks together with those that were important already. *)
Theorem marking_takes_the_heaviest_first heapProfile allocProfile hp :
  profiler_wf hp ->
  (Z.of_nat (size (stackInfoMap hp)) + Z.of_nat (length heapProfile) < 2 ^ 31)%Z ->
  let live := live_snapshot (stackInfoMap hp) heapProfile in
  let m := live_map live in
  let sorted := stable_sort m (stackInfos live) in
  let threshold := threshold_of (totalActiveBytes live) in
  exists marked,
    stacks (_generateServerStatusSection heapProfile allocProfile hp).1.2
      = stack_entry m <$> marked /\
    (forall q, q ∈ sorted <-> q ∈ StackHash <$> heapProfile) /\
    NoDup sorted /\
    StronglySorted (fun a b => (activeBytes_at m b <= activeBytes_at m a)%Z) sorted /\
    (forall i q, sorted !! i = Some q ->
       (forall j, (1 <= j <= i)%nat ->
          (cumulative_bytes m 0 (take j sorted) <= threshold)%Z) ->
       q ∈ marked) /\
    (forall q, q ∈ marked ->
       q ∈ importantStacks hp \/
       exists i, sorted !! i = Some q /\
         forall j, (1 <= j <= i)%nat ->
           (cumulative_bytes m 0 (take j sorted) <= threshold)%Z).
Proof.
  intros (Hnum & Hord & Hknown & _) Hbound live m sorted threshold.
  pose proof (live_snapshot_inv (stackInfoMap hp) heapProfile Hnum Hbound)
    as ((_ & Hinj) & _ & _ & Hinfos & Hnd & Hbytes & _ & Hold & _).
  fold live in Hinj, Hinfos, Hnd, Hbytes, Hold. fold m in Hinj, Hbytes, Hold.
  exists (mark_important m threshold 0 sorted (importantStacks hp)).
  split; [by rewrite generate_section |].
  split; [intros q; unfold sorted; by rewrite stable_sort_elem |].
  split; [unfold sorted; by rewrite stable_sort_perm |].
  split; [apply stable_sort_sorted |].
  split; [| apply mark_important_only].
  intros i q Hi Hcum.
  destruct (mark_important_marks m threshold 0 sorted (importantStacks hp) i q Hi Hcum)
    as [Hq | (r & Hr & Hn)]; [done |].
  assert (Hin : forall x, x ∈ mark_important m threshold 0 sorted (importantStacks hp)
                          \/ x ∈ sorted -> is_Some (m !! x)).
  { intros x [[Hx | Hx]%mark_important_elem | Hx].
    - destruct (Hknown x Hx) as [ix Hix]. destruct (Hold x ix Hix) as (i' & Hi' & _).
      by rewrite Hi'.
    - apply stable_sort_elem, Hinfos, Hbytes in Hx as (ix & Hix & _). by rewrite Hix.
    - apply stable_sort_elem, Hinfos, Hbytes in Hx as (ix & Hix & _). by rewrite Hix. }
  destruct (Hin r (or_introl Hr)) as [ir Hir].
  destruct (Hin q (or_intror (list_elem_of_lookup_2 _ _ _ Hi))) as [iq Hiq].
  rewrite (stackNum_at_lookup m r ir), (stackNum_at_lookup m q iq) in Hn by done.
  by rewrite <- (Hinj r q ir iq Hir Hiq Hn).
Qed.

(** X16.  Importance is sticky, and the report is in number order.  A
    stack that was important before a call is reported by it again, and
    stays important after it unless this was the call that clears the set;
    the stacks of the section come in strictly increasing stack number. *)
Theorem important_stacks_stay_reported heapProfile allocProfile hp :
  profiler_wf hp ->
  (Z.of_nat (size (stackInfoMap hp)) + Z.of_nat (length heapProfile) < 2 ^ 31)%Z ->
  let r := _generateServerStatusSection heapProfile allocProfile hp in
  let m := stackInfoMap r.1.1 in
  exists marked,
    stacks r.1.2 = stack_entry m <$> marked /\
    (forall p, p ∈ importantStacks hp -> p ∈ marked) /\
    StronglySorted (fun a b => (a < b)%Z) (stackNum_at m <$> marked) /\
    ((numImportantSamples hp + 1 < kMaxImportantSamples)%Z ->
     importantStacks r.1.1 = marked) /\
    ((numImportantSamples hp + 1 >= kMaxImportantSamples)%Z ->
     importantStacks r.1.1 = []).
Proof.
  intros (Hnum & Hord & Hknown & _) Hbound r m.
  pose proof (live_snapshot_inv (stackInfoMap hp) heapProfile Hnum Hbound)
    as (_ & _ & _ & _ & _ & _ & _ & Hold & _).
  unfold m, r. rewrite generate_map, generate_section. cbv zeta.
  set (live := live_snapshot (stackInfoMap hp) heapProfile) in *.
  eexists. split; [done |].
  split; [intros p Hp; by apply mark_important_keeps |].
  split.
  - apply mark_important_ordered. apply (set_ordered_ext (stackInfoMap hp)); [| done].
    intros q Hq. destruct (Hknown q Hq) as [i Hi].
    destruct (Hold q i Hi) as (i' & Hi' & Hn).
    by rewrite (stackNum_at_lookup _ q i'), (stackNum_at_lookup _ q i).
  - unfold _generateServerStatusSection. fold live. split; intros Hn.
    + assert ((kMaxImportantSamples <=? numImportantSamples hp + 1)%Z = false) as ->
        by (apply Z.leb_gt; lia). done.
    + assert ((kMaxImportantSamples <=? numImportantSamples hp + 1)%Z = true) as ->
        by (apply Z.leb_le; lia). done.
Qed.

Lemma generate_count heapProfile allocProfile hp :
  let hp' := (_generateServerStatusSection heapProfile allocProfile hp).1.1 in
  numImportantSamples hp'
  = (if (kMaxImportantSamples <=? numImportantSamples hp + 1)%Z then 0
     else numImportantSamples hp + 1)%Z /\
  ((kMaxImportantSamples <=? numImportantSamples hp + 1)%Z = true ->
   importantStacks hp' = []) /\
  logGeneralStats hp' = false.
Proof.
  unfold _generateServerStatusSection.
  by destruct (kMaxImportantSamples <=? numImportantSamples hp + 1)%Z.
Qed.

(** X17.  The important stacks are forgotten every 14400 calls.  After any
    number of serverStatus calls on a new profiler the count of samples is
    that number modulo 14400; after each 14400th call the set of important
    stacks is empty; and the once-only log lines are not due any more. *)
Theorem important_stacks_are_cleared_periodically calls :
  let hp := after_calls calls HeapProfiler_new in
  numImportantSamples hp = (Z.of_nat (length calls) mod 14400)%Z /\
  (calls <> [] -> (Z.of_nat (length calls) mod 14400 = 0)%Z ->
   importantStacks hp = []) /\
  (calls <> [] -> logGeneralStats hp = false).
Proof.
  induction calls as [| c calls IH] using rev_ind; [done |].
  cbv zeta in *. destruct IH as (Hn & _ & _).
  rewrite after_calls_snoc.
  destruct (generate_count c.1 c.2 (after_calls calls HeapProfiler_new))
    as (Hcount & Hclear & Hlog).
  cbv zeta in Hcount, Hclear, Hlog. rewrite Hn in Hcount, Hclear.
  unfold kMaxImportantSamples in *.
  rewrite length_app, Nat2Z.inj_add. change (Z.of_nat (length [c])) with 1%Z.
  pose proof (Z.mod_pos_bound (Z.of_nat (length calls)) 14400 ltac:(lia)) as Hr.
  pose proof (Z.div_mod (Z.of_nat (length calls)) 14400 ltac:(lia)) as Hdm.
  set (len := Z.of_nat (length calls)) in *.
  set (rm := (len mod 14400)%Z) in *.
  assert (Hnext : ((len + 1) mod 14400
                   = if (4 * 3600 <=? rm + 1) then 0 else rm + 1)%Z).
  { destruct (4 * 3600 <=? rm + 1)%Z eqn:E;
      [apply Z.leb_le in E | apply Z.leb_gt in E].
    - symmetry. apply (Z.mod_unique _ _ (len / 14400 + 1)); lia.
    - symmetry. apply (Z.mod_unique _ _ (len / 14400)); lia. }
  split; [by rewrite Hcount, Hnext |]. split; [| done].
  intros _ Hzero. apply Hclear. rewrite Hnext in Hzero.
  destruct (4 * 3600 <=? rm + 1)%Z; [done | lia].
Qed.

End with_platform.

(** The worked profile: the profiler after a first call on [example_heap]. *)
Lemma example_first_call_wf :
  profiler_wf
    (@_generateServerStatusSection example_platform example_heap example_alloc
       (@HeapProfiler_new example_platform)).1.1.
Proof.
  apply (@generate_wf example_platform example_heap example_alloc
           (@HeapProfiler_new example_platform)).
  - apply HeapProfiler_new_wf.
  - vm_compute. reflexivity.
Qed.

Lemma stack_numbers_tell_stacks_apart_witness :
  exists i',
    stackInfoMap (@after_calls example_platform
      [(example_heap, example_alloc); (example_heap_later, [])]
      (@HeapProfiler_new example_platform)) !! 10%N = Some i' /\
    stackNum i' = 1%Z.
Proof.
  destruct (@stack_numbers_tell_stacks_apart example_platform
              [(example_heap, example_alloc)] (example_heap_later, []))
    as (_ & _ & Hkeeps).
  - vm_compute. reflexivity.
  - cbv zeta in Hkeeps.
    assert (exists i,
              stackInfoMap (@after_calls example_platform
                [(example_heap, example_alloc)]
                (@HeapProfiler_new example_platform)) !! 10%N = Some i /\
              stackNum i = 1%Z) as (i & Hi & Hnum).
    { eexists. split; [vm_compute; reflexivity | reflexivity]. }
    destruct (Hkeeps 10%N i Hi) as (i' & Hi' & Hnum').
    exists i'. split; [exact Hi' | congruence].
Defined.

Lemma section_sums_per_stack_witness :
  let r := @_generateServerStatusSection example_platform example_heap example_alloc
             (@HeapProfiler_new example_platform) in
  stats_totalActiveBytes r.1.2 = 10000%Z /\
  stats_bytesAllocated r.1.2 = 4608%Z /\
  @activeBytes_at (stackInfoMap r.1.1) 10 = 90%Z.
Proof.
  destruct (@section_sums_per_stack example_platform example_heap example_alloc
              (@HeapProfiler_new example_platform))
    as (Htotal & Halloc & _ & Hstack & _).
  - apply HeapProfiler_new_wf.
  - vm_compute. reflexivity.
  - cbv zeta in *. split; [rewrite Htotal; vm_compute; reflexivity |].
    split; [rewrite Halloc; vm_compute; reflexivity |].
    rewrite (Hstack 10%N); [vm_compute; reflexivity |].
    apply list_elem_of_fmap. exists (mkSample [10%N; 11%N] 2 70).
    split; [reflexivity | by left].
Defined.

Lemma absent_stack_keeps_its_bytes_witness :
  let hp := (@_generateServerStatusSection example_platform example_heap example_alloc
               (@HeapProfiler_new example_platform)).1.1 in
  let r := @_generateServerStatusSection example_platform example_heap_later [] hp in
  ("stack2", 9900%Z) ∈ stacks r.1.2 /\ stats_totalActiveBytes r.1.2 = 5000%Z.
Proof.
  cbv zeta.
  destruct (@absent_stack_keeps_its_bytes example_platform example_heap_later []
              (@_generateServerStatusSection example_platform example_heap
                 example_alloc (@HeapProfiler_new example_platform)).1.1 20%N)
    as (_ & Hreported).
  - apply example_first_call_wf.
  - vm_compute. reflexivity.
  - intros Hin. apply list_elem_of_fmap in Hin as (x & Hx & Hin).
    apply list_elem_of_singleton in Hin as ->. vm_compute in Hx. discriminate.
  - cbv zeta in Hreported. split; [| vm_compute; reflexivity].
    assert (@stack_entry
              (stackInfoMap (@_generateServerStatusSection example_platform
                 example_heap example_alloc (@HeapProfiler_new example_platform)).1.1)
              20 = ("stack2", 9900%Z)) as <- by (vm_compute; reflexivity).
    apply Hreported.
    assert (importantStacks (@_generateServerStatusSection example_platform
              example_heap example_alloc (@HeapProfiler_new example_platform)).1.1
            = [10%N; 20%N]) as -> by (vm_compute; reflexivity).
    right. by left.
Defined.

Lemma marking_takes_the_heaviest_first_witness :
  exists marked,
    stacks (@_generateServerStatusSection example_platform example_heap example_alloc
              (@HeapProfiler_new example_platform)).1.2
      = @stack_entry
          (live_map (@live_snapshot example_platform ∅ example_heap)) <$> marked /\
    20%N ∈ marked /\ 10%N ∈ marked.
Proof.
  destruct (@marking_takes_the_heaviest_first example_platform example_heap
              example_alloc (@HeapProfiler_new example_platform))
    as (marked & Hstacks & _ & _ & _ & Hmarks & _).
  - apply HeapProfiler_new_wf.
  - vm_compute. reflexivity.
  - cbv zeta in *. exists marked. split; [exact Hstacks |]. split.
    + apply (Hmarks 0%nat); [vm_compute; reflexivity |]. intros j Hj. lia.
    + apply (Hmarks 1%nat); [vm_compute; reflexivity |].
      intros j Hj. assert (j = 1%nat) as -> by lia. vm_compute. discriminate.
Defined.

Lemma important_stacks_stay_reported_witness :
  let hp := (@_generateServerStatusSection example_platform example_heap example_alloc
               (@HeapProfiler_new example_platform)).1.1 in
  let r := @_generateServerStatusSection example_platform example_heap_later [] hp in
  exists marked,
    stacks r.1.2 = @stack_entry (stackInfoMap r.1.1) <$> marked /\
    10%N ∈ marked /\ importantStacks r.1.1 = marked.
Proof.
  cbv zeta.
  destruct (@important_stacks_stay_reported example_platform example_heap_later []
              (@_generateServerStatusSection example_platform example_heap
                 example_alloc (@HeapProfiler_new example_platform)).1.1)
    as (marked & Hstacks & Hsticky & _ & Hkept & _).
  - apply example_first_call_wf.
  - vm_compute. reflexivity.
  - cbv zeta in *. exists marked. split; [exact Hstacks |]. split.
    + apply Hsticky.
      assert (importantStacks (@_generateServerStatusSection example_platform
                example_heap example_alloc (@HeapProfiler_new example_platform)).1.1
              = [10%N; 20%N]) as -> by (vm_compute; reflexivity).
      by left.
    + apply Hkept. vm_compute. reflexivity.
Defined.

Lemma important_stacks_are_cleared_periodically_witness :
  importantStacks
    (@after_calls example_platform
       (replicate (Z.to_nat 14400) (example_heap, example_alloc))
       (@HeapProfiler_new example_platform)) = [] /\
  logGeneralStats
    (@after_calls example_platform
       (replicate (Z.to_nat 14400) (example_heap, example_alloc))
       (@HeapProfiler_new example_platform)) = false.
Proof.
  destruct (@important_stacks_are_cleared_periodically example_platform
              (replicate (Z.to_nat 14400) (example_heap, example_alloc)))
    as (_ & Hcleared & Hlogged).
  assert (replicate (Z.to_nat 14400) (example_heap, example_alloc) <> [])
    as Hcalls.
  { intros Heq. apply (f_equal length) in Heq.
    rewrite length_replicate in Heq. vm_compute in Heq. discriminate. }
  split.
  - apply Hcleared; [exact Hcalls |].
    rewrite length_replicate. vm_compute. reflexivity.
  - apply Hlogged. exact Hcalls.
Defined.

End HeapProfilingFacts.
